(** * tide-predictions: station resolution and prediction aggregation

    A shallow embedding of the service's request pipeline (the handlers of
    the latest revision of [index.js]): the station directory and its
    periodic refresh, coordinate validation, nearest-station search,
    the prediction request window, the name normaliser and the four
    request handlers with their dispatcher.  The handlers and the
    dispatcher of the first revision are embedded beside them, in the
    module [Earlier], and compared with the latest.

    JavaScript numbers are IEEE-754 binary64 values, modelled bit-exactly by
    the standard library's [spec_float] at precision 53 and exponent bound
    1024.  Strings are sequences of Latin-1 code units.  The npm packages
    the service calls (turf's [distance], [titlecase], [geo-tz], [moment],
    [etag]) are the fields of the class [Externals]; the upstream NOAA
    endpoints are oracles of the [World]. *)

From Stdlib Require Import ZArith Lia Bool List String Ascii.
From Stdlib Require Import Sorted Permutation.
From Stdlib Require Import SpecFloat.
Import ListNotations.
Local Open Scope string_scope.
Local Open Scope Z_scope.

(** ** The fragment of JavaScript the service relies on *)

Module JS.

(** *** Numbers *)

Definition prec : Z := 53.
Definition emax : Z := 1024.

Definition number : Type := spec_float.

Definition NaN : number := S754_nan.
Definition zero : number := S754_zero false.

(** Every double is a [spec_float] with a canonical mantissa. *)
Definition valid (x : number) : bool := valid_binary prec emax x.

Definition isNaN (x : number) : bool :=
  match x with S754_nan => true | _ => false end.

(** [x - y], [x < y], [x > y], [x <= y] and [x == y] on numbers. *)
Definition sub (x y : number) : number := SFsub prec emax x y.
Definition add (x y : number) : number := SFadd prec emax x y.
Definition ltb (x y : number) : bool := SFltb x y.
Definition gtb (x y : number) : bool := SFltb y x.
Definition leb (x y : number) : bool := SFleb x y.
Definition eqb (x y : number) : bool := SFeqb x y.

(** The double nearest to an integer, and to [m / d] for [d > 0]. *)
Definition of_Z (m : Z) : number := binary_normalize prec emax m 0 false.

Definition of_ratio (neg : bool) (m d : positive) : number :=
  SFdiv prec emax (S754_finite neg m 0) (S754_finite false d 0).

(** The double nearest to [(-1)^neg * m * 10^e]. *)
Definition of_decimal (neg : bool) (m : Z) (e : Z) : number :=
  match m with
  | Zpos p =>
      if 0 <=? e
      then binary_normalize prec emax (cond_Zopp neg (Zpos p * 10 ^ e)) 0 false
      else of_ratio neg p (Z.to_pos (10 ^ (- e)))
  | _ => S754_zero neg
  end.

(** *** Strings *)

Definition code (c : ascii) : nat := nat_of_ascii c.

Definition isDigit (c : ascii) : bool :=
  (48 <=? code c)%nat && (code c <=? 57)%nat.

Definition digitValue (c : ascii) : Z := Z.of_nat (code c) - 48.

(** [String.prototype.toLowerCase] on Latin-1 code units: [A-Z] and the
    accented capitals U+00C0..U+00DE (but not the multiplication sign
    U+00D7) move up by 32. *)
Definition lowerChar (c : ascii) : ascii :=
  let n := code c in
  if ((65 <=? n)%nat && (n <=? 90)%nat)
     || ((192 <=? n)%nat && (n <=? 222)%nat && negb (n =? 215)%nat)
  then ascii_of_nat (n + 32) else c.

Fixpoint toLowerCase (s : string) : string :=
  match s with
  | EmptyString => EmptyString
  | String c r => String (lowerChar c) (toLowerCase r)
  end.

Fixpoint startsWith (p s : string) : bool :=
  match p, s with
  | EmptyString, _ => true
  | String a p', String b s' => Ascii.eqb a b && startsWith p' s'
  | String _ _, EmptyString => false
  end.

Fixpoint drop (n : nat) (s : string) : string :=
  match n, s with
  | O, _ => s
  | S n', String _ r => drop n' r
  | S _, EmptyString => EmptyString
  end.

(** [s.replace(pattern, replacement)] with a string pattern: only the first
    occurrence is replaced. *)
Fixpoint replace (pattern replacement s : string) : string :=
  if startsWith pattern s
  then replacement ++ drop (String.length pattern) s
  else match s with
       | EmptyString => EmptyString
       | String c r => String c (replace pattern replacement r)
       end.

(** *** [parseFloat] *)

(** White space that [parseFloat] skips: TAB, LF, VT, FF, CR, SP, NBSP. *)
Definition isWhiteSpace (c : ascii) : bool :=
  let n := code c in
  ((9 <=? n)%nat && (n <=? 13)%nat) || (n =? 32)%nat || (n =? 160)%nat.

Fixpoint trimStart (s : string) : string :=
  match s with
  | String c r => if isWhiteSpace c then trimStart r else s
  | EmptyString => s
  end.

(** Reads a run of decimal digits onto the accumulator [acc]; returns the
    new accumulator, the number of digits read and the rest. *)
Fixpoint readDigits (s : string) (acc : Z) (n : Z) : Z * Z * string :=
  match s with
  | String c r =>
      if isDigit c then readDigits r (10 * acc + digitValue c) (n + 1)
      else (acc, n, s)
  | EmptyString => (acc, n, s)
  end.

Definition readSign (s : string) : bool * string :=
  match s with
  | String "-" r => (true, r)
  | String "+" r => (false, r)
  | _ => (false, s)
  end.

(** The exponent part [e] or [E], an optional sign and at least one digit;
    0 when there is none. *)
Definition readExponent (s : string) : Z :=
  match s with
  | String c r =>
      if Ascii.eqb c "e" || Ascii.eqb c "E" then
        let (neg, r') := readSign r in
        let '(e, n, _) := readDigits r' 0 0 in
        if n =? 0 then 0 else cond_Zopp neg e
      else 0
  | EmptyString => 0
  end.

(** The longest prefix of the trimmed input that is a decimal literal is
    converted; there is none when no digit is found. *)
Definition parseFloatString (s : string) : number :=
  let (neg, s0) := readSign (trimStart s) in
  if startsWith "Infinity" s0 then S754_infinity neg else
  let '(ip, ni, s1) := readDigits s0 0 0 in
  let '(m, nf, s2) :=
    match s1 with
    | String "." r => readDigits r ip 0
    | _ => (ip, 0, s1)
    end in
  if ni + nf =? 0 then NaN
  else of_decimal neg m (readExponent s2 - nf).

(** A value as it occurs in a coordinate position: a route capture is a
    string, a field of an upstream station a JSON number or string, or it
    is absent. *)
Inductive value : Type :=
| VUndefined
| VNumber (n : number)
| VString (s : string).

(** [parseFloat(v)] converts [v] to a string first: a number prints and
    parses back to itself (negative zero prints as [0]); [undefined] has
    no digits. *)
Definition parseFloat (v : value) : number :=
  match v with
  | VUndefined => NaN
  | VNumber (S754_zero _) => zero
  | VNumber n => n
  | VString s => parseFloatString s
  end.

(** *** Arrays *)

(** [array.slice(start, end)] for integral arguments; a negative index
    counts from the end of the array. *)
Definition relativeIndex (len k : Z) : Z :=
  if k <? 0 then Z.max (len + k) 0 else Z.min k len.

Definition slice {A : Type} (l : list A) (start stop : Z) : list A :=
  let len := Z.of_nat (List.length l) in
  let from := relativeIndex len start in
  let to := relativeIndex len stop in
  firstn (Z.to_nat (to - from)) (skipn (Z.to_nat from) l).

(** [array.sort(comparefn)].  The sort is stable: an element moves behind
    a later one only when the comparator finds it strictly greater; a
    comparator result of [NaN] counts as [+0].  Elements are inserted from
    the right end of the array into the sorted suffix. *)
Fixpoint insert {A : Type} (comparefn : A -> A -> number) (x : A) (sorted : list A)
  : list A :=
  match sorted with
  | [] => [x]
  | y :: rest =>
      if gtb (comparefn x y) zero then y :: insert comparefn x rest
      else x :: sorted
  end.

Definition sort {A : Type} (comparefn : A -> A -> number) (l : list A) : list A :=
  fold_right (insert comparefn) [] l.

(** [array[i] = v] on an array with holes: writing past the end extends
    the array. *)
Fixpoint arraySet {A : Type} (a : list (option A)) (i : nat) (v : A)
  : list (option A) :=
  match i, a with
  | O, [] => [Some v]
  | O, _ :: r => Some v :: r
  | S i', [] => None :: arraySet [] i' v
  | S i', x :: r => x :: arraySet r i' v
  end.

(** The elements of an array, holes skipped. *)
Definition elements {A : Type} (a : list (option A)) : list A :=
  flat_map (fun x => match x with Some v => [v] | None => [] end) a.

(** *** Maps with string keys

    A [Map] iterates in insertion order; setting a key that is present
    replaces its value in place. *)
Definition Map (V : Type) : Type := list (string * V).

Fixpoint Map_get {V : Type} (m : Map V) (k : string) : option V :=
  match m with
  | [] => None
  | (k', v) :: r => if String.eqb k' k then Some v else Map_get r k
  end.

Fixpoint Map_set {V : Type} (m : Map V) (k : string) (v : V) : Map V :=
  match m with
  | [] => [(k, v)]
  | (k', v') :: r =>
      if String.eqb k' k then (k', v) :: r else (k', v') :: Map_set r k v
  end.

(** [new Map(entries)] *)
Definition Map_new {V : Type} (entries : list (string * V)) : Map V :=
  fold_left (fun m kv => Map_set m (fst kv) (snd kv)) entries [].

Definition Map_values {V : Type} (m : Map V) : list V := map snd m.

Definition Map_size {V : Type} (m : Map V) : nat := List.length m.

(** *** Errors and completions *)

Inductive ErrorName : Type := Error | RangeError | TypeError | FetchError.

Record JSError : Type := mkError {
  name : ErrorName;
  message : string;
  statusCode : option Z
}.

(** A call either returns a value or throws; an [async] function resolves
    or rejects. *)
Inductive Completion (A : Type) : Type :=
| Return (v : A)
| Throw (e : JSError).

Arguments Return {A} v.
Arguments Throw {A} e.

(** Messages of the engine's own [TypeError]s. *)
Definition cannotRead (property : string) : JSError :=
  mkError TypeError ("Cannot read property '" ++ property ++ "' of undefined") None.

(** One statement after another: the second runs when the first has
    returned. *)
Definition andThen {A B : Type} (c : Completion A) (k : A -> Completion B)
  : Completion B :=
  match c with
  | Return a => k a
  | Throw e => Throw e
  end.

(** [array.map(callback)] with a callback that may throw: the elements are
    visited in order and the first throw ends the call. *)
Fixpoint arrayMap {A B : Type} (callback : A -> Completion B) (l : list A)
  : Completion (list B) :=
  match l with
  | [] => Return []
  | x :: rest =>
      match callback x with
      | Throw e => Throw e
      | Return y =>
          match arrayMap callback rest with
          | Throw e => Throw e
          | Return ys => Return (y :: ys)
          end
      end
  end.

End JS.

Import JS.

(** ** The packages and configuration the service depends on

    None of these is part of the repository; the service only calls them. *)

Class Externals : Type := {
  (** [@turf/distance]: great-circle distance in kilometres between two
      positions given as [[lon, lat]]. *)
  distance : number * number -> number * number -> number;
  (** [titlecase]'s [toLaxTitleCase]. *)
  titleCase : string -> string;
  (** [geo-tz]: the time zone name at a latitude and longitude; it throws
      on a latitude or longitude that is not a number within range, and
      it may find no zone ([null]). *)
  geoTz : number -> number -> Completion (option string);
  (** [moment]: the [YYYYMMDD] rendering of a local calendar day, counted
      in days from 1970-01-01. *)
  formatYYYYMMDD : Z -> string;
  (** [moment.tz(t, 'YYYY-MM-DD HH:mm', tz)]: its [format()] and [unix()]. *)
  momentTzFormat : string -> option string -> string;
  momentTzUnix : string -> option string -> number;
  (** [process.env.APPLICATION] *)
  appName : string
}.

(** ** Data *)

(** A station as the upstream directory lists it; [distance] is absent
    there and is set on the copies [getStationsNear] makes. *)
Record Station : Type := mkStation {
  stationId : string;
  etidesStnName : string;
  commonName : string;
  station_lat : value;
  station_lon : value;
  station_state : string;
  station_region : string;
  stationType : string;
  station_distance : option number
}.

(** [{...station, distance: d}] *)
Definition withDistance (station : Station) (d : number) : Station :=
  {| stationId := stationId station;
     etidesStnName := etidesStnName station;
     commonName := commonName station;
     station_lat := station_lat station;
     station_lon := station_lon station;
     station_state := station_state station;
     station_region := station_region station;
     stationType := stationType station;
     station_distance := Some d |}.

(** The query parameters of a request to the predictions endpoint. *)
Record PredictionsRequest : Type := mkRequest {
  p_station : string;
  p_begin_date : string;
  p_range : Z;
  p_product : string;
  p_application : string;
  p_datum : string;
  p_time_zone : string;
  p_units : string;
  p_interval : string;
  p_format : string
}.

Record RawPrediction : Type := mkRaw {
  raw_t : string;
  raw_type : string;
  raw_v : value
}.

(** The parsed body of a predictions reply; [predictions] is absent when
    upstream answers with an error object. *)
Record Tides : Type := mkTides {
  predictions : option (list RawPrediction)
}.

Inductive Reply (A : Type) : Type :=
| Rejected (e : JSError)   (* [fetch] or [response.json()] rejects *)
| Body (json : A).

Arguments Rejected {A} e.
Arguments Body {A} json.

(** The parsed body of a directory reply; [stationList] may be absent. *)
Record Directory : Type := mkDirectory {
  stationList : option (list Station)
}.

Inductive Fetch : Type :=
| FetchDirectory
| FetchPredictions (request : PredictionsRequest).

Inductive TideType : Type := high | low.
Inductive StationKind : Type := harmonic | subordinate.

Record Prediction : Type := mkPrediction {
  prediction_type : TideType;
  height : number;
  time : string;
  unixTime : number
}.

Record FormattedStation : Type := mkFormatted {
  f_id : string;
  f_name : string;
  f_commonName : string;
  f_lat : number;
  f_lon : number;
  f_state : string;
  f_region : string;
  timeZone : option string;
  f_distance : option number;
  f_type : StationKind
}.

(** [{...formatTideStation(station), predictions: [...]}] *)
Record StationWithPredictions : Type := mkWithPredictions {
  station_fields : FormattedStation;
  station_predictions : list Prediction
}.

(** What a handler passes to [JSON.stringify]. *)
Inductive Payload : Type :=
| StationPayload (station : StationWithPredictions)
| AllPayload (stations : list FormattedStation)
| ClosestPayload (lat lon : number) (station : StationWithPredictions)
| NearPayload (lat lon : number) (stations : list StationWithPredictions).

(** ** The process state

    [tideStations] is the module-level directory; [today] is the clock's
    local calendar day; [predictionsEndpoint] is what upstream answers to a
    predictions request; [fetched] records the requests issued so far,
    latest first. *)
Record World : Type := mkWorld {
  tideStations : Map Station;
  today : Z;
  predictionsEndpoint : PredictionsRequest -> Reply Tides;
  fetched : list Fetch
}.

(** Computations that read and write the process state and may throw. *)
Definition M (A : Type) : Type := World -> Completion A * World.

Definition ret {A : Type} (a : A) : M A := fun w => (Return a, w).

Definition throw {A : Type} (e : JSError) : M A := fun w => (Throw e, w).

Definition bind {A B : Type} (m : M A) (k : A -> M B) : M B :=
  fun w =>
    match m w with
    | (Return a, w') => k a w'
    | (Throw e, w') => (Throw e, w')
    end.

Definition lift {A : Type} (c : Completion A) : M A := fun w => (c, w).

Definition gets {A : Type} (f : World -> A) : M A := fun w => (Return (f w), w).

Declare Scope js_scope.
Delimit Scope js_scope with js.
Notation "x <- m ;; k" := (bind m (fun x => k))
  (at level 61, m at next level, right associativity) : js_scope.
Local Open Scope js_scope.

Definition setTideStations (m : Map Station) (w : World) : World :=
  {| tideStations := m;
     today := today w;
     predictionsEndpoint := predictionsEndpoint w;
     fetched := fetched w |}.

Definition record (f : Fetch) (w : World) : World :=
  {| tideStations := tideStations w;
     today := today w;
     predictionsEndpoint := predictionsEndpoint w;
     fetched := f :: fetched w |}.

(** [await fetch(url)] followed by [await response.json()]. *)
Definition fetchJson {A : Type} (f : Fetch) (reply : Reply A) : M A :=
  fun w =>
    match reply with
    | Rejected e => (Throw e, record f w)
    | Body json => (Return json, record f w)
    end.

Section Service.

Context {externals : Externals}.

(** ** The station directory *)

(** [fetchTideStations]: the directory is replaced only once the reply
    has been fetched, parsed and turned into a [Map]. *)
Definition fetchTideStations (reply : Reply Directory) : M unit :=
  json <- fetchJson FetchDirectory reply ;;
  match stationList json with
  | None => throw (cannotRead "map")
  | Some list =>
      fun w =>
        (Return tt,
         setTideStations
           (Map_new (map (fun station => (stationId station, station)) list)) w)
  end.

(** ** Predictions *)

(** The query string [fetchPredictionsForTideStation] builds with
    [params.set]; [now] is the day [moment()] falls on.  [days] is an
    integral number: numbers are exact on the integers below [2^53], and
    the range is computed in [Z]. *)
Definition predictionsParams (station : Station) (days : Z) (now : Z)
  : PredictionsRequest :=
  {| p_station := stationId station;
     p_begin_date := formatYYYYMMDD (now - 1);
     p_range := 24 * (days + 2);
     p_product := "predictions";
     p_application := appName;
     p_datum := "MLLW";
     p_time_zone := "lst_ldt";
     p_units := "english";
     p_interval := "hilo";
     p_format := "json" |}.

Definition fetchPredictionsForTideStation (station : option Station) (days : option Z)
  : M Tides :=
  let days := match days with Some d => d | None => 2 end in
  match station with
  | None => throw (cannotRead "stationId")
  | Some station =>
      now <- gets today ;;
      let params := predictionsParams station days now in
      endpoint <- gets predictionsEndpoint ;;
      fetchJson (FetchPredictions params) (endpoint params)
  end.

(** [`${name}`] is the name itself: the names of the directory are JSON
    strings. *)
Definition formatTideStationName (name : string) : string :=
  titleCase (replace "u.s." "U.S." (toLowerCase name)).

(** [geoTz.tz] may throw: the station is formatted only when it returns. *)
Definition formatTideStation (station : Station) : Completion FormattedStation :=
  let lat := parseFloat (station_lat station) in
  let lon := parseFloat (station_lon station) in
  match geoTz lat lon with
  | Throw e => Throw e
  | Return tz =>
      Return
        {| f_id := stationId station;
           f_name := formatTideStationName (etidesStnName station);
           f_commonName := formatTideStationName (commonName station);
           f_lat := lat;
           f_lon := lon;
           f_state := station_state station;
           f_region := station_region station;
           timeZone := tz;
           f_distance := station_distance station;
           f_type :=
             if String.eqb (stationType station) "R" then harmonic else subordinate |}
  end.

Definition formatTidePrediction (prediction : RawPrediction) (station : Station)
  : Completion Prediction :=
  let lat := parseFloat (station_lat station) in
  let lon := parseFloat (station_lon station) in
  match geoTz lat lon with
  | Throw e => Throw e
  | Return tz =>
      Return
        {| prediction_type := if String.eqb (raw_type prediction) "H" then high else low;
           height := parseFloat (raw_v prediction);
           time := momentTzFormat (raw_t prediction) tz;
           unixTime := momentTzUnix (raw_t prediction) tz |}
  end.

Definition calculateDistance (from to : value * value) : number :=
  let '(lat1, lon1) := from in
  let '(lat2, lon2) := to in
  let fromPoint := (parseFloat lon1, parseFloat lat1) in
  let toPoint := (parseFloat lon2, parseFloat lat2) in
  distance fromPoint toPoint.

(** The object literal is evaluated in order: the station is formatted
    before [tides.predictions] is read. *)
Definition getStationPredictions (station : option Station) (days : option Z)
  : M StationWithPredictions :=
  tides <- fetchPredictionsForTideStation station days ;;
  match station with
  | None => throw (cannotRead "lat")
  | Some station =>
      fields <- lift (formatTideStation station) ;;
      match predictions tides with
      | None => throw (cannotRead "map")
      | Some list =>
          formatted <-
            lift (arrayMap (fun prediction => formatTidePrediction prediction station)
                    list) ;;
          ret {| station_fields := fields; station_predictions := formatted |}
      end
  end.

(** ** Nearest stations *)

Definition validateLatitudeAndLongitude (lat lon : value) : Completion unit :=
  let lat := parseFloat lat in
  let lon := parseFloat lon in
  if ltb lat (of_Z (-90)) || gtb lat (of_Z 90)
  then Throw (mkError RangeError "Invalid latitude" None)
  else if ltb lon (of_Z (-180)) || gtb lon (of_Z 180)
  then Throw (mkError RangeError "Invalid longitude" None)
  else Return tt.

(** The comparator [(a, b) => a.distance - b.distance]; an absent
    distance converts to [NaN]. *)
Definition distanceOf (station : Station) : number :=
  match station_distance station with Some d => d | None => NaN end.

Definition byDistance (a b : Station) : number :=
  sub (distanceOf a) (distanceOf b).

(** The array [stationsWithDistances] of [getStationsNear]. *)
Definition stationsWithDistances (lat lon : value) (directory : Map Station)
  : list Station :=
  map (fun station =>
         withDistance station
           (calculateDistance (lat, lon) (station_lat station, station_lon station)))
      (Map_values directory).

Definition getStationsNear (lat lon : value) (limit : option Z) : M (list Station) :=
  let limit := match limit with Some n => n | None => 10 end in
  _ <- lift (validateLatitudeAndLongitude lat lon) ;;
  directory <- gets tideStations ;;
  ret (slice (sort byDistance (stationsWithDistances lat lon directory)) 0 limit).

(** ** [async/map]

    [asyncMap(coll, iteratee)] starts every iteratee in collection order;
    an [async] iteratee runs at once up to its first pending [await], so
    the request of [getStationPredictions] is issued when the task starts.
    The tasks then complete in an order the environment chooses: the
    schedule lists task indices in order of completion, and tasks it does
    not name complete after those it names.  Each result is stored at the
    index of its item; the first failure rejects the whole call.  The
    package is not part of the repository: this is its documented
    behaviour. *)

(** The elements of [l] not in [seen], each at its first occurrence. *)
Fixpoint firstOccurrences (seen l : list nat) : list nat :=
  match l with
  | [] => []
  | i :: r =>
      if existsb (Nat.eqb i) seen then firstOccurrences seen r
      else i :: firstOccurrences (i :: seen) r
  end.

(** The order in which [n] tasks complete under a schedule. *)
Definition completionOrder (n : nat) (schedule : list nat) : list nat :=
  firstOccurrences [] (filter (fun i => (i <? n)%nat) schedule ++ seq 0 n)%list.

(** Starts the tasks in order: each issues its request, and what it will
    complete with is settled by what upstream answers. *)
Fixpoint startAll {A B : Type} (iteratee : A -> M B) (coll : list A)
  : World -> list (Completion B) * World :=
  fun w =>
    match coll with
    | [] => ([], w)
    | item :: rest =>
        let (outcome, w1) := iteratee item w in
        let (outcomes, w2) := startAll iteratee rest w1 in
        (outcome :: outcomes, w2)
    end.

(** Completes the tasks in [order]: [results[index] = value] for a task
    that returns, rejection for the first that throws. *)
Fixpoint settle {B : Type} (outcomes : list (Completion B)) (order : list nat)
  (results : list (option B)) : Completion (list B) :=
  match order with
  | [] => Return (elements results)
  | index :: rest =>
      match nth_error outcomes index with
      | Some (Return value) => settle outcomes rest (arraySet results index value)
      | Some (Throw e) => Throw e
      | None => settle outcomes rest results
      end
  end.

Definition asyncMap {A B : Type} (schedule : list nat) (coll : list A)
  (iteratee : A -> M B) : M (list B) :=
  fun w =>
    let (outcomes, w') := startAll iteratee coll w in
    (settle outcomes (completionOrder (List.length coll) schedule) [], w').

(** ** The request handlers *)

Definition closestHandler (lat lon : string) : M Payload :=
  near <- getStationsNear (VString lat) (VString lon) None ;;
  let closestStation := nth_error near 0 in
  station <- getStationPredictions closestStation (Some 7) ;;
  ret (ClosestPayload (parseFloat (VString lat)) (parseFloat (VString lon)) station).

Definition nearHandler (schedule : list nat) (lat lon : string) : M Payload :=
  nearbyStations <- getStationsNear (VString lat) (VString lon) (Some 10) ;;
  stationsWithPredictions <-
    asyncMap schedule nearbyStations
      (fun station => getStationPredictions (Some station) None) ;;
  ret (NearPayload (parseFloat (VString lat)) (parseFloat (VString lon))
         stationsWithPredictions).

Definition individualStationHandler (stationId : string) : M Payload :=
  directory <- gets tideStations ;;
  match Map_get directory stationId with
  | None => throw (mkError Error "Invalid station" None)
  | Some station =>
      response <- getStationPredictions (Some station) (Some 7) ;;
      ret (StationPayload response)
  end.

Definition allStationsHandler : M Payload :=
  directory <- gets tideStations ;;
  stations <- lift (arrayMap formatTideStation (Map_values directory)) ;;
  ret (AllPayload stations).

(** ** The dispatcher *)

Record Req : Type := mkReq {
  method : string;
  url : string
}.

Inductive HeaderValue : Type :=
| Text (s : string)
| Seconds (n : Z)
| ExpiresAfterHours (hours : Z)   (* the HTTP date [hours] from now *)
| PublicMaxAge (seconds : Z)      (* [public, max-age=seconds] *)
| ETagOf (data : Payload).        (* [etag(data)] *)

Inductive ResponseBody : Type :=
| Data (data : Payload)
| Message (message : string).     (* [{ message }] *)

(** The response object: the headers the service has set, in call order,
    and what has been sent on it.  A [send] ends the response. *)
Record Res : Type := mkRes {
  headers : list (string * HeaderValue);
  sent : list (Z * ResponseBody)
}.

(** The error of [res.setHeader] once the response has been sent
    ([ERR_HTTP_HEADERS_SENT]). *)
Definition headersSent : JSError :=
  mkError Error "Cannot set headers after they are sent to the client" None.

(** [res.setHeader(name, value)]: it throws on a response that has been
    sent. *)
Definition setHeader (name : string) (value : HeaderValue) (res : Res)
  : Completion Res :=
  match sent res with
  | [] => Return {| headers := (headers res ++ [(name, value)])%list; sent := [] |}
  | _ :: _ => Throw headersSent
  end.

(** [micro]'s [send(res, code, obj)]: it sets the status and the content
    length and ends the response; on a response that has been sent, setting
    the header throws. *)
Definition send (code : Z) (body : ResponseBody) (res : Res) : Completion Res :=
  match sent res with
  | [] => Return {| headers := headers res; sent := [(code, body)] |}
  | _ :: _ => Throw headersSent
  end.

Definition setAccessControlHeaders (res : Res) : Completion Res :=
  andThen (setHeader "Access-Control-Allow-Methods" (Text "GET, OPTIONS") res)
    (fun res =>
       andThen (setHeader "Access-Control-Allow-Headers"
                  (Text "X-Requested-With, Content-Type, Accept") res)
         (setHeader "Access-Control-Allow-Max-Age" (Seconds 86400))).

Definition setCacheHeaders (res : Res) (data : Payload) (hours : option Z)
  : Completion Res :=
  let hours := match hours with Some h => h | None => 1 end in
  andThen (setHeader "Expires" (ExpiresAfterHours hours) res)
    (fun res =>
       andThen (setHeader "Cache-Control" (PublicMaxAge (hours * 3600)) res)
         (setHeader "ETag" (ETagOf data))).

Fixpoint span (p : ascii -> bool) (s : string) : string * string :=
  match s with
  | String c r =>
      if p c then let (a, b) := span p r in (String c a, b) else (EmptyString, s)
  | EmptyString => (EmptyString, EmptyString)
  end.

(** The character class [[.-\d]]. *)
Definition isCoordinateChar (c : ascii) : bool :=
  Ascii.eqb c "." || Ascii.eqb c "-" || isDigit c.

(** [[.-\d]+] or [\d+] against the whole of [s]. *)
Definition allOf (p : ascii -> bool) (s : string) : bool :=
  match span p s with
  | (String _ _, EmptyString) => true
  | _ => false
  end.

(** [^prefix([.-\d]+),([.-\d]+)$] *)
Definition matchCoordinates (prefix url : string) : option (string * string) :=
  if startsWith prefix url then
    match span isCoordinateChar (drop (String.length prefix) url) with
    | (String c first, String "," second) =>
        if allOf isCoordinateChar second then Some (String c first, second) else None
    | _ => None
    end
  else None.

(** A matched route with its captures, [matches.slice(1)]. *)
Inductive Matched : Type :=
| IndividualStation (stationId : string)
| AllStations
| Closest (lat lon : string)
| Near (lat lon : string).

(** [^\/(\d+)$] *)
Definition matchStation (url : string) : option string :=
  match url with
  | String "/" digits => if allOf isDigit digits then Some digits else None
  | _ => None
  end.

(** The routes are tried in the order of the [routes] map. *)
Definition matchRoute (url : string) : option Matched :=
  match matchStation url with
  | Some stationId => Some (IndividualStation stationId)
  | None =>
      if String.eqb url "/all" then Some AllStations
      else match matchCoordinates "/closest/" url with
           | Some (lat, lon) => Some (Closest lat lon)
           | None =>
               match matchCoordinates "/near/" url with
               | Some (lat, lon) => Some (Near lat lon)
               | None => None
               end
           end
  end.

Definition callHandler (schedule : list nat) (route : Matched) : M Payload :=
  match route with
  | IndividualStation stationId => individualStationHandler stationId
  | AllStations => allStationsHandler
  | Closest lat lon => closestHandler lat lon
  | Near lat lon => nearHandler schedule lat lon
  end.

Definition emptyRes : Res := {| headers := []; sent := [] |}.

(** The last statement of [module.exports]:
    [send(res, 404, { message: 'Not Found' })]. *)
Definition sendNotFound (res : Res) : Completion (option string) * Res :=
  match send 404 (Message "Not Found") res with
  | Return res' => (Return None, res')
  | Throw e => (Throw e, res)
  end.

(** The [try] block of [module.exports] with its [catch], and what
    follows: the [try] returns once the data has been sent; the [catch]
    sends the message of the error and falls through to the last
    statement.  A response on which a header cannot be set or which cannot
    be sent is left as it is. *)
Definition respond (outcome : Completion Payload) (res : Res)
  : Completion (option string) * Res :=
  let attempt :=
    match outcome with
    | Return data => andThen (setCacheHeaders res data None) (send 200 (Data data))
    | Throw err => Throw err
    end in
  match attempt with
  | Return res' => (Return None, res')
  | Throw err =>
      match send 404 (Message (message err)) res with
      | Return res' => sendNotFound res'
      | Throw e => (Throw e, res)
      end
  end.

(** [module.exports]: what the function returns or throws, and the
    response object afterwards. *)
Definition exports (schedule : list nat) (req : Req) (res : Res) (w : World)
  : Completion (option string) * Res * World :=
  if negb (String.eqb (method req) "GET") && negb (String.eqb (method req) "OPTIONS")
  then (Throw (mkError Error "Method Not Allowed" (Some 405)), res, w)
  else
    match andThen (setHeader "Access-Control-Allow-Origin" (Text "*") res)
            (setHeader "Content-Type" (Text "application/json")) with
    | Throw e => (Throw e, res, w)
    | Return res =>
        match matchRoute (url req) with
        | Some route =>
            if String.eqb (method req) "OPTIONS"
            then
              match setAccessControlHeaders res with
              | Return res' => (Return (Some EmptyString), res', w)
              | Throw e => (Throw e, res, w)
              end
            else
              let (outcome, w') := callHandler schedule route w in
              let (completion, res') := respond outcome res in
              (completion, res', w')
        | None =>
            let (completion, res') := sendNotFound res in
            (completion, res', w)
        end
    end.

(** The response the client receives. *)
Definition received (res : Res) : option (Z * ResponseBody) := hd_error (sent res).

(** ** The process

    The directory is refreshed when the process starts and then once a
    day; the promise [fetchTideStations] returns is dropped.  Requests are
    served in between. *)
Inductive Event : Type :=
| Refresh (reply : Reply Directory)
| Incoming (schedule : list nat) (req : Req).

Definition step (event : Event) (w : World) : option Res * World :=
  match event with
  | Refresh reply => (None, snd (fetchTideStations reply w))
  | Incoming schedule req =>
      let '(_, res, w') := exports schedule req emptyRes w in (Some res, w')
  end.

Fixpoint run (events : list Event) (w : World) : list (option Res) * World :=
  match events with
  | [] => ([], w)
  | event :: rest =>
      let (out, w1) := step event w in
      let (outs, w2) := run rest w1 in
      (out :: outs, w2)
  end.

End Service.

(** ** Vocabulary of the statements *)

(** A number that is not [NaN]. *)
Definition isNumber (x : number) : bool := valid x && negb (isNaN x).

(** [lo <= x <= hi] *)
Definition inRange (lo hi : Z) (x : number) : bool :=
  leb (of_Z lo) x && leb x (of_Z hi).

(** The position of a number in the order of the doubles: zero for both
    zeros, and increasing with the value. *)
Definition ord (x : number) : Z :=
  match x with
  | S754_zero _ => 0
  | S754_nan => 0
  | S754_infinity s => cond_Zopp s (4096 * 2 ^ prec)
  | S754_finite s m e => cond_Zopp s ((e + 1075) * 2 ^ prec + Zpos m)
  end.

(** The integer a finite double denotes, in units of [2^ez]. *)
Definition scaled (ez : Z) (s : bool) (m : positive) (e : Z) : Z :=
  cond_Zopp s (Zpos (fst (shl_align m e ez))).

(** The value stored at an index of an array with holes. *)
Definition stored {A : Type} (a : list (option A)) (i : nat) : option A :=
  match nth_error a i with Some (Some v) => Some v | _ => None end.

(** The array [settle] has built once the tasks in [order] have returned. *)
Definition stores {A : Type} (values : list A) (order : list nat)
  (results : list (option A)) : list (option A) :=
  fold_left
    (fun a i => match nth_error values i with Some v => arraySet a i v | None => a end)
    order results.

(** An array that holds, wherever it holds something, the value of the
    task at that index. *)
Definition agrees {A : Type} (values : list A) (results : list (option A)) : Prop :=
  forall k v, stored results k = Some v -> nth_error values k = Some v.

(** The order a key induces. *)
Definition keyLe {A : Type} (key : A -> Z) (a b : A) : Prop := key a <= key b.





(** What one prediction request for a station yields. *)
Definition predictionsFor {externals : Externals} (w : World) (days : option Z)
  (station : Station) : Completion StationWithPredictions :=
  fst (getStationPredictions (Some station) days w).

(** The request [getStationPredictions] issues for a station. *)
Definition requestFor {externals : Externals} (w : World) (days : Z)
  (station : Station) : Fetch :=
  FetchPredictions (predictionsParams station days (today w)).

(** The process after a list of requests has been issued. *)
Definition recordAll (requests : list Fetch) (w : World) : World :=
  fold_left (fun w f => record f w) requests w.

(** [x] is a number below [lo] or above [hi]. *)
Definition outside (lo hi : Z) (x : number) : bool :=
  negb (isNaN x) && negb (inRange lo hi x).


(** The stations [getStationsNear] resolves, none when it throws. *)
Definition candidates {externals : Externals} (lat lon : string) (limit : option Z)
  (w : World) : list Station :=
  match fst (getStationsNear (VString lat) (VString lon) limit w) with
  | Return near => near
  | Throw _ => []
  end.

(** A refresh whose promise rejects. *)
Definition rejects (reply : Reply Directory) (w : World) : Prop :=
  exists e, fst (fetchTideStations reply w) = Throw e.

(** Events among which no refresh succeeds. *)
Definition noReload (events : list Event) : Prop :=
  Forall (fun event =>
            match event with
            | Incoming _ _ => True
            | Refresh reply => forall w, rejects reply w
            end) events.

(** The requests issued between two states of the process, earliest first. *)
Definition issued (before after : World) : list Fetch :=
  rev (firstn (List.length (fetched after) - List.length (fetched before)) (fetched after)).

(** ** Stand-ins for the packages, to run the model on examples *)

Module StandIn.

(** The sum of the differences in longitude and latitude. *)
Definition distance (from to : number * number) : number :=
  add (SFabs (sub (fst from) (fst to))) (SFabs (sub (snd from) (snd to))).

(** [String.prototype.toUpperCase] on one Latin-1 code unit: [a-z] and the
    accented small letters U+00E0..U+00FE (but not the division sign
    U+00F7) move down by 32, and the sharp s U+00DF becomes [SS].  The
    capitals of U+00B5 and U+00FF lie outside Latin-1; these two letters
    are left as they are. *)
Definition upperChar (c : ascii) : string :=
  let n := code c in
  if (n =? 223)%nat then "SS"
  else if ((97 <=? n)%nat && (n <=? 122)%nat)
          || ((224 <=? n)%nat && (n <=? 254)%nat && negb (n =? 247)%nat)
  then String (ascii_of_nat (n - 32)) EmptyString
  else String c EmptyString.

(** Capitalises the first letter of every word, as a title-caser does:
    [word.charAt(0).toUpperCase() + word.substr(1)]. *)
Fixpoint capitalize (atStart : bool) (s : string) : string :=
  match s with
  | EmptyString => EmptyString
  | String c r =>
      (if atStart then upperChar c else String c EmptyString)
      ++ capitalize (Ascii.eqb c " ") r
  end.

Definition titleCase (s : string) : string := capitalize true s.

(** A time zone lookup in the manner of [geo-tz]: it refuses a latitude or
    longitude that is not a number within range. *)
Definition geoTz (lat lon : number) : Completion (option string) :=
  if isNaN lat || ltb lat (of_Z (-90)) || gtb lat (of_Z 90)
  then Throw (mkError Error "Invalid latitude" None)
  else if isNaN lon || ltb lon (of_Z (-180)) || gtb lon (of_Z 180)
  then Throw (mkError Error "Invalid longitude" None)
  else Return (Some "Etc/UTC").

(** The rendering of a time in a zone; without a zone the time is taken
    as UTC. *)
Definition momentTzFormat (t : string) (tz : option string) : string :=
  t ++ " " ++ match tz with Some zone => zone | None => "UTC" end.

Definition digit (n : Z) : string := String (ascii_of_nat (Z.to_nat (48 + n mod 10))) EmptyString.

Definition digits2 (n : Z) : string := digit (n / 10) ++ digit n.

Definition digits4 (n : Z) : string := digits2 (n / 100) ++ digits2 n.

(** The proleptic Gregorian date of a day counted from 1970-01-01. *)
Definition formatYYYYMMDD (day : Z) : string :=
  let z := day + 719468 in
  let era := z / 146097 in
  let doe := z - era * 146097 in
  let yoe := (doe - doe / 1460 + doe / 36524 - doe / 146096) / 365 in
  let doy := doe - (365 * yoe + yoe / 4 - yoe / 100) in
  let mp := (5 * doy + 2) / 153 in
  let d := doy - (153 * mp + 2) / 5 + 1 in
  let m := if mp <? 10 then mp + 3 else mp - 9 in
  let y := yoe + era * 400 + (if m <=? 2 then 1 else 0) in
  digits4 y ++ digits2 m ++ digits2 d.

Definition externals : Externals :=
  Build_Externals distance titleCase geoTz formatYYYYMMDD
    momentTzFormat (fun _ _ => zero) "tide-predictions".

(** A directory of three stations and an upstream that answers every
    request with one high tide. *)
Definition station (stationId name : string) (lat lon : Z) : Station :=
  {| stationId := stationId;
     etidesStnName := name;
     commonName := name;
     station_lat := VNumber (of_Z lat);
     station_lon := VNumber (of_Z lon);
     station_state := "NJ";
     station_region := "Mid-Atlantic";
     stationType := "R";
     station_distance := None |}.

Definition A : Station := station "1" "ALPHA (INSIDE)" 0 0.
Definition B : Station := station "2" "BRAVO, u.s. COAST GUARD" 0 1.
Definition C : Station := station "3" "CHARLIE" 10 10.

Definition oneHighTide : Tides :=
  {| predictions := Some [ {| raw_t := "2026-11-02 03:12"; raw_type := "H";
                              raw_v := VString "4.51" |} ] |}.

Definition world (stations : list Station) : World :=
  {| tideStations := Map_new (map (fun s => (stationId s, s)) stations);
     today := 20759;
     predictionsEndpoint := fun _ => Body oneHighTide;
     fetched := [] |}.

End StandIn.

(** ** The first revision of the service

    The first revision of [index.js] shares the directory, the prediction
    request, the name normaliser and [formatTidePrediction] with the latest.
    It has two routes, [/tides/<id>] and [/closest/<lat>,<lon>]; it does not
    validate coordinates, formatted stations have no [type], and the
    dispatcher leaves every failure to its caller: it throws where the
    latest revision sends. *)

Module Earlier.

Record FormattedStation : Type := mkFormatted {
  f_id : string;
  f_name : string;
  f_commonName : string;
  f_lat : number;
  f_lon : number;
  f_state : string;
  f_region : string;
  timeZone : option string;
  f_distance : option number
}.

Record StationWithPredictions : Type := mkWithPredictions {
  station_fields : FormattedStation;
  station_predictions : list Prediction
}.

(** What a handler passes to [JSON.stringify]; [closestHandler] echoes the
    captured coordinates as they are, strings. *)
Inductive Payload : Type :=
| StationPayload (station : StationWithPredictions)
| ClosestPayload (lat lon : string) (stations : list StationWithPredictions).

Inductive HeaderValue : Type :=
| Text (s : string)
| Seconds (n : Z)
| ExpiresAfterHours (hours : Z)
| PublicMaxAge (seconds : Z)
| ETagOf (data : Payload).

(** The response object: the dispatcher only sets headers on it. *)
Record Res : Type := mkRes {
  headers : list (string * HeaderValue)
}.

(** What the dispatcher returns: the empty string or a handler's JSON. *)
Inductive Returned : Type :=
| EmptyBody
| Json (data : Payload).

Inductive Matched : Type :=
| IndividualStation (stationId : string)
| Closest (lat lon : string).

Section Service.

Context {externals : Externals}.

Definition formatTideStation (station : Station) : Completion FormattedStation :=
  let lat := parseFloat (station_lat station) in
  let lon := parseFloat (station_lon station) in
  match geoTz lat lon with
  | Throw e => Throw e
  | Return tz =>
      Return
        {| f_id := stationId station;
           f_name := formatTideStationName (etidesStnName station);
           f_commonName := formatTideStationName (commonName station);
           f_lat := lat;
           f_lon := lon;
           f_state := station_state station;
           f_region := station_region station;
           timeZone := tz;
           f_distance := station_distance station |}
  end.

(** The object literal is evaluated in order: the station is formatted
    before [tides.predictions] is read. *)
Definition getStationPredictions (station : option Station) (days : option Z)
  : M StationWithPredictions :=
  tides <- fetchPredictionsForTideStation station days ;;
  match station with
  | None => throw (cannotRead "lat")
  | Some station =>
      fields <- lift (formatTideStation station) ;;
      match predictions tides with
      | None => throw (cannotRead "map")
      | Some list =>
          formatted <-
            lift (arrayMap (fun prediction => formatTidePrediction prediction station)
                    list) ;;
          ret {| station_fields := fields; station_predictions := formatted |}
      end
  end.

Definition closestHandler (schedule : list nat) (lat lon : string) : M Payload :=
  directory <- gets tideStations ;;
  let sorted :=
    sort byDistance (stationsWithDistances (VString lat) (VString lon) directory) in
  stationsWithPredictions <-
    asyncMap schedule (slice sorted 0 10)
      (fun station => getStationPredictions (Some station) None) ;;
  ret (ClosestPayload lat lon stationsWithPredictions).

(** [tideStations.get(stationId)] goes to [getStationPredictions] as it
    is, [undefined] for an unknown id. *)
Definition individualStationHandler (stationId : string) : M Payload :=
  directory <- gets tideStations ;;
  response <- getStationPredictions (Map_get directory stationId) (Some 7) ;;
  ret (StationPayload response).

Definition setHeader (name : string) (value : HeaderValue) (res : Res) : Res :=
  {| headers := (headers res ++ [(name, value)])%list |}.

Definition setAccessControlHeaders (res : Res) : Res :=
  setHeader "Access-Control-Allow-Max-Age" (Seconds 86400)
    (setHeader "Access-Control-Allow-Headers"
       (Text "X-Requested-With, Content-Type, Accept")
       (setHeader "Access-Control-Allow-Methods" (Text "GET, OPTIONS") res)).

Definition setCacheHeaders (res : Res) (data : Payload) (hours : option Z) : Res :=
  let hours := match hours with Some h => h | None => 1 end in
  setHeader "ETag" (ETagOf data)
    (setHeader "Cache-Control" (PublicMaxAge (hours * 3600))
       (setHeader "Expires" (ExpiresAfterHours hours) res)).

(** [^\/tides\/(\d+)$] *)
Definition matchTides (url : string) : option string :=
  if startsWith "/tides/" url then
    let digits := drop (String.length "/tides/") url in
    if allOf isDigit digits then Some digits else None
  else None.

Definition matchRoute (url : string) : option Matched :=
  match matchTides url with
  | Some stationId => Some (IndividualStation stationId)
  | None =>
      match matchCoordinates "/closest/" url with
      | Some (lat, lon) => Some (Closest lat lon)
      | None => None
      end
  end.

Definition callHandler (schedule : list nat) (route : Matched) : M Payload :=
  match route with
  | IndividualStation stationId => individualStationHandler stationId
  | Closest lat lon => closestHandler schedule lat lon
  end.

(** [module.exports]: what the function returns or throws, and the
    response object afterwards. *)
Definition exports (schedule : list nat) (req : Req) (res : Res) (w : World)
  : Completion Returned * Res * World :=
  if negb (String.eqb (method req) "GET") && negb (String.eqb (method req) "OPTIONS")
  then (Throw (mkError Error "Method Not Allowed" (Some 405)), res, w)
  else
    let res := setHeader "Access-Control-Allow-Origin" (Text "*") res in
    match matchRoute (url req) with
    | Some route =>
        if String.eqb (method req) "OPTIONS"
        then (Return EmptyBody, setAccessControlHeaders res, w)
        else
          match callHandler schedule route w with
          | (Return data, w') => (Return (Json data), setCacheHeaders res data None, w')
          | (Throw err, w') => (Throw err, res, w')
          end
    | None => (Throw (mkError Error "Not Found" (Some 404)), res, w)
    end.

End Service.

End Earlier.

(** A station of the latest revision as the first revision formats it:
    without its [type]. *)
Definition withoutType (station : StationWithPredictions)
  : Earlier.StationWithPredictions :=
  let f := station_fields station in
  {| Earlier.station_fields :=
       {| Earlier.f_id := f_id f;
          Earlier.f_name := f_name f;
          Earlier.f_commonName := f_commonName f;
          Earlier.f_lat := f_lat f;
          Earlier.f_lon := f_lon f;
          Earlier.f_state := f_state f;
          Earlier.f_region := f_region f;
          Earlier.timeZone := timeZone f;
          Earlier.f_distance := f_distance f |};
     Earlier.station_predictions := station_predictions station |}.

(** ** Vocabulary of further statements *)

(** A request to the predictions endpoint. *)
Definition isPredictionFetch (f : Fetch) : Prop :=
  match f with FetchPredictions _ => True | FetchDirectory => False end.

(** The directory [fetchTideStations] builds from a station list. *)
Definition directoryOf (list : list Station) : Map Station :=
  Map_new (map (fun station => (stationId station, station)) list).

(** The state after a refresh that upstream answered with a station list. *)
Definition reloaded (list : list Station) (w : World) : World :=
  snd (fetchTideStations (Body (mkDirectory (Some list))) w).

(** A formatted station with another [distance]. *)
Definition setDistance (d : option number) (f : FormattedStation) : FormattedStation :=
  {| f_id := f_id f;
     f_name := f_name f;
     f_commonName := f_commonName f;
     f_lat := f_lat f;
     f_lon := f_lon f;
     f_state := f_state f;
     f_region := f_region f;
     timeZone := timeZone f;
     f_distance := d;
     f_type := f_type f |}.

(** A directory whose keys are distinct, each the id of the station stored
    under it. *)
Definition wellKeyed (m : Map Station) : Prop :=
  NoDup (map fst m) /\ Forall (fun entry => fst entry = stationId (snd entry)) m.

(** Two states of the process with the same directory, clock and upstream. *)
Definition sameSurroundings (w1 w2 : World) : Prop :=
  tideStations w1 = tideStations w2
  /\ today w1 = today w2
  /\ predictionsEndpoint w1 = predictionsEndpoint w2.

(** Requests arriving one after the other, each with its schedule. *)
Definition incoming (requests : list (list nat * Req)) : list Event :=
  map (fun request => Incoming (fst request) (snd request)) requests.

(** [f] under a completion. *)
Definition mapCompletion {A B : Type} (f : A -> B) (c : Completion A) : Completion B :=
  match c with
  | Return v => Return (f v)
  | Throw e => Throw e
  end.

(** ** Further scenarios *)

Module Scenario.

Definition outage : JSError := mkError FetchError "request to upstream failed" None.

(** Upstream fails for one station and answers for the others. *)
Definition worldWithOutage (down : string) (stations : list Station) : World :=
  {| tideStations := directoryOf stations;
     today := 20759;
     predictionsEndpoint :=
       fun request =>
         if String.eqb (p_station request) down then Rejected outage
         else Body StandIn.oneHighTide;
     fetched := [] |}.

(** A second listing of station 1 under another name. *)
Definition A' : Station := StandIn.station "1" "ALPHA HARBOR" 5 5.

(** The directory of three stations, listed farthest first. *)
Definition harbours : World := StandIn.world [StandIn.C; StandIn.B; StandIn.A].

(** The same directory while upstream is down for station 2. *)
Definition oneDown : World := worldWithOutage "2" [StandIn.C; StandIn.B; StandIn.A].

(** A day in the life of the process: a refresh that lists station 1
    twice, a request, a refresh that is rejected and one whose body has no
    station list. *)
Definition aDay : list Event :=
  [Refresh (Body (mkDirectory (Some [StandIn.A; A'; StandIn.B])));
   Incoming [] (mkReq "GET" "/1");
   Refresh (Rejected outage);
   Refresh (Body (mkDirectory None))].

End Scenario.

(** * Properties *)

(** ** Numbers: the sign of a difference *)

Section Numbers.

Lemma digits2_pos_size p : digits2_pos p = Pos.size p.
Proof. induction p; simpl; congruence. Qed.

Lemma digits_upper p : Zpos p < 2 ^ Zpos (digits2_pos p).
Proof.
  rewrite digits2_pos_size.
  pose proof (Pos.size_gt p) as H.
  apply Pos2Z.pos_lt_pos in H. rewrite Pos2Z.inj_pow in H. exact H.
Qed.

Lemma digits_lower p : 2 ^ Zpos (digits2_pos p) <= 2 * Zpos p.
Proof.
  rewrite digits2_pos_size.
  pose proof (Pos.size_le p) as H.
  apply Pos2Z.pos_le_pos in H. rewrite Pos2Z.inj_pow in H. exact H.
Qed.

(** One shift to the right halves the mantissa. *)
Lemma shr_1_m mrs : 0 <= shr_m mrs -> shr_m (shr_1 mrs) = shr_m mrs / 2.
Proof.
  destruct mrs as [m r s]; simpl. intros Hm.
  destruct m as [|p|p]; [reflexivity| |lia].
  destruct p as [p|p|]; simpl shr_m.
  - rewrite Pos2Z.inj_xI. apply Z.div_unique with (r := 1); lia.
  - rewrite Pos2Z.inj_xO. apply Z.div_unique with (r := 0); lia.
  - reflexivity.
Qed.

Lemma iter_shr_m n : forall mrs, 0 <= shr_m mrs ->
  shr_m (iter_pos shr_1 n mrs) = shr_m mrs / 2 ^ Zpos n.
Proof.
  induction n as [n IH|n IH|]; intros mrs Hm; simpl iter_pos.
  - assert (H1 : 0 <= shr_m (shr_1 mrs)).
    { rewrite shr_1_m by assumption. apply Z.div_pos; lia. }
    assert (H2 : 0 <= shr_m (iter_pos shr_1 n (shr_1 mrs))).
    { rewrite IH by assumption. apply Z.div_pos; lia. }
    rewrite IH by assumption. rewrite IH by assumption. rewrite shr_1_m by assumption.
    rewrite !Z.div_div by lia. f_equal.
    replace (Zpos n~1) with (1 + Zpos n + Zpos n) by lia.
    rewrite !Z.pow_add_r by lia. lia.
  - assert (H2 : 0 <= shr_m (iter_pos shr_1 n mrs)).
    { rewrite IH by assumption. apply Z.div_pos; lia. }
    rewrite IH by assumption. rewrite IH by assumption.
    rewrite !Z.div_div by lia. f_equal.
    replace (Zpos n~0) with (Zpos n + Zpos n) by lia.
    rewrite !Z.pow_add_r by lia. lia.
  - rewrite shr_1_m by assumption. reflexivity.
Qed.

Lemma shr_record_of_loc_m m l : shr_m (shr_record_of_loc m l) = m.
Proof. destruct l as [|[| |]]; reflexivity. Qed.

Lemma fexp_ge_emin e : emin prec emax <= fexp prec emax e.
Proof. unfold fexp. lia. Qed.

(** Rounding never shifts a mantissa out entirely: above the smallest
    exponent the shift is shorter than the mantissa. *)
Lemma shr_fexp_pos m e l :
  0 < m -> emin prec emax <= e ->
  0 < shr_m (fst (shr_fexp prec emax m e l))
  /\ emin prec emax <= snd (shr_fexp prec emax m e l).
Proof.
  intros Hm He. unfold shr_fexp, shr.
  destruct m as [|p|p]; try lia. simpl Zdigits2.
  destruct (fexp prec emax (Zpos (digits2_pos p) + e) - e) as [|n|n] eqn:En;
    simpl fst; simpl snd; rewrite ?shr_record_of_loc_m; try (split; lia).
  rewrite iter_shr_m by (rewrite shr_record_of_loc_m; lia).
  rewrite shr_record_of_loc_m. split; [|lia].
  unfold fexp in En. unfold prec in *.
  assert (Hn : Zpos n = Zpos (digits2_pos p) - 53) by lia.
  apply Z.div_str_pos. split; [lia|].
  pose proof (digits_lower p) as Hl.
  assert (2 * 2 ^ Zpos n <= 2 ^ Zpos (digits2_pos p)).
  { replace (Zpos (digits2_pos p)) with (Z.succ (Zpos n + 52)) by lia.
    rewrite Z.pow_succ_r by lia. rewrite Z.pow_add_r by lia.
    assert (0 < 2 ^ Zpos n) by (apply Z.pow_pos_nonneg; lia).
    assert (2 ^ 52 = 4503599627370496) by reflexivity. nia. }
  lia.
Qed.

Lemma round_nearest_even_pos m l : 0 < m -> 0 < round_nearest_even m l.
Proof.
  intros Hm. destruct l as [|[| |]]; simpl; try lia.
  destruct (Z.even m); lia.
Qed.

Lemma binary_round_aux_sign s m e l :
  0 < m -> emin prec emax <= e ->
  (exists m' e', binary_round_aux prec emax s m e l = S754_finite s m' e')
  \/ binary_round_aux prec emax s m e l = S754_infinity s.
Proof.
  intros Hm He. unfold binary_round_aux.
  pose proof (shr_fexp_pos m e l Hm He) as [H1 H1e].
  destruct (shr_fexp prec emax m e l) as [mrs1 e1]. simpl fst in H1; simpl snd in H1e.
  pose proof (round_nearest_even_pos _ (loc_of_shr_record mrs1) H1) as H2.
  pose proof (shr_fexp_pos _ e1 loc_Exact H2 H1e) as [H3 _].
  destruct (shr_fexp prec emax _ e1 loc_Exact) as [mrs2 e2]. simpl fst in H3.
  destruct (shr_m mrs2) as [|q|q]; try lia.
  destruct (e2 <=? emax - prec); [left; eauto | right; reflexivity].
Qed.

(** A rounded nonzero value keeps its sign: it is finite or infinite,
    never zero. *)
Lemma binary_round_sign s m e :
  emin prec emax <= e ->
  (exists m' e', binary_round prec emax s m e = S754_finite s m' e')
  \/ binary_round prec emax s m e = S754_infinity s.
Proof.
  intros He. unfold binary_round, shl_align.
  pose proof (fexp_ge_emin (Zpos (digits2_pos m) + e)).
  destruct (fexp prec emax (Zpos (digits2_pos m) + e) - e);
    apply binary_round_aux_sign; lia.
Qed.

Lemma iter_xO_val m d : Zpos (Pos.iter xO m d) = Zpos m * 2 ^ Zpos d.
Proof.
  induction d as [|d IH] using Pos.peano_ind.
  - simpl. lia.
  - rewrite Pos.iter_succ, Pos2Z.inj_xO, IH, Pos2Z.inj_succ, Z.pow_succ_r by lia. lia.
Qed.

Lemma shl_align_val mx ex ez :
  ez <= ex -> Zpos (fst (shl_align mx ex ez)) = Zpos mx * 2 ^ (ex - ez).
Proof.
  intros H. unfold shl_align.
  destruct (ez - ex) as [|d|d] eqn:E; simpl fst.
  - replace (ex - ez) with 0 by lia. simpl. lia.
  - lia.
  - rewrite iter_xO_val. f_equal. f_equal. lia.
Qed.

Lemma bounded_canonical m e :
  bounded prec emax m e = true ->
  emin prec emax <= e /\ Zpos (digits2_pos m) <= prec /\
  (emin prec emax < e -> Zpos (digits2_pos m) = prec).
Proof.
  unfold bounded, canonical_mantissa, fexp. intros H.
  apply andb_true_iff in H as [H _]. apply Z.eqb_eq in H.
  unfold prec, emax, emin in *. lia.
Qed.

(** Of two doubles the one with the smaller exponent is the smaller. *)
Lemma magnitude_lt mx ex my ey :
  bounded prec emax mx ex = true -> bounded prec emax my ey = true ->
  ex < ey -> Zpos mx < Zpos my * 2 ^ (ey - ex).
Proof.
  intros Hx Hy Hlt.
  apply bounded_canonical in Hx as (Hxe & Hxd & _).
  apply bounded_canonical in Hy as (Hye & _ & Hyd).
  specialize (Hyd ltac:(lia)).
  pose proof (digits_upper mx) as Hu. pose proof (digits_lower my) as Hl.
  rewrite Hyd in Hl.
  assert (2 ^ Zpos (digits2_pos mx) <= 2 ^ prec) by (apply Z.pow_le_mono_r; lia).
  assert (2 ^ 1 <= 2 ^ (ey - ex)) by (apply Z.pow_le_mono_r; lia).
  change (2 ^ 1) with 2 in *. nia.
Qed.

Lemma SFcompare_finite sx mx ex sy my ey :
  bounded prec emax mx ex = true -> bounded prec emax my ey = true ->
  SFcompare (S754_finite sx mx ex) (S754_finite sy my ey) =
  Some (scaled (Z.min ex ey) sx mx ex ?= scaled (Z.min ex ey) sy my ey).
Proof.
  intros Hx Hy. unfold scaled.
  rewrite !shl_align_val by lia.
  assert (Px : 0 < Zpos mx * 2 ^ (ex - Z.min ex ey)).
  { apply Z.mul_pos_pos; [lia|apply Z.pow_pos_nonneg; lia]. }
  assert (Py : 0 < Zpos my * 2 ^ (ey - Z.min ex ey)).
  { apply Z.mul_pos_pos; [lia|apply Z.pow_pos_nonneg; lia]. }
  assert (C : (Zpos mx * 2 ^ (ex - Z.min ex ey) ?= Zpos my * 2 ^ (ey - Z.min ex ey)) =
              match ex ?= ey with Lt => Lt | Gt => Gt | Eq => Pos.compare_cont Eq mx my end).
  { destruct (Z.compare_spec ex ey) as [E|E|E].
    - subst ey. rewrite Z.min_id, Z.sub_diag. simpl (2 ^ 0). rewrite !Z.mul_1_r. reflexivity.
    - rewrite Z.min_l, Z.sub_diag by lia. simpl (2 ^ 0). rewrite Z.mul_1_r.
      apply Z.compare_lt_iff. apply magnitude_lt; assumption.
    - rewrite Z.min_r, Z.sub_diag by lia. simpl (2 ^ 0). rewrite Z.mul_1_r.
      apply Z.compare_gt_iff. apply magnitude_lt; assumption. }
  set (a := Zpos mx * 2 ^ (ex - Z.min ex ey)) in *.
  set (b := Zpos my * 2 ^ (ey - Z.min ex ey)) in *.
  simpl SFcompare. f_equal.
  destruct sx, sy; unfold cond_Zopp.
  - rewrite Z.compare_opp, (Z.compare_antisym a b), C. destruct (ex ?= ey); reflexivity.
  - symmetry. apply Z.compare_lt_iff. lia.
  - symmetry. apply Z.compare_gt_iff. lia.
  - symmetry. exact C.
Qed.

Lemma binary_normalize_compare m e :
  emin prec emax <= e ->
  SFcompare (binary_normalize prec emax m e false) zero = Some (m ?= 0).
Proof.
  intros He. destruct m as [|p|p]; simpl binary_normalize.
  - reflexivity.
  - destruct (binary_round_sign false p e He) as [(m' & e' & ->)| ->]; reflexivity.
  - destruct (binary_round_sign true p e He) as [(m' & e' & ->)| ->]; reflexivity.
Qed.

Lemma SFsub_compare_finite sx mx ex sy my ey :
  bounded prec emax mx ex = true -> bounded prec emax my ey = true ->
  SFcompare (sub (S754_finite sx mx ex) (S754_finite sy my ey)) zero =
  SFcompare (S754_finite sx mx ex) (S754_finite sy my ey).
Proof.
  intros Hx Hy. rewrite SFcompare_finite by assumption.
  unfold sub; simpl SFsub.
  fold (scaled (Z.min ex ey) sx mx ex) (scaled (Z.min ex ey) sy my ey).
  rewrite binary_normalize_compare.
  - f_equal. rewrite <- Z.compare_sub. reflexivity.
  - apply bounded_canonical in Hx as (? & _). apply bounded_canonical in Hy as (? & _). lia.
Qed.

Lemma SFcompare_antisym x y :
  SFcompare y x = option_map CompOpp (SFcompare x y).
Proof.
  destruct x as [sx|sx| |sx mx ex], y as [sy|sy| |sy my ey]; simpl;
    try reflexivity;
    try (destruct sx; try destruct sy; reflexivity);
    try (destruct sy; reflexivity).
  assert (Hc : Pos.compare_cont Eq my mx = CompOpp (Pos.compare_cont Eq mx my)).
  { symmetry. apply (Pos.compare_cont_antisym mx my Eq). }
  f_equal. rewrite (Z.compare_antisym ex ey), Hc.
  destruct sx, sy; try reflexivity;
    destruct (ex ?= ey); simpl; try reflexivity;
    destruct (Pos.compare_cont Eq mx my); reflexivity.
Qed.

(** [x - y < 0] exactly when [x < y]. *)
Lemma sub_ltb_zero x y :
  valid x = true -> valid y = true -> ltb (sub x y) zero = ltb x y.
Proof.
  intros Hx Hy. unfold ltb, SFltb.
  destruct x as [sx|sx| |sx mx ex], y as [sy|sy| |sy my ey];
    try reflexivity;
    try (destruct sx; try destruct sy; reflexivity);
    try (destruct sy; reflexivity).
  rewrite SFsub_compare_finite by assumption. reflexivity.
Qed.

(** [x - y > 0] exactly when [x > y]. *)
Lemma sub_gtb_zero x y :
  valid x = true -> valid y = true -> gtb (sub x y) zero = gtb x y.
Proof.
  intros Hx Hy. unfold gtb, SFltb.
  destruct x as [sx|sx| |sx mx ex], y as [sy|sy| |sy my ey];
    try reflexivity;
    try (destruct sx; try destruct sy; reflexivity);
    try (destruct sy; reflexivity).
  rewrite (SFcompare_antisym (S754_finite sx mx ex) (S754_finite sy my ey)).
  rewrite <- SFsub_compare_finite by assumption.
  destruct (sub _ _) as [s|s| |s m e]; try destruct s; reflexivity.
Qed.

(** Comparison of doubles is comparison of their positions. *)
Lemma ord_finite_pos m e :
  bounded prec emax m e = true ->
  0 < (e + 1075) * 2 ^ prec + Zpos m < 4096 * 2 ^ prec /\ Zpos m < 2 ^ prec.
Proof.
  intros H. pose proof H as H'. apply bounded_canonical in H as (He & Hd & _).
  apply andb_true_iff in H' as [_ H']. apply Z.leb_le in H'.
  pose proof (digits_upper m) as Hu.
  assert (2 ^ Zpos (digits2_pos m) <= 2 ^ prec) by (apply Z.pow_le_mono_r; unfold prec in *; lia).
  assert (P : 2 ^ prec = 9007199254740992) by reflexivity.
  rewrite P in *. unfold emin, prec, emax in *. lia.
Qed.

Lemma SFcompare_ord x y :
  isNumber x = true -> isNumber y = true ->
  SFcompare x y = Some (ord x ?= ord y).
Proof.
  unfold isNumber. intros Hx Hy.
  apply andb_true_iff in Hx as [Hx Nx]. apply andb_true_iff in Hy as [Hy Ny].
  assert (P : 0 < 4096 * 2 ^ prec) by reflexivity.
  destruct x as [sx|sx| |sx mx ex], y as [sy|sy| |sy my ey]; try discriminate;
    clear Nx Ny;
    try (apply ord_finite_pos in Hx as [Hx Hmx]);
    try (apply ord_finite_pos in Hy as [Hy Hmy]);
    try destruct sx; try destruct sy;
    cbv beta iota delta [SFcompare ord cond_Zopp];
    f_equal; symmetry;
    try (apply Z.compare_eq_iff; reflexivity);
    try (apply Z.compare_lt_iff; lia);
    try (apply Z.compare_gt_iff; lia).
  - destruct (Z.compare_spec ex ey) as [E|E|E].
    + subst ey. rewrite Z.compare_opp, Z.add_compare_mono_l.
      change (Zpos my ?= Zpos mx) with (Pos.compare_cont Eq my mx).
      symmetry. apply (Pos.compare_cont_antisym mx my Eq).
    + apply Z.compare_gt_iff. nia.
    + apply Z.compare_lt_iff. nia.
  - destruct (Z.compare_spec ex ey) as [E|E|E].
    + subst ey. rewrite Z.add_compare_mono_l. reflexivity.
    + apply Z.compare_lt_iff. nia.
    + apply Z.compare_gt_iff. nia.
Qed.

Lemma ltb_ord x y :
  isNumber x = true -> isNumber y = true -> ltb x y = (ord x <? ord y).
Proof.
  intros Hx Hy. unfold ltb, SFltb, Z.ltb.
  rewrite (SFcompare_ord x y Hx Hy). reflexivity.
Qed.

Lemma leb_ord x y :
  isNumber x = true -> isNumber y = true -> leb x y = (ord x <=? ord y).
Proof.
  intros Hx Hy. unfold leb, SFleb, Z.leb.
  rewrite (SFcompare_ord x y Hx Hy). destruct (ord x ?= ord y); reflexivity.
Qed.

Lemma eqb_ord x y :
  isNumber x = true -> isNumber y = true -> eqb x y = (ord x =? ord y).
Proof.
  intros Hx Hy. unfold eqb, SFeqb.
  rewrite (SFcompare_ord x y Hx Hy).
  destruct (Z.compare_spec (ord x) (ord y)) as [E|E|E], (Z.eqb_spec (ord x) (ord y));
    try reflexivity; lia.
Qed.

(** A number within bounds is not below the lower nor above the upper. *)
Lemma leb_not_gtb x y : leb x y = true -> gtb x y = false.
Proof.
  unfold leb, gtb, SFleb, SFltb. rewrite (SFcompare_antisym x y).
  destruct (SFcompare x y) as [[| |]|]; simpl; congruence.
Qed.

End Numbers.

(** ** Arrays: the stable sort *)

Section Sorting.

Context {A : Type} (comparefn : A -> A -> number).

Lemma insert_perm x l : Permutation (insert comparefn x l) (x :: l).
Proof.
  induction l as [|y l IH]; simpl.
  - apply Permutation_refl.
  - destruct (gtb (comparefn x y) zero).
    + apply perm_trans with (y :: x :: l).
      * apply perm_skip. exact IH.
      * apply perm_swap.
    + apply Permutation_refl.
Qed.

(** Sorting rearranges: nothing is lost or duplicated. *)
Lemma sort_perm l : Permutation (sort comparefn l) l.
Proof.
  induction l as [|x l IH]; simpl.
  - apply perm_nil.
  - apply perm_trans with (x :: sort comparefn l).
    + apply insert_perm.
    + apply perm_skip. exact IH.
Qed.

Lemma sort_length l : List.length (sort comparefn l) = List.length l.
Proof. apply Permutation_length, sort_perm. Qed.

(** A comparator is consistent on the elements satisfying [ok] when it
    orders them as a key does. *)
Context (key : A -> Z) (ok : A -> Prop).

Hypothesis consistent :
  forall a b, ok a -> ok b -> gtb (comparefn a b) zero = (key b <? key a).

Lemma insert_sorted x l :
  ok x -> Forall ok l -> StronglySorted (keyLe key) l ->
  StronglySorted (keyLe key) (insert comparefn x l).
Proof.
  intros Hx Hl Hs. induction Hs as [|y l Hs IH Hy]; simpl.
  - constructor; [constructor|constructor].
  - inversion Hl as [|? ? Hoy Hol]; subst.
    rewrite (consistent x y Hx Hoy).
    destruct (Z.ltb_spec (key y) (key x)) as [Hlt|Hge].
    + constructor; [apply IH; assumption|].
      apply (Permutation_Forall (Permutation_sym (insert_perm x l))).
      constructor; [unfold keyLe; lia|exact Hy].
    + constructor; [constructor; assumption|].
      constructor; [exact Hge|].
      apply Forall_impl with (P := keyLe key y); [|exact Hy].
      intros a Ha. unfold keyLe in *. lia.
Qed.

Lemma sort_ok l : Forall ok l -> Forall ok (sort comparefn l).
Proof.
  intros H. apply (Permutation_Forall (Permutation_sym (sort_perm l))). exact H.
Qed.

(** Under a consistent comparator the result is in non-decreasing order
    of the key. *)
Lemma sort_sorted l : Forall ok l -> StronglySorted (keyLe key) (sort comparefn l).
Proof.
  induction l as [|x l IH]; intros H; simpl.
  - constructor.
  - inversion H; subst. apply insert_sorted; auto using sort_ok.
Qed.

Lemma insert_filter c x l :
  ok x -> Forall ok l ->
  filter (fun a => key a =? c) (insert comparefn x l) =
  filter (fun a => key a =? c) (x :: l).
Proof.
  intros Hx Hl. induction Hl as [|y l Hy Hl IH]; [reflexivity|].
  simpl insert. rewrite (consistent x y Hx Hy).
  destruct (Z.ltb_spec (key y) (key x)) as [Hlt|Hge]; [|reflexivity].
  simpl filter at 1. rewrite IH. simpl.
  destruct (Z.eqb_spec (key x) c), (Z.eqb_spec (key y) c); try reflexivity. lia.
Qed.

(** ... and stable: elements with equal keys keep their order. *)
Lemma sort_filter c l :
  Forall ok l ->
  filter (fun a => key a =? c) (sort comparefn l) = filter (fun a => key a =? c) l.
Proof.
  induction l as [|x l IH]; intros H; [reflexivity|].
  inversion H; subst. simpl sort.
  rewrite insert_filter by auto using sort_ok.
  simpl. rewrite IH by assumption. reflexivity.
Qed.

(** Any sorted and stable rearrangement is the one [sort] produces: the
    algorithm behind [sort] does not matter under a consistent comparator. *)
Lemma sorted_stable_unique l1 : forall l2,
  Permutation l1 l2 ->
  StronglySorted (keyLe key) l1 -> StronglySorted (keyLe key) l2 ->
  (forall c, filter (fun a => key a =? c) l1 = filter (fun a => key a =? c) l2) ->
  l1 = l2.
Proof.
  induction l1 as [|x l1 IH]; intros l2 Hp H1 H2 Hf.
  - apply Permutation_nil in Hp. congruence.
  - destruct l2 as [|y l2].
    + apply Permutation_sym, Permutation_nil in Hp. discriminate.
    + inversion H1 as [|? ? H1' Hx]; subst. inversion H2 as [|? ? H2' Hy]; subst.
      assert (Hxy : key x = key y).
      { assert (Hyx : In y (x :: l1)) by (apply (Permutation_in _ (Permutation_sym Hp)); left; reflexivity).
        assert (Hxy : In x (y :: l2)) by (apply (Permutation_in _ Hp); left; reflexivity).
        rewrite Forall_forall in Hx, Hy. unfold keyLe in *.
        destruct Hyx as [->|Hyx]; [reflexivity|].
        destruct Hxy as [->|Hxy]; [reflexivity|].
        specialize (Hx _ Hyx). specialize (Hy _ Hxy). lia. }
      pose proof (Hf (key x)) as Hfx. simpl in Hfx.
      rewrite Z.eqb_refl in Hfx. rewrite <- Hxy, Z.eqb_refl in Hfx.
      injection Hfx as <- Hfx'.
      f_equal. apply IH; try assumption.
      * apply Permutation_cons_inv with (a := x). exact Hp.
      * intros c. specialize (Hf c). simpl in Hf.
        destruct (key x =? c); [injection Hf as Hf|]; exact Hf.
Qed.

Lemma sort_unique l l' :
  Forall ok l -> Permutation l' l -> StronglySorted (keyLe key) l' ->
  (forall c, filter (fun a => key a =? c) l' = filter (fun a => key a =? c) l) ->
  l' = sort comparefn l.
Proof.
  intros Hok Hp Hs Hf. apply sorted_stable_unique; try assumption.
  - apply perm_trans with l; [exact Hp|apply Permutation_sym, sort_perm].
  - apply sort_sorted. exact Hok.
  - intros c. rewrite Hf, sort_filter by assumption. reflexivity.
Qed.

End Sorting.

Lemma slice_firstn {A : Type} (l : list A) n :
  0 <= n -> slice l 0 n = firstn (Z.to_nat n) l.
Proof.
  intros Hn. unfold slice, relativeIndex.
  destruct (Z.ltb_spec n 0); [lia|]. simpl (0 <? 0).
  cbv iota. rewrite (Z.min_l 0) by lia. simpl skipn. rewrite Z.sub_0_r.
  destruct (Z.min_spec n (Z.of_nat (List.length l))) as [[_ ->]|[H' ->]].
  - reflexivity.
  - rewrite Nat2Z.id, firstn_all. symmetry. apply firstn_all2. lia.
Qed.

Lemma StronglySorted_firstn {A : Type} (R : A -> A -> Prop) n l :
  StronglySorted R l -> StronglySorted R (firstn n l).
Proof.
  intros H. revert n. induction H as [|x l Hs IH Hx]; intros [|n]; simpl;
    try constructor; auto.
  apply Forall_forall. intros a Ha.
  rewrite Forall_forall in Hx. apply Hx.
  rewrite <- (firstn_skipn n l). apply in_or_app. auto.
Qed.

Lemma StronglySorted_split {A : Type} (R : A -> A -> Prop) n l :
  StronglySorted R l ->
  forall a b, In a (firstn n l) -> In b (skipn n l) -> R a b.
Proof.
  intros H. revert n. induction H as [|x l Hs IH Hx]; intros [|n] a b; simpl;
    try contradiction.
  intros [<-|Ha] Hb.
  - rewrite Forall_forall in Hx. apply Hx.
    rewrite <- (firstn_skipn n l). apply in_or_app. auto.
  - eapply IH; eassumption.
Qed.

Lemma filter_firstn {A : Type} (p : A -> bool) n l :
  filter p l = (filter p (firstn n l) ++ filter p (skipn n l))%list.
Proof. rewrite <- filter_app, firstn_skipn. reflexivity. Qed.

(** ** [async/map]: results are stored by index *)

Section AsyncMap.

Context {B : Type}.

Lemma In_firstOccurrences l : forall seen i,
  In i (firstOccurrences seen l) <-> In i l /\ ~ In i seen.
Proof.
  induction l as [|x l IH]; intros seen i; simpl.
  - tauto.
  - destruct (existsb (Nat.eqb x) seen) eqn:E.
    + apply existsb_exists in E as (y & Hy & Exy). apply Nat.eqb_eq in Exy. subst y.
      rewrite IH. split.
      * intros [? ?]. auto.
      * intros [[<-|?] ?]; [contradiction|auto].
    + assert (Hx : ~ In x seen).
      { intros Hin. assert (existsb (Nat.eqb x) seen = true); [|congruence].
        apply existsb_exists. exists x. split; [assumption|apply Nat.eqb_refl]. }
      simpl. rewrite IH. simpl. split.
      * intros [<-|[? ?]]; auto.
      * intros [[<-|?] ?]; auto.
        destruct (Nat.eq_dec x i); [auto|right; split; auto; intros [?|?]; auto].
Qed.

(** Every task completes, whatever the schedule. *)
Lemma In_completionOrder n schedule i :
  In i (completionOrder n schedule) <-> (i < n)%nat.
Proof.
  unfold completionOrder. rewrite In_firstOccurrences, in_app_iff, filter_In, in_seq.
  split.
  - intros [[[_ H]|H] _]; [apply Nat.ltb_lt in H|]; lia.
  - intros H. split; [right; lia|auto].
Qed.

Lemma firstOccurrences_seen l : forall seen,
  (forall i, In i l -> In i seen) -> firstOccurrences seen l = [].
Proof.
  induction l as [|x l IH]; intros seen H; simpl; [reflexivity|].
  assert (E : existsb (Nat.eqb x) seen = true).
  { apply existsb_exists. exists x. split; [apply H; left; reflexivity|apply Nat.eqb_refl]. }
  rewrite E. apply IH. intros i Hi. apply H. right. exact Hi.
Qed.

Lemma firstOccurrences_NoDup l : forall seen rest,
  NoDup l -> (forall i, In i l -> ~ In i seen) ->
  (forall i, In i rest -> In i l \/ In i seen) ->
  firstOccurrences seen (l ++ rest) = l.
Proof.
  induction l as [|x l IH]; intros seen rest Hnd Hfresh Hrest.
  - simpl. apply firstOccurrences_seen. intros i Hi.
    destruct (Hrest i Hi) as [[]|H]. exact H.
  - inversion Hnd as [|? ? Hx Hnd']; subst. simpl.
    assert (E : existsb (Nat.eqb x) seen = false).
    { destruct (existsb (Nat.eqb x) seen) eqn:E; [|reflexivity].
      apply existsb_exists in E as (y & Hy & Exy). apply Nat.eqb_eq in Exy. subst y.
      exfalso. apply (Hfresh x); [left; reflexivity|exact Hy]. }
    rewrite E. f_equal. apply IH.
    + exact Hnd'.
    + intros i Hi [<-|Hs]; [contradiction|]. apply (Hfresh i); [right; exact Hi|exact Hs].
    + intros i Hi. destruct (Hrest i Hi) as [[<-|H]|H]; simpl; auto.
Qed.

(** Every order of completion is the order of some schedule: a schedule
    that names each task once is followed as it stands. *)
Lemma completionOrder_permutation n schedule :
  Permutation schedule (seq 0 n) -> completionOrder n schedule = schedule.
Proof.
  intros Hp. unfold completionOrder.
  assert (Hin : forall i, In i schedule <-> (i < n)%nat).
  { intros i. split; intros H.
    - apply (Permutation_in _ Hp) in H. apply in_seq in H. lia.
    - apply (Permutation_in _ (Permutation_sym Hp)). apply in_seq. lia. }
  assert (Hf : filter (fun i => (i <? n)%nat) schedule = schedule).
  { apply forallb_filter_id. apply forallb_forall. intros i Hi.
    apply Nat.ltb_lt, Hin, Hi. }
  rewrite Hf. apply firstOccurrences_NoDup.
  - apply (Permutation_NoDup (Permutation_sym Hp)), seq_NoDup.
  - intros i _ [].
  - intros i Hi. left. apply Hin. apply in_seq in Hi. lia.
Qed.

Lemma stored_arraySet (a : list (option B)) i v j :
  stored (arraySet a i v) j = if Nat.eqb i j then Some v else stored a j.
Proof.
  unfold stored. revert a j. induction i as [|i IH]; intros a j.
  - destruct a, j; simpl; try reflexivity. destruct j; reflexivity.
  - destruct a as [|x a], j as [|j]; simpl; try reflexivity.
    + rewrite IH. destruct (Nat.eqb i j); [reflexivity|]. destruct j; reflexivity.
    + apply IH.
Qed.

Lemma elements_stored (vs : list B) : forall a,
  (forall j, stored a j = nth_error vs j) -> elements a = vs.
Proof.
  unfold elements.
  induction vs as [|v vs IH]; intros a H.
  - induction a as [|x a IHa]; [reflexivity|].
    pose proof (H 0%nat) as H0. unfold stored in H0. simpl in H0.
    destruct x; [discriminate|]. simpl. apply IHa.
    intros j. specialize (H (S j)). destruct j; exact H.
  - destruct a as [|x a].
    + specialize (H 0%nat). discriminate.
    + pose proof (H 0%nat) as H0. unfold stored in H0. simpl in H0.
      destruct x; [|discriminate]. injection H0 as ->. simpl. f_equal.
      apply IH. intros j. exact (H (S j)).
Qed.

Variable vs : list B.

Lemma settle_returns order : forall results,
  settle (map Return vs) order results = Return (elements (stores vs order results)).
Proof.
  induction order as [|i order IH]; intros results; simpl; [reflexivity|].
  rewrite nth_error_map. destruct (nth_error vs i); simpl; apply IH.
Qed.

Lemma stores_agrees order : forall results,
  agrees vs results -> agrees vs (stores vs order results).
Proof.
  induction order as [|i order IH]; intros results H; simpl; [exact H|].
  apply IH. destruct (nth_error vs i) eqn:E; [|exact H].
  intros k v. rewrite stored_arraySet.
  destruct (Nat.eqb_spec i k); [subst; congruence|apply H].
Qed.

Lemma stores_In order : forall results j,
  agrees vs results -> In j order -> stored (stores vs order results) j = nth_error vs j.
Proof.
  induction order as [|i order IH]; intros results j H Hin; [contradiction|].
  simpl.
  assert (H' : agrees vs (match nth_error vs i with
                          | Some v => arraySet results i v
                          | None => results end)).
  { destruct (nth_error vs i) eqn:E; [|exact H].
    intros k v. rewrite stored_arraySet.
    destruct (Nat.eqb_spec i k); [subst; congruence|apply H]. }
  destruct (in_dec Nat.eq_dec j order) as [Hj|Hj]; [apply IH; assumption|].
  destruct Hin as [->|Hin]; [|contradiction].
  destruct (nth_error vs j) eqn:E.
  - pose proof (stores_agrees order _ H') as Hfinal.
    destruct (stored (stores vs order (arraySet results j b)) j) eqn:S.
    + apply Hfinal in S. congruence.
    + exfalso. clear - S Hj.
      assert (G : forall later res, ~ In j later -> stored res j = Some b ->
                  stored (stores vs later res) j = Some b).
      { induction later as [|i later IH]; intros res Hn Hs; [exact Hs|].
        simpl. apply IH; [intros ?; apply Hn; right; assumption|].
        destruct (nth_error vs i); [|exact Hs].
        rewrite stored_arraySet. destruct (Nat.eqb_spec i j); [|exact Hs].
        subst. exfalso. apply Hn. left. reflexivity. }
      rewrite G in S; [discriminate|assumption|].
      rewrite stored_arraySet, Nat.eqb_refl. reflexivity.
  - pose proof (stores_agrees order _ H') as Hfinal.
    destruct (stored (stores vs order results) j) eqn:S; [|reflexivity].
    apply Hfinal in S. congruence.
Qed.

(** When every task returns, the array built is the list of their values
    in the order of the items, whatever the order of completion. *)
Lemma settle_all_return order :
  (forall j, (j < List.length vs)%nat -> In j order) ->
  settle (map Return vs) order [] = Return vs.
Proof.
  intros Hall. rewrite settle_returns. f_equal.
  assert (H0 : agrees vs []).
  { intros k v. unfold stored. destruct k; discriminate. }
  apply elements_stored. intros j.
  destruct (Nat.lt_ge_cases j (List.length vs)) as [Hlt|Hge].
  - apply stores_In; auto.
  - pose proof (stores_agrees order [] H0) as Hfinal.
    apply nth_error_None in Hge. rewrite Hge.
    destruct (stored (stores vs order []) j) eqn:S; [|reflexivity].
    apply Hfinal in S. congruence.
Qed.

End AsyncMap.

(** When a task throws, the call rejects with the error of a task. *)
Lemma settle_throw {B : Type} (outcomes : list (Completion B)) order :
  forall results,
  (exists i e, In i order /\ nth_error outcomes i = Some (Throw e)) ->
  exists e', settle outcomes order results = Throw e' /\ In (Throw e') outcomes.
Proof.
  induction order as [|i order IH]; intros results (j & e & Hin & Hj).
  - contradiction.
  - simpl. destruct (nth_error outcomes i) as [[v|e']|] eqn:E.
    + apply IH. destruct Hin as [->|Hin]; [congruence|eauto].
    + exists e'. split; [reflexivity|]. eapply nth_error_In; eassumption.
    + apply IH. destruct Hin as [->|Hin]; [congruence|eauto].
Qed.

Lemma startAll_length {A B : Type} (iteratee : A -> M B) coll : forall w,
  List.length (fst (startAll iteratee coll w)) = List.length coll.
Proof.
  induction coll as [|x coll IH]; intros w; simpl; [reflexivity|].
  destruct (iteratee x w) as [c w1]. specialize (IH w1).
  destruct (startAll iteratee coll w1). simpl in *. congruence.
Qed.

Lemma asyncMap_resolves {A B : Type} schedule coll (iteratee : A -> M B) w vs w' :
  startAll iteratee coll w = (map Return vs, w') ->
  asyncMap schedule coll iteratee w = (Return vs, w').
Proof.
  intros H. unfold asyncMap. pose proof (startAll_length iteratee coll w) as L.
  rewrite H in *. simpl in L. rewrite length_map in L. f_equal.
  apply settle_all_return. intros j Hj. apply In_completionOrder. lia.
Qed.

Lemma asyncMap_rejects {A B : Type} schedule coll (iteratee : A -> M B) w i e :
  nth_error (fst (startAll iteratee coll w)) i = Some (Throw e) ->
  exists e', fst (asyncMap schedule coll iteratee w) = Throw e'
             /\ In (Throw e') (fst (startAll iteratee coll w)).
Proof.
  intros H. unfold asyncMap. pose proof (startAll_length iteratee coll w) as L.
  destruct (startAll iteratee coll w) as [outcomes w']. simpl in *.
  apply settle_throw. exists i, e. split; [|assumption].
  apply In_completionOrder. rewrite <- L. apply nth_error_Some. congruence.
Qed.

(** ** The pipeline *)

(** Runs a computation of [M] by unfolding the operations of the monad. *)
Ltac run_M :=
  unfold bind, ret, throw, gets, lift, fetchJson in *; cbn [fst snd] in *.

(** Splits a goal on what upstream answers and on whether the station and
    the predictions can be formatted. *)
Ltac formatting_cases :=
  repeat match goal with
    | |- context [predictionsEndpoint ?w ?r] =>
        destruct (predictionsEndpoint w r) as [?|[[?|]]]; cbn [predictions fst snd]
    | |- context [formatTideStation ?s] =>
        destruct (formatTideStation s); cbn [fst snd]
    | |- context [arrayMap ?f ?l] =>
        destruct (arrayMap f l); cbn [fst snd]
    end.

Section Pipeline.

Context {externals : Externals}.

Lemma fetched_recordAll fs : forall w,
  fetched (recordAll fs w) = (rev fs ++ fetched w)%list.
Proof.
  induction fs as [|f fs IH]; intros w; simpl; [reflexivity|].
  unfold recordAll in *. rewrite IH. simpl. rewrite <- app_assoc. reflexivity.
Qed.

Lemma tideStations_recordAll fs : forall w,
  tideStations (recordAll fs w) = tideStations w.
Proof.
  induction fs as [|f fs IH]; intros w; simpl; [reflexivity|].
  unfold recordAll in *. rewrite IH. reflexivity.
Qed.

Lemma issued_recordAll fs w : issued w (recordAll fs w) = fs.
Proof.
  unfold issued. rewrite fetched_recordAll, length_app, length_rev.
  replace (List.length fs + List.length (fetched w) - List.length (fetched w))%nat
    with (List.length (rev fs) + 0)%nat by (rewrite length_rev; lia).
  rewrite firstn_app_2. simpl. rewrite app_nil_r. apply rev_involutive.
Qed.

(** *** Validation *)

Lemma validate_inRange lat lon :
  inRange (-90) 90 (parseFloat lat) = true ->
  inRange (-180) 180 (parseFloat lon) = true ->
  validateLatitudeAndLongitude lat lon = Return tt.
Proof.
  unfold inRange, validateLatitudeAndLongitude. intros Hlat Hlon.
  apply andb_true_iff in Hlat as [L1 L2]. apply andb_true_iff in Hlon as [N1 N2].
  apply leb_not_gtb in L1, L2, N1, N2. unfold gtb, ltb in *.
  rewrite L1, L2, N1, N2. reflexivity.
Qed.

Lemma of_Z_not_NaN z : isNaN (of_Z z) = false.
Proof.
  unfold of_Z. assert (He : emin prec emax <= 0) by (unfold emin, prec, emax; lia).
  destruct z as [|p|p]; simpl binary_normalize.
  - reflexivity.
  - destruct (binary_round_sign false p 0 He) as [(m' & e' & ->)| ->]; reflexivity.
  - destruct (binary_round_sign true p 0 He) as [(m' & e' & ->)| ->]; reflexivity.
Qed.

Lemma SFcompare_total x y :
  isNaN x = false -> isNaN y = false -> exists c, SFcompare x y = Some c.
Proof.
  destruct x as [sx|sx| |sx mx ex], y as [sy|sy| |sy my ey]; intros Hx Hy;
    try discriminate; simpl; eauto.
Qed.

Lemma outside_spec lo hi x :
  outside lo hi x = true -> ltb x (of_Z lo) || gtb x (of_Z hi) = true.
Proof.
  unfold outside, inRange, leb, ltb, gtb, SFleb, SFltb. intros H.
  apply andb_true_iff in H as [Hn H]. apply negb_true_iff in Hn.
  destruct (SFcompare_total (of_Z lo) x (of_Z_not_NaN lo) Hn) as [c1 E1].
  destruct (SFcompare_total x (of_Z hi) Hn (of_Z_not_NaN hi)) as [c2 E2].
  rewrite (SFcompare_antisym (of_Z lo) x), (SFcompare_antisym x (of_Z hi)).
  rewrite E1, E2 in *. destruct c1, c2; simpl in *; congruence.
Qed.

Lemma validate_NaN lat lon :
  isNaN (parseFloat lat) = true \/ inRange (-90) 90 (parseFloat lat) = true ->
  isNaN (parseFloat lon) = true \/ inRange (-180) 180 (parseFloat lon) = true ->
  validateLatitudeAndLongitude lat lon = Return tt.
Proof.
  unfold validateLatitudeAndLongitude. intros Hlat Hlon.
  assert (L : ltb (parseFloat lat) (of_Z (-90)) || gtb (parseFloat lat) (of_Z 90) = false).
  { destruct Hlat as [H|H].
    - destruct (parseFloat lat); try discriminate. reflexivity.
    - unfold inRange in H. apply andb_true_iff in H as [L1 L2].
      apply leb_not_gtb in L1, L2. unfold gtb, ltb in *. rewrite L1, L2. reflexivity. }
  assert (N : ltb (parseFloat lon) (of_Z (-180)) || gtb (parseFloat lon) (of_Z 180) = false).
  { destruct Hlon as [H|H].
    - destruct (parseFloat lon); try discriminate. reflexivity.
    - unfold inRange in H. apply andb_true_iff in H as [L1 L2].
      apply leb_not_gtb in L1, L2. unfold gtb, ltb in *. rewrite L1, L2. reflexivity. }
  rewrite L, N. reflexivity.
Qed.

Lemma validate_outside lat lon :
  outside (-90) 90 (parseFloat lat) = true
  \/ outside (-180) 180 (parseFloat lon) = true ->
  exists msg,
    validateLatitudeAndLongitude lat lon = Throw (mkError RangeError msg None)
    /\ (msg = "Invalid latitude" \/ msg = "Invalid longitude").
Proof.
  unfold validateLatitudeAndLongitude. intros H.
  destruct (ltb (parseFloat lat) (of_Z (-90)) || gtb (parseFloat lat) (of_Z 90)) eqn:L.
  - eauto.
  - destruct H as [H|H]; apply outside_spec in H; [congruence|].
    rewrite H. eauto.
Qed.

(** *** Nearest stations *)

Lemma getStationsNear_passes lat lon limit w :
  validateLatitudeAndLongitude lat lon = Return tt ->
  getStationsNear lat lon limit w =
  (Return (slice (sort byDistance (stationsWithDistances lat lon (tideStations w))) 0
             (match limit with Some n => n | None => 10 end)), w).
Proof. intros H. unfold getStationsNear. run_M. rewrite H. reflexivity. Qed.

Lemma getStationsNear_throws lat lon limit w e :
  validateLatitudeAndLongitude lat lon = Throw e ->
  getStationsNear lat lon limit w = (Throw e, w).
Proof. intros H. unfold getStationsNear. run_M. rewrite H. reflexivity. Qed.

Lemma getStationsNear_world lat lon limit w :
  snd (getStationsNear lat lon limit w) = w.
Proof.
  destruct (validateLatitudeAndLongitude lat lon) as [[]|e] eqn:E.
  - rewrite getStationsNear_passes by assumption. reflexivity.
  - rewrite (getStationsNear_throws _ _ _ _ e) by assumption. reflexivity.
Qed.

(** *** Prediction requests *)

Lemma getStationPredictions_run station days w :
  getStationPredictions (Some station) days w =
  (predictionsFor w days station,
   record (requestFor w (match days with Some d => d | None => 2 end) station) w).
Proof.
  unfold predictionsFor, requestFor, getStationPredictions,
    fetchPredictionsForTideStation. run_M.
  formatting_cases; reflexivity.
Qed.

Lemma predictionsFor_record f w days station :
  predictionsFor (record f w) days station = predictionsFor w days station.
Proof.
  unfold predictionsFor, getStationPredictions, fetchPredictionsForTideStation.
  run_M. simpl.
  formatting_cases; reflexivity.
Qed.

Lemma startAll_getStationPredictions days l : forall w,
  startAll (fun station => getStationPredictions (Some station) days) l w =
  (map (predictionsFor w days) l,
   recordAll (map (requestFor w (match days with Some d => d | None => 2 end)) l) w).
Proof.
  induction l as [|s l IH]; intros w; simpl; [reflexivity|].
  rewrite getStationPredictions_run, IH. f_equal. f_equal.
  apply map_ext. intros a. apply predictionsFor_record.
Qed.

Lemma arrayMap_Return {A B : Type} (f : A -> Completion B) l : forall ys,
  arrayMap f l = Return ys <-> Forall2 (fun a y => f a = Return y) l ys.
Proof.
  induction l as [|a l IH]; intros ys; simpl.
  - split; [intros H; injection H as <-; constructor|intros H; inversion H; reflexivity].
  - destruct (f a) as [y|e] eqn:Ha.
    + destruct (arrayMap f l) as [ys'|e] eqn:Hl.
      * split.
        -- intros H. injection H as <-. constructor; [exact Ha|]. apply IH. reflexivity.
        -- intros H. inversion H as [|? y0 ? ys0 Hy Hrest]; subst.
           apply IH in Hrest. congruence.
      * split; [discriminate|].
        intros H. inversion H as [|? y0 ? ys0 Hy Hrest]; subst.
        apply IH in Hrest. discriminate.
    + split; [discriminate|]. intros H. inversion H; subst. congruence.
Qed.

Lemma allStationsHandler_run w :
  allStationsHandler w =
  (match arrayMap formatTideStation (Map_values (tideStations w)) with
   | Return stations => Return (AllPayload stations)
   | Throw e => Throw e
   end, w).
Proof.
  unfold allStationsHandler. run_M.
  destruct (arrayMap formatTideStation _); reflexivity.
Qed.

(** *** The handlers, step by step *)

Lemma nearHandler_rejected schedule lat lon w e :
  validateLatitudeAndLongitude (VString lat) (VString lon) = Throw e ->
  nearHandler schedule lat lon w = (Throw e, w).
Proof.
  intros H. unfold nearHandler, bind.
  rewrite (getStationsNear_throws _ _ _ _ e H). reflexivity.
Qed.

Lemma closestHandler_rejected lat lon w e :
  validateLatitudeAndLongitude (VString lat) (VString lon) = Throw e ->
  closestHandler lat lon w = (Throw e, w).
Proof.
  intros H. unfold closestHandler, bind.
  rewrite (getStationsNear_throws _ _ _ _ e H). reflexivity.
Qed.

(** A handler failure is answered with status 404 and the error's
    message; the last [send] then finds the response sent, and the
    function rejects. *)
Lemma exports_handler_throws schedule req route w e w' :
  method req = "GET" ->
  matchRoute (url req) = Some route ->
  callHandler schedule route w = (Throw e, w') ->
  exports schedule req emptyRes w
  = (Throw headersSent,
     {| headers := [("Access-Control-Allow-Origin", Text "*");
                    ("Content-Type", Text "application/json")];
        sent := [(404, Message (message e))] |},
     w').
Proof.
  intros Hm Hr Hc. unfold exports. rewrite Hm, Hr, Hc. reflexivity.
Qed.

Lemma received_handler_throws schedule req route w e w' :
  method req = "GET" ->
  matchRoute (url req) = Some route ->
  callHandler schedule route w = (Throw e, w') ->
  received (snd (fst (exports schedule req emptyRes w))) = Some (404, Message (message e))
  /\ snd (exports schedule req emptyRes w) = w'.
Proof.
  intros Hm Hr Hc. rewrite (exports_handler_throws _ _ _ _ _ _ Hm Hr Hc).
  split; reflexivity.
Qed.

Lemma exports_handler_returns schedule req route w data w' :
  method req = "GET" ->
  matchRoute (url req) = Some route ->
  callHandler schedule route w = (Return data, w') ->
  exists res, exports schedule req emptyRes w = (Return None, res, w')
              /\ received res = Some (200, Data data).
Proof.
  intros Hm Hr Hc. unfold exports. rewrite Hm, Hr, Hc. simpl.
  eexists. split; reflexivity.
Qed.

(** ** The properties of the specification *)

(** C3. A latitude outside [-90, 90] or a longitude outside [-180, 180]
    makes findNear ([nearHandler]) and findClosest ([closestHandler]) fail
    with a [RangeError] whose message is "Invalid latitude" or "Invalid
    longitude".  The process state is left as it was, so no prediction
    request has been issued, and the response the client receives from
    the dispatcher has status 404 and that message. *)
Theorem out_of_range_coordinates_are_rejected :
  forall (schedule : list nat) (lat lon : string) (w : World),
    outside (-90) 90 (parseFloat (VString lat)) = true
    \/ outside (-180) 180 (parseFloat (VString lon)) = true ->
    exists msg,
      (msg = "Invalid latitude" \/ msg = "Invalid longitude")
      /\ nearHandler schedule lat lon w = (Throw (mkError RangeError msg None), w)
      /\ closestHandler lat lon w = (Throw (mkError RangeError msg None), w)
      /\ forall req,
           method req = "GET" ->
           matchRoute (url req) = Some (Near lat lon)
           \/ matchRoute (url req) = Some (Closest lat lon) ->
           received (snd (fst (exports schedule req emptyRes w)))
           = Some (404, Message msg)
           /\ snd (exports schedule req emptyRes w) = w.
Proof.
  intros schedule lat lon w H.
  destruct (validate_outside _ _ H) as (msg & Hv & Hmsg).
  exists msg. split; [exact Hmsg|].
  pose proof (nearHandler_rejected schedule lat lon w _ Hv) as Hn.
  pose proof (closestHandler_rejected lat lon w _ Hv) as Hc.
  split; [exact Hn|]. split; [exact Hc|].
  intros req Hm [Hr|Hr].
  - apply (received_handler_throws schedule req _ w (mkError RangeError msg None) w Hm Hr).
    exact Hn.
  - apply (received_handler_throws schedule req _ w (mkError RangeError msg None) w Hm Hr).
    exact Hc.
Qed.

Lemma sort_all_NaN l :
  Forall (fun s => station_distance s = Some NaN) l -> sort byDistance l = l.
Proof.
  induction 1 as [|x l Hx Hl IH]; [reflexivity|].
  simpl. rewrite IH. destruct l as [|y r]; [reflexivity|].
  simpl. unfold byDistance, distanceOf. rewrite Hx. reflexivity.
Qed.

(** C10. A coordinate that parses to [NaN] fails neither range check.
    When one coordinate is [NaN] and the other is [NaN] or within its
    range, validation returns, and - a distance from a position with a
    [NaN] coordinate being [NaN] - every station is annotated with the
    distance [NaN]; the sort then leaves the snapshot order as it is and
    [getStationsNear] returns its first ten stations. *)
Theorem NaN_coordinates_pass_validation :
  forall (lat lon : string) (w : World),
    (forall from to, isNaN (fst from) || isNaN (snd from) = true ->
                     distance from to = NaN) ->
    isNaN (parseFloat (VString lat)) = true
    \/ isNaN (parseFloat (VString lon)) = true ->
    isNaN (parseFloat (VString lat)) = true
    \/ inRange (-90) 90 (parseFloat (VString lat)) = true ->
    isNaN (parseFloat (VString lon)) = true
    \/ inRange (-180) 180 (parseFloat (VString lon)) = true ->
    (isNaN (parseFloat (VString lat)) = true ->
     ltb (parseFloat (VString lat)) (of_Z (-90))
     || gtb (parseFloat (VString lat)) (of_Z 90) = false)
    /\ (isNaN (parseFloat (VString lon)) = true ->
        ltb (parseFloat (VString lon)) (of_Z (-180))
        || gtb (parseFloat (VString lon)) (of_Z 180) = false)
    /\ validateLatitudeAndLongitude (VString lat) (VString lon) = Return tt
    /\ Forall (fun s => station_distance s = Some NaN)
         (stationsWithDistances (VString lat) (VString lon) (tideStations w))
    /\ getStationsNear (VString lat) (VString lon) (Some 10) w =
       (Return (firstn 10 (stationsWithDistances (VString lat) (VString lon)
                             (tideStations w))), w).
Proof.
  intros lat lon w Hd Hnan Hlat Hlon.
  assert (Hv := validate_NaN _ _ Hlat Hlon).
  assert (Hall : Forall (fun s => station_distance s = Some NaN)
                   (stationsWithDistances (VString lat) (VString lon) (tideStations w))).
  { unfold stationsWithDistances. apply Forall_map, Forall_forall. intros s _.
    cbn [withDistance station_distance]. unfold calculateDistance.
    rewrite Hd; [reflexivity|].
    cbn [fst snd]. destruct Hnan as [-> | ->]; [apply orb_true_r|reflexivity]. }
  split; [|split; [|split; [|split]]]; try assumption.
  - intros H. destruct (parseFloat (VString lat)); try discriminate. reflexivity.
  - intros H. destruct (parseFloat (VString lon)); try discriminate. reflexivity.
  - rewrite getStationsNear_passes by assumption.
    rewrite sort_all_NaN by assumption. rewrite slice_firstn by lia. reflexivity.
Qed.

(** C2. With an empty directory and coordinates within range, findClosest
    ([closestHandler]) does not fail with a not-found error of its own:
    it has no test for a missing station, where getById
    ([individualStationHandler]) throws [Invalid station] in the same
    directory.  The nearest station is [undefined], and reading its
    [stationId] throws the engine's [TypeError]; no request has been
    issued.  The dispatcher sends status 404 with the text of that
    [TypeError], and then rejects: its last [send] finds the response
    sent. *)
Theorem closest_on_empty_directory_throws_a_TypeError :
  forall (schedule : list nat) (lat lon : string) (w : World),
    Map_size (tideStations w) = 0%nat ->
    inRange (-90) 90 (parseFloat (VString lat)) = true ->
    inRange (-180) 180 (parseFloat (VString lon)) = true ->
    closestHandler lat lon w = (Throw (cannotRead "stationId"), w)
    /\ name (cannotRead "stationId") = TypeError
    /\ (forall id,
          individualStationHandler id w = (Throw (mkError Error "Invalid station" None), w))
    /\ forall req,
         method req = "GET" ->
         matchRoute (url req) = Some (Closest lat lon) ->
         exports schedule req emptyRes w
         = (Throw headersSent,
            {| headers := [("Access-Control-Allow-Origin", Text "*");
                           ("Content-Type", Text "application/json")];
               sent := [(404, Message (message (cannotRead "stationId")))] |},
            w).
Proof.
  intros schedule lat lon w Hempty Hlat Hlon.
  assert (Hc : closestHandler lat lon w = (Throw (cannotRead "stationId"), w)).
  { unfold closestHandler, bind.
    rewrite getStationsNear_passes by (apply validate_inRange; assumption).
    unfold stationsWithDistances, Map_values.
    destruct (tideStations w); [reflexivity|discriminate]. }
  split; [exact Hc|]. split; [reflexivity|]. split.
  - intros id. unfold individualStationHandler, bind, gets.
    destruct (tideStations w); [reflexivity|discriminate].
  - intros req Hm Hr.
    apply (exports_handler_throws schedule req _ w _ w Hm Hr). exact Hc.
Qed.

(** *** The requests a handler issues *)

Lemma nearHandler_world schedule lat lon w :
  snd (nearHandler schedule lat lon w) =
  recordAll (map (requestFor w 2) (candidates lat lon (Some 10) w)) w.
Proof.
  unfold nearHandler, candidates, bind.
  destruct (validateLatitudeAndLongitude (VString lat) (VString lon)) as [[]|e] eqn:E.
  - rewrite getStationsNear_passes by assumption. cbn [fst].
    unfold asyncMap. rewrite startAll_getStationPredictions.
    destruct (settle _ _ _); reflexivity.
  - rewrite (getStationsNear_throws _ _ _ _ e) by assumption. reflexivity.
Qed.

Lemma closestHandler_world lat lon w :
  snd (closestHandler lat lon w) =
  recordAll (map (requestFor w 7) (firstn 1 (candidates lat lon None w))) w.
Proof.
  unfold closestHandler, candidates, bind.
  destruct (validateLatitudeAndLongitude (VString lat) (VString lon)) as [[]|e] eqn:E.
  - rewrite getStationsNear_passes by assumption. cbn [fst].
    destruct (slice _ 0 10) as [|closest rest]; [reflexivity|].
    cbn [nth_error firstn map]. rewrite getStationPredictions_run.
    destruct (predictionsFor w (Some 7) closest); reflexivity.
  - rewrite (getStationsNear_throws _ _ _ _ e) by assumption. reflexivity.
Qed.

Lemma individualStationHandler_world stationId w :
  snd (individualStationHandler stationId w) =
  recordAll (map (requestFor w 7)
               (match Map_get (tideStations w) stationId with
                | Some station => [station]
                | None => []
                end)) w.
Proof.
  unfold individualStationHandler, bind, gets.
  destruct (Map_get (tideStations w) stationId) as [station|]; [|reflexivity].
  rewrite getStationPredictions_run.
  destruct (predictionsFor w (Some 7) station); reflexivity.
Qed.



Lemma Map_get_None {V : Type} (m : Map V) k :
  ~ In k (map fst m) -> Map_get m k = None.
Proof.
  induction m as [|[k' v] m IH]; simpl; intros H; [reflexivity|].
  destruct (String.eqb_spec k' k); [tauto|]. apply IH. tauto.
Qed.

Lemma Map_get_Some {V : Type} (m : Map V) k :
  In k (map fst m) -> exists v, Map_get m k = Some v /\ In (k, v) m.
Proof.
  induction m as [|[k' v] m IH]; simpl; intros H; [contradiction|].
  destruct (String.eqb_spec k' k) as [->|Hne].
  - exists v. auto.
  - destruct H as [H|H]; [contradiction|].
    destruct (IH H) as (v' & Hg & Hin). eauto.
Qed.

(** C6. For an id that is not a key of the directory, getById
    ([individualStationHandler]) fails with the error "Invalid station"
    and leaves the process state as it was - no request is issued - and
    the response the client receives from the dispatcher has status 404
    and the body [{ message: "Invalid station" }].  For an id that is a
    key, it issues exactly one request: the request names the station
    stored under the id - the id itself in a directory keyed by station
    ids - begins the day before today and spans the window of seven days,
    and the outcome of the handler is that of this station's
    predictions. *)
Theorem unknown_station_id_is_not_found :
  forall (schedule : list nat) (id : string) (w : World),
    (~ In id (map fst (tideStations w)) ->
     individualStationHandler id w =
       (Throw (mkError Error "Invalid station" None), w)
     /\ forall req,
          method req = "GET" ->
          matchRoute (url req) = Some (IndividualStation id) ->
          received (snd (fst (exports schedule req emptyRes w)))
          = Some (404, Message "Invalid station")
          /\ snd (exports schedule req emptyRes w) = w)
    /\ (In id (map fst (tideStations w)) ->
        exists station request,
          In (id, station) (tideStations w)
          /\ individualStationHandler id w =
             (match predictionsFor w (Some 7) station with
              | Return response => Return (StationPayload response)
              | Throw e => Throw e
              end,
              record (FetchPredictions request) w)
          /\ issued w (snd (individualStationHandler id w)) = [FetchPredictions request]
          /\ p_station request = stationId station
          /\ (wellKeyed (tideStations w) -> p_station request = id)
          /\ p_begin_date request = formatYYYYMMDD (today w - 1)
          /\ p_range request = 24 * (7 + 2)).
Proof.
  intros schedule id w. split.
  - intros Habsent.
    assert (Hh : individualStationHandler id w =
                 (Throw (mkError Error "Invalid station" None), w)).
    { unfold individualStationHandler, bind, gets.
      rewrite (Map_get_None _ _ Habsent). reflexivity. }
    split; [exact Hh|]. intros req Hm Hr.
    apply (received_handler_throws schedule req _ w
             (mkError Error "Invalid station" None) w Hm Hr).
    exact Hh.
  - intros Hpresent. destruct (Map_get_Some _ _ Hpresent) as (station & Hg & Hin).
    exists station, (predictionsParams station 7 (today w)).
    assert (Hh : individualStationHandler id w =
                 (match predictionsFor w (Some 7) station with
                  | Return response => Return (StationPayload response)
                  | Throw e => Throw e
                  end,
                  record (FetchPredictions (predictionsParams station 7 (today w))) w)).
    { unfold individualStationHandler, bind, gets. rewrite Hg.
      rewrite getStationPredictions_run.
      destruct (predictionsFor w (Some 7) station); reflexivity. }
    split; [exact Hin|]. split; [exact Hh|]. split.
    { rewrite Hh. cbn [snd].
      exact (issued_recordAll [FetchPredictions (predictionsParams station 7 (today w))] w). }
    split; [reflexivity|]. split; [|split; reflexivity].
    intros [_ Hkeys]. rewrite Forall_forall in Hkeys.
    symmetry. exact (Hkeys _ Hin).
Qed.


(** *** The directory under refreshes and requests *)

Lemma fetchTideStations_rejects reply w :
  rejects reply w -> snd (fetchTideStations reply w) = record FetchDirectory w.
Proof.
  unfold rejects, fetchTideStations, bind, fetchJson, throw.
  intros [e H]. destruct reply as [e'|[[list|]]]; simpl in *; try reflexivity.
  discriminate.
Qed.

Lemma callHandler_tideStations schedule route w :
  tideStations (snd (callHandler schedule route w)) = tideStations w.
Proof.
  destruct route as [stationId| |lat lon|lat lon]; simpl callHandler.
  - rewrite individualStationHandler_world. apply tideStations_recordAll.
  - rewrite allStationsHandler_run. reflexivity.
  - rewrite closestHandler_world. apply tideStations_recordAll.
  - rewrite nearHandler_world. apply tideStations_recordAll.
Qed.

(** The dispatcher passes on the state its handler leaves. *)
Lemma exports_world schedule req res w :
  snd (exports schedule req res w) = w
  \/ exists route, snd (exports schedule req res w) = snd (callHandler schedule route w).
Proof.
  unfold exports.
  destruct (negb (method req =? "GET")%string && negb (method req =? "OPTIONS")%string);
    [left; reflexivity|].
  destruct (andThen _ _) as [res1|e]; [|left; reflexivity].
  destruct (matchRoute (url req)) as [route|].
  - destruct (method req =? "OPTIONS")%string.
    + left. destruct (setAccessControlHeaders res1); reflexivity.
    + right. exists route.
      destruct (callHandler schedule route w) as [outcome w'].
      destruct (respond outcome _); reflexivity.
  - left. destruct (sendNotFound _); reflexivity.
Qed.

Lemma exports_tideStations schedule req res w :
  tideStations (snd (exports schedule req res w)) = tideStations w.
Proof.
  destruct (exports_world schedule req res w) as [->|[route ->]]; [reflexivity|].
  apply callHandler_tideStations.
Qed.

Lemma step_tideStations event w :
  noReload [event] -> tideStations (snd (step event w)) = tideStations w.
Proof.
  intros H. inversion H as [|? ? Hev _]; subst.
  destruct event as [reply|schedule req]; simpl.
  - rewrite fetchTideStations_rejects by apply Hev. reflexivity.
  - pose proof (exports_tideStations schedule req emptyRes w) as E.
    destruct (exports schedule req emptyRes w) as [[ret res] w']. exact E.
Qed.

Lemma run_tideStations events : forall w,
  noReload events -> tideStations (snd (run events w)) = tideStations w.
Proof.
  induction events as [|event events IH]; intros w H; [reflexivity|].
  inversion H as [|? ? Hev Hrest]; subst. simpl.
  pose proof (step_tideStations event w) as Hs.
  destruct (step event w) as [out w1].
  specialize (IH w1 Hrest). destruct (run events w1) as [outs w2].
  simpl in *. rewrite IH. apply Hs. constructor; [exact Hev|constructor].
Qed.

(** C4. A refresh that fails leaves the directory as it was and hands
    nothing to a caller: its rejection is dropped.  After it, and after
    any further requests and failing refreshes, listAll
    ([allStationsHandler]) does what it did on the snapshot held before
    the refresh: when the stations of that snapshot can be formatted, it
    returns exactly these stations, formatted, in the order of the
    snapshot, and the dispatcher answers [/all] with status 200 and
    them. *)
Theorem failed_refresh_keeps_the_snapshot :
  forall (schedule : list nat) (reply : Reply Directory) (events : list Event)
         (w : World),
    rejects reply w ->
    noReload events ->
    tideStations (snd (fetchTideStations reply w)) = tideStations w
    /\ fst (step (Refresh reply) w) = None
    /\ tideStations (snd (run (Refresh reply :: events) w)) = tideStations w
    /\ fst (allStationsHandler (snd (run (Refresh reply :: events) w)))
       = fst (allStationsHandler w)
    /\ forall stations,
         Forall2 (fun station entry => formatTideStation station = Return entry)
           (Map_values (tideStations w)) stations ->
         fst (allStationsHandler (snd (run (Refresh reply :: events) w)))
         = Return (AllPayload stations)
         /\ forall req,
              method req = "GET" ->
              matchRoute (url req) = Some AllStations ->
              exists res,
                fst (step (Incoming schedule req) (snd (run (Refresh reply :: events) w)))
                = Some res
                /\ received res = Some (200, Data (AllPayload stations)).
Proof.
  intros schedule reply events w Hrej Hev.
  assert (Hrun : tideStations (snd (run (Refresh reply :: events) w)) = tideStations w).
  { apply run_tideStations. constructor; [|exact Hev].
    intros w0. destruct Hrej as [e He]. unfold rejects.
    unfold fetchTideStations, bind, fetchJson, throw in *.
    destruct reply as [e'|[[list|]]]; simpl in *; try discriminate; eauto. }
  split; [|split; [|split; [|split]]].
  - rewrite fetchTideStations_rejects by assumption. reflexivity.
  - reflexivity.
  - exact Hrun.
  - rewrite !allStationsHandler_run. cbn [fst]. rewrite Hrun. reflexivity.
  - intros stations Hformat. apply arrayMap_Return in Hformat.
    set (w' := snd (run (Refresh reply :: events) w)) in *.
    assert (Hall : allStationsHandler w' = (Return (AllPayload stations), w')).
    { rewrite allStationsHandler_run, Hrun, Hformat. reflexivity. }
    split; [rewrite Hall; reflexivity|].
    intros req Hm Hr.
    destruct (exports_handler_returns schedule req AllStations w'
                (AllPayload stations) w' Hm Hr Hall) as (res & He & Hres).
    exists res. split; [|exact Hres]. simpl step. rewrite He. reflexivity.
Qed.

(** *** The fan-out of [nearHandler] *)

Lemma outcomes_cases {B : Type} (l : list (Completion B)) :
  (exists vs, l = map Return vs) \/ (exists i e, nth_error l i = Some (Throw e)).
Proof.
  induction l as [|[v|e] l IH].
  - left. exists []. reflexivity.
  - destruct IH as [[vs ->]|(i & e & H)].
    + left. exists (v :: vs). reflexivity.
    + right. exists (S i), e. exact H.
  - right. exists 0%nat, e. reflexivity.
Qed.

Lemma Forall2_map_Return {A B : Type} (f : A -> Completion B) l rs :
  Forall2 (fun a r => f a = Return r) l rs <-> map f l = map Return rs.
Proof.
  split.
  - induction 1; simpl; congruence.
  - revert rs. induction l as [|a l IH]; intros [|r rs] H; simpl in H;
      try discriminate; constructor.
    + congruence.
    + apply IH. congruence.
Qed.

Lemma nearHandler_run schedule lat lon w near :
  fst (getStationsNear (VString lat) (VString lon) (Some 10) w) = Return near ->
  fst (nearHandler schedule lat lon w) =
  match settle (map (predictionsFor w None) near)
          (completionOrder (List.length near) schedule) [] with
  | Return results =>
      Return (NearPayload (parseFloat (VString lat)) (parseFloat (VString lon)) results)
  | Throw e => Throw e
  end.
Proof.
  intros H. unfold nearHandler, bind.
  pose proof (getStationsNear_world (VString lat) (VString lon) (Some 10) w) as Hw.
  destruct (getStationsNear (VString lat) (VString lon) (Some 10) w) as [c w1].
  simpl in H, Hw. subst c w1.
  unfold asyncMap. rewrite startAll_getStationPredictions.
  destruct (settle _ _ _); reflexivity.
Qed.

Lemma nearHandler_all_return schedule lat lon w near results :
  fst (getStationsNear (VString lat) (VString lon) (Some 10) w) = Return near ->
  map (predictionsFor w None) near = map Return results ->
  fst (nearHandler schedule lat lon w)
  = Return (NearPayload (parseFloat (VString lat)) (parseFloat (VString lon)) results).
Proof.
  intros Hnear Hmap. rewrite (nearHandler_run _ _ _ _ _ Hnear), Hmap.
  rewrite settle_all_return; [reflexivity|].
  intros j Hj. apply In_completionOrder.
  rewrite <- (length_map (predictionsFor w None) near), Hmap, length_map. exact Hj.
Qed.

(** C5. Once findNear has resolved its candidate stations, nearest first,
    the stations of its result are the prediction results of the
    candidates at the same indices, for every order in which the fetches
    complete: if each candidate's fetch yields a result, the handler
    returns exactly those results in candidate order; and whenever it
    returns, [results[i]] is the result for [candidates[i]]. *)
Theorem near_results_follow_candidate_order :
  forall (schedule : list nat) (lat lon : string) (w : World) (near : list Station),
    fst (getStationsNear (VString lat) (VString lon) (Some 10) w) = Return near ->
    (forall results,
        Forall2 (fun candidate result => predictionsFor w None candidate = Return result)
          near results ->
        fst (nearHandler schedule lat lon w)
        = Return (NearPayload (parseFloat (VString lat)) (parseFloat (VString lon))
                    results))
    /\ (forall payload,
           fst (nearHandler schedule lat lon w) = Return payload ->
           exists results,
             payload = NearPayload (parseFloat (VString lat)) (parseFloat (VString lon))
                         results
             /\ List.length results = List.length near
             /\ forall i candidate,
                  nth_error near i = Some candidate ->
                  exists result,
                    nth_error results i = Some result
                    /\ predictionsFor w None candidate = Return result).
Proof.
  intros schedule lat lon w near Hnear.
  pose proof (fun results => nearHandler_all_return schedule lat lon w near results Hnear)
    as Hall.
  split.
  - intros results H. apply Hall. apply Forall2_map_Return. exact H.
  - intros payload Hret.
    destruct (outcomes_cases (map (predictionsFor w None) near))
      as [[results Hmap]|(i & e & Hthrow)].
    + exists results. rewrite (Hall results Hmap) in Hret. injection Hret as <-.
      split; [reflexivity|]. apply Forall2_map_Return in Hmap.
      split; [symmetry; eapply Forall2_length; eassumption|].
      intros j candidate Hj. clear - Hmap Hj. revert j Hj.
      induction Hmap as [|a r l rs Har Hrest IH]; intros [|j] Hj; simpl in *;
        try discriminate.
      * injection Hj as <-. eauto.
      * apply IH. exact Hj.
    + exfalso. rewrite (nearHandler_run _ _ _ _ _ Hnear) in Hret.
      destruct (settle_throw (map (predictionsFor w None) near)
                  (completionOrder (List.length near) schedule) []) as (e' & He & _).
      { exists i, e. split; [|exact Hthrow]. apply In_completionOrder.
        rewrite <- (length_map (predictionsFor w None) near).
        apply nth_error_Some. congruence. }
      rewrite He in Hret. discriminate.
Qed.

(** *** The nearest stations *)

Lemma byDistance_consistent a b :
  isNumber (distanceOf a) = true -> isNumber (distanceOf b) = true ->
  gtb (byDistance a b) zero = (ord (distanceOf b) <? ord (distanceOf a)).
Proof.
  intros Ha Hb. unfold byDistance.
  pose proof Ha as Va. pose proof Hb as Vb.
  unfold isNumber in Va, Vb.
  apply andb_true_iff in Va as [Va _]. apply andb_true_iff in Vb as [Vb _].
  rewrite sub_gtb_zero by assumption.
  unfold gtb. fold (ltb (distanceOf b) (distanceOf a)). apply ltb_ord; assumption.
Qed.

Lemma StronglySorted_weaken {A : Type} (P : A -> Prop) (R R' : A -> A -> Prop) l :
  (forall a b, P a -> P b -> R a b -> R' a b) ->
  Forall P l -> StronglySorted R l -> StronglySorted R' l.
Proof.
  intros Himp HP HS. induction HS as [|x l HS IH Hx]; constructor.
  - apply IH. inversion HP; assumption.
  - inversion HP as [|? ? Px Pl]; subst.
    rewrite Forall_forall in *. intros b Hb. apply Himp; auto.
Qed.

Lemma predictionsFor_fields w days station r :
  predictionsFor w days station = Return r ->
  formatTideStation station = Return (station_fields r).
Proof.
  unfold predictionsFor, getStationPredictions, fetchPredictionsForTideStation.
  run_M.
  destruct (predictionsEndpoint w _) as [e|[[l|]]]; cbn [predictions fst snd];
    destruct (formatTideStation station) as [fields|e']; cbn [fst snd];
    try discriminate.
  destruct (arrayMap _ l); cbn [fst]; intros H; [|discriminate].
  injection H as <-. reflexivity.
Qed.

Lemma predictionsFor_distance w days station r :
  predictionsFor w days station = Return r ->
  f_distance (station_fields r) = station_distance station.
Proof.
  intros H. apply predictionsFor_fields in H. unfold formatTideStation in H.
  destruct (geoTz _ _); [|discriminate]. injection H as <-. reflexivity.
Qed.

Lemma all_return {A B : Type} (f : A -> Completion B) l :
  Forall (fun a => exists r, f a = Return r) l ->
  exists rs, Forall2 (fun a r => f a = Return r) l rs.
Proof.
  induction 1 as [|a l [r Hr] _ [rs IH]].
  - exists []. constructor.
  - exists (r :: rs). constructor; assumption.
Qed.

(** C1. For coordinates within range and a directory whose stations all
    lie at a distance that is a number, [getStationsNear] resolves
    [min(10, |directory|)] stations: copies of snapshot stations, each
    annotated with the distance computed for it, in non-decreasing order
    of distance, none left out being nearer than one resolved, and among
    stations at one distance in the order of the snapshot.  When upstream
    answers their prediction requests, findNear ([nearHandler]) returns
    these stations formatted, in this order, each with its distance. *)
Theorem findNear_returns_the_nearest_in_order :
  forall (schedule : list nat) (lat lon : string) (w : World),
    let snapshot :=
      stationsWithDistances (VString lat) (VString lon) (tideStations w) in
    inRange (-90) 90 (parseFloat (VString lat)) = true ->
    inRange (-180) 180 (parseFloat (VString lon)) = true ->
    Forall (fun s => isNumber (distanceOf s) = true) snapshot ->
    exists near others,
      fst (getStationsNear (VString lat) (VString lon) (Some 10) w) = Return near
      /\ List.length near = Nat.min 10 (Map_size (tideStations w))
      /\ Forall (fun s =>
                   exists station,
                     In station (Map_values (tideStations w))
                     /\ s = withDistance station
                              (calculateDistance (VString lat, VString lon)
                                 (station_lat station, station_lon station))) near
      /\ Permutation (near ++ others) snapshot
      /\ (forall a b, In a near -> In b others ->
                      leb (distanceOf a) (distanceOf b) = true)
      /\ StronglySorted (fun a b => leb (distanceOf a) (distanceOf b) = true) near
      /\ (forall d, isNumber d = true ->
            exists rest,
              filter (fun s => eqb (distanceOf s) d) snapshot
              = (filter (fun s => eqb (distanceOf s) d) near ++ rest)%list)
      /\ (Forall (fun s => exists r, predictionsFor w None s = Return r) near ->
          exists stations,
            fst (nearHandler schedule lat lon w)
            = Return (NearPayload (parseFloat (VString lat)) (parseFloat (VString lon))
                        stations)
            /\ List.length stations = Nat.min 10 (Map_size (tideStations w))
            /\ map (fun r => Return (station_fields r)) stations
               = map formatTideStation near
            /\ map (fun r => f_distance (station_fields r)) stations
               = map (fun s => Some (distanceOf s)) near).
Proof.
  intros schedule lat lon w snapshot Hlat Hlon Hnum.
  set (ok := fun s : Station => isNumber (distanceOf s) = true) in *.
  set (key := fun s : Station => ord (distanceOf s)).
  set (sorted := sort byDistance snapshot).
  assert (Hperm : Permutation sorted snapshot) by apply sort_perm.
  assert (Hok : Forall ok sorted).
  { apply (Permutation_Forall (Permutation_sym Hperm)). exact Hnum. }
  assert (Hsorted : StronglySorted (keyLe key) sorted).
  { apply (sort_sorted byDistance key ok); [|exact Hnum].
    intros a b Ha Hb. apply byDistance_consistent; assumption. }
  assert (Hleb : StronglySorted
                   (fun a b => leb (distanceOf a) (distanceOf b) = true) sorted).
  { apply (StronglySorted_weaken ok (keyLe key)); try assumption.
    intros a b Ha Hb Hab. rewrite leb_ord by assumption. apply Z.leb_le. exact Hab. }
  assert (Hnear : getStationsNear (VString lat) (VString lon) (Some 10) w
                  = (Return (firstn 10 sorted), w)).
  { rewrite getStationsNear_passes by (apply validate_inRange; assumption).
    rewrite slice_firstn by lia. reflexivity. }
  assert (Hin : forall s, In s (firstn 10 sorted) -> In s snapshot).
  { intros s Hs. apply (Permutation_in _ Hperm).
    rewrite <- (firstn_skipn 10 sorted). apply in_or_app. auto. }
  assert (Hann : forall s, In s snapshot ->
             exists station,
               In station (Map_values (tideStations w))
               /\ s = withDistance station
                        (calculateDistance (VString lat, VString lon)
                           (station_lat station, station_lon station))).
  { intros s Hs. unfold snapshot, stationsWithDistances in Hs.
    apply in_map_iff in Hs as (station & <- & Hs). eauto. }
  assert (Hlen : List.length (firstn 10 sorted) = Nat.min 10 (Map_size (tideStations w))).
  { rewrite length_firstn. unfold sorted.
    rewrite sort_length. unfold snapshot, stationsWithDistances, Map_values, Map_size.
    rewrite !length_map. reflexivity. }
  exists (firstn 10 sorted), (skipn 10 sorted).
  split; [rewrite Hnear; reflexivity|].
  split; [exact Hlen|].
  split.
  { apply Forall_forall. intros s Hs. apply Hann, Hin, Hs. }
  split; [rewrite firstn_skipn; exact Hperm|].
  split; [apply StronglySorted_split; exact Hleb|].
  split; [apply StronglySorted_firstn; exact Hleb|].
  split.
  { intros d Hd. exists (filter (fun s => eqb (distanceOf s) d) (skipn 10 sorted)).
    rewrite <- filter_firstn.
    assert (Hkey : forall l, Forall ok l ->
               filter (fun s => eqb (distanceOf s) d) l
               = filter (fun s => key s =? ord d) l).
    { intros l Hl. apply filter_ext_in. intros s Hs.
      rewrite Forall_forall in Hl. apply eqb_ord; [apply Hl; exact Hs|exact Hd]. }
    rewrite (Hkey snapshot Hnum), (Hkey sorted Hok). symmetry.
    apply (sort_filter byDistance key ok); [|exact Hnum].
    intros a b Ha Hb. apply byDistance_consistent; assumption. }
  intros Hup.
  destruct (all_return (predictionsFor w None) (firstn 10 sorted) Hup) as [stations Hst].
  assert (Hfields : map (fun r => Return (station_fields r)) stations
                    = map formatTideStation (firstn 10 sorted)).
  { clear - Hst. induction Hst as [|a r l rs Har _ IH]; simpl; [reflexivity|].
    rewrite IH, (predictionsFor_fields _ _ _ _ Har). reflexivity. }
  exists stations.
  split.
  { apply (nearHandler_all_return schedule lat lon w (firstn 10 sorted));
      [rewrite Hnear; reflexivity|]. apply Forall2_map_Return. exact Hst. }
  split; [rewrite <- (Forall2_length Hst); exact Hlen|].
  split; [exact Hfields|].
  assert (Hdist : Forall2 (fun s r => f_distance (station_fields r) = Some (distanceOf s))
                    (firstn 10 sorted) stations).
  { assert (Hsub : forall s, In s (firstn 10 sorted) ->
               station_distance s = Some (distanceOf s)).
    { intros s Hs. destruct (Hann s (Hin s Hs)) as (station & _ & ->). reflexivity. }
    clear - Hst Hsub. induction Hst as [|a r l rs Har _ IH]; constructor.
    - rewrite (predictionsFor_distance _ _ _ _ Har). apply Hsub. left. reflexivity.
    - apply IH. intros s Hs. apply Hsub. right. exact Hs. }
  clear - Hdist. induction Hdist as [|s r l rs Hsr _ IH]; simpl; [reflexivity|].
  rewrite Hsr, IH. reflexivity.
Qed.

(** *** The name normaliser *)

Lemma lowerChar_idempotent c : lowerChar (lowerChar c) = lowerChar c.
Proof. destruct c as [[] [] [] [] [] [] [] []]; reflexivity. Qed.

Lemma toLowerCase_idempotent s : toLowerCase (toLowerCase s) = toLowerCase s.
Proof.
  induction s as [|c s IH]; simpl; [reflexivity|].
  rewrite lowerChar_idempotent, IH. reflexivity.
Qed.

Lemma toLowerCase_app a b :
  toLowerCase (a ++ b) = (toLowerCase a ++ toLowerCase b)%string.
Proof. induction a as [|c a IH]; simpl; [reflexivity|]. rewrite IH. reflexivity. Qed.


Lemma startsWith_app p : forall s,
  startsWith p s = true -> s = (p ++ drop (String.length p) s)%string.
Proof.
  induction p as [|a p IH]; intros s H; [reflexivity|].
  destruct s as [|b s]; [discriminate|]. simpl in H.
  apply andb_true_iff in H as [Hab H]. apply Ascii.eqb_eq in Hab. subst b.
  simpl. f_equal. apply IH. exact H.
Qed.

(** Replacing a substring by one that differs from it in case only
    changes nothing but case. *)
Lemma toLowerCase_replace pattern replacement :
  toLowerCase replacement = toLowerCase pattern ->
  forall s, toLowerCase (replace pattern replacement s) = toLowerCase s.
Proof.
  intros Hcase.
  assert (Hfound : forall s, startsWith pattern s = true ->
            toLowerCase (replacement ++ drop (String.length pattern) s) = toLowerCase s).
  { intros s E. rewrite toLowerCase_app, Hcase, <- toLowerCase_app.
    rewrite <- (startsWith_app _ _ E). reflexivity. }
  intros s. induction s as [|c s IH].
  - cbn [replace]. destruct (startsWith pattern EmptyString) eqn:E; [|reflexivity].
    apply Hfound. exact E.
  - cbn [replace]. destruct (startsWith pattern (String c s)) eqn:E.
    + apply Hfound. exact E.
    + simpl. rewrite IH. reflexivity.
Qed.


(** *** The distance *)


End Pipeline.

(** ** The stand-ins meet the assumptions made of the packages *)

Lemma StandIn_distance_NaN (from to : number * number) :
  isNaN (fst from) || isNaN (snd from) = true -> StandIn.distance from to = NaN.
Proof.
  destruct from as [x y], to as [x' y']. unfold StandIn.distance. cbn [fst snd].
  intros H. apply orb_true_iff in H as [H|H].
  - destruct x; try discriminate. reflexivity.
  - destruct y; try discriminate.
    destruct (SFabs (sub x x')); reflexivity.
Qed.



(** ** The properties on a directory of three stations *)

Lemma findNear_returns_the_nearest_in_order_witness :
  inRange (-90) 90 (parseFloat (VString "0")) = true
  /\ inRange (-180) 180 (parseFloat (VString "0")) = true
  /\ exists near stations,
       fst (getStationsNear (externals := StandIn.externals) (VString "0") (VString "0")
              (Some 10) (StandIn.world [StandIn.C; StandIn.B; StandIn.A]))
       = Return near
       /\ map stationId near = ["1"; "2"; "3"]
       /\ fst (nearHandler (externals := StandIn.externals) [2; 0; 1]%nat "0" "0"
                (StandIn.world [StandIn.C; StandIn.B; StandIn.A]))
          = Return (NearPayload zero zero stations)
       /\ List.length stations = 3%nat
       /\ map (fun r => Return (station_fields r)) stations
          = map (formatTideStation (externals := StandIn.externals)) near.
Proof.
  split; [vm_compute; reflexivity|]. split; [vm_compute; reflexivity|].
  destruct (findNear_returns_the_nearest_in_order (externals := StandIn.externals)
              [2; 0; 1]%nat "0" "0" (StandIn.world [StandIn.C; StandIn.B; StandIn.A]))
    as (near & others & Hnear & _ & _ & _ & _ & _ & _ & Hup).
  - vm_compute; reflexivity.
  - vm_compute; reflexivity.
  - repeat (constructor; [vm_compute; reflexivity|]). constructor.
  - pose proof Hnear as Hids. vm_compute in Hids. injection Hids as Hids.
    destruct Hup as (stations & Hret & Hlen & Hfields & _).
    + rewrite <- Hids.
      repeat (constructor; [eexists; vm_compute; reflexivity|]). constructor.
    + exists near, stations. split; [exact Hnear|].
      split; [rewrite <- Hids; reflexivity|].
      split; [exact Hret|]. split; [exact Hlen|exact Hfields].
Defined.

Lemma closest_on_empty_directory_throws_a_TypeError_witness :
  Map_size (tideStations (StandIn.world [])) = 0%nat
  /\ inRange (-90) 90 (parseFloat (VString "10")) = true
  /\ inRange (-180) 180 (parseFloat (VString "20")) = true
  /\ closestHandler (externals := StandIn.externals) "10" "20" (StandIn.world [])
     = (Throw (cannotRead "stationId"), StandIn.world [])
  /\ name (cannotRead "stationId") = TypeError
  /\ individualStationHandler (externals := StandIn.externals) "10" (StandIn.world [])
     = (Throw (mkError Error "Invalid station" None), StandIn.world [])
  /\ exports (externals := StandIn.externals) [] (mkReq "GET" "/closest/10,20")
       emptyRes (StandIn.world [])
     = (Throw headersSent,
        {| headers := [("Access-Control-Allow-Origin", Text "*");
                       ("Content-Type", Text "application/json")];
           sent := [(404, Message (message (cannotRead "stationId")))] |},
        StandIn.world []).
Proof.
  split; [reflexivity|]. split; [vm_compute; reflexivity|].
  split; [vm_compute; reflexivity|].
  destruct (closest_on_empty_directory_throws_a_TypeError (externals := StandIn.externals)
              [] "10" "20" (StandIn.world [])) as (Hc & Hname & Hid & Hd);
    try (vm_compute; reflexivity).
  split; [exact Hc|]. split; [exact Hname|]. split; [apply Hid|].
  apply (Hd (mkReq "GET" "/closest/10,20")); vm_compute; reflexivity.
Defined.

Lemma out_of_range_coordinates_are_rejected_witness :
  outside (-90) 90 (parseFloat (VString "95")) = true
  /\ exists msg,
       nearHandler (externals := StandIn.externals) [] "95" "0"
         (StandIn.world [StandIn.A])
       = (Throw (mkError RangeError msg None), StandIn.world [StandIn.A])
       /\ closestHandler (externals := StandIn.externals) "95" "0"
            (StandIn.world [StandIn.A])
          = (Throw (mkError RangeError msg None), StandIn.world [StandIn.A]).
Proof.
  split; [vm_compute; reflexivity|].
  destruct (out_of_range_coordinates_are_rejected (externals := StandIn.externals)
              [] "95" "0" (StandIn.world [StandIn.A]))
    as (msg & _ & Hn & Hc & _).
  - left. vm_compute. reflexivity.
  - exists msg. split; assumption.
Defined.

Lemma failed_refresh_keeps_the_snapshot_witness :
  let loaded :=
    snd (step (externals := StandIn.externals)
           (Refresh (Body (mkDirectory (Some [StandIn.A; StandIn.B]))))
           (StandIn.world [])) in
  let failure := Rejected (mkError FetchError "network timeout" None) in
  let later := [Incoming [] (mkReq "GET" "/1"); Refresh (Body (mkDirectory None))] in
  rejects failure loaded
  /\ noReload later
  /\ Map_values
       (tideStations
          (snd (run (externals := StandIn.externals) (Refresh failure :: later) loaded)))
     = [StandIn.A; StandIn.B].
Proof.
  intros loaded failure later.
  assert (H1 : rejects failure loaded).
  { eexists. reflexivity. }
  assert (H2 : noReload later).
  { constructor; [exact I|]. constructor; [|constructor].
    intros w. eexists. reflexivity. }
  split; [exact H1|]. split; [exact H2|].
  destruct (failed_refresh_keeps_the_snapshot (externals := StandIn.externals)
              [] failure later loaded H1 H2) as (_ & _ & Hrun & _).
  rewrite Hrun. reflexivity.
Defined.

Lemma near_results_follow_candidate_order_witness :
  exists near results,
    fst (getStationsNear (externals := StandIn.externals) (VString "0") (VString "0")
           (Some 10) (StandIn.world [StandIn.C; StandIn.B; StandIn.A]))
    = Return near
    /\ Forall2 (fun candidate result =>
                  predictionsFor (externals := StandIn.externals)
                    (StandIn.world [StandIn.C; StandIn.B; StandIn.A]) None candidate
                  = Return result) near results
    /\ fst (nearHandler (externals := StandIn.externals) [2; 0; 1]%nat "0" "0"
              (StandIn.world [StandIn.C; StandIn.B; StandIn.A]))
       = Return (NearPayload zero zero results).
Proof.
  eexists. eexists. split; [vm_compute; reflexivity|].
  assert (H : forall (P : Prop) (Q : Prop), P -> (P -> Q) -> P /\ Q) by tauto.
  apply H.
  - repeat (constructor; [vm_compute; reflexivity|]). constructor.
  - intros HF.
    apply (near_results_follow_candidate_order (externals := StandIn.externals)
             [2; 0; 1]%nat "0" "0" (StandIn.world [StandIn.C; StandIn.B; StandIn.A])
             _ eq_refl).
    exact HF.
Defined.

Lemma unknown_station_id_is_not_found_witness :
  ~ In "77" (map fst (tideStations (StandIn.world [StandIn.A])))
  /\ In "1" (map fst (tideStations (StandIn.world [StandIn.A])))
  /\ individualStationHandler (externals := StandIn.externals) "77"
       (StandIn.world [StandIn.A])
     = (Throw (mkError Error "Invalid station" None), StandIn.world [StandIn.A])
  /\ received
       (snd (fst (exports (externals := StandIn.externals) [] (mkReq "GET" "/77")
                    emptyRes (StandIn.world [StandIn.A]))))
     = Some (404, Message "Invalid station")
  /\ exists request,
       issued (StandIn.world [StandIn.A])
         (snd (individualStationHandler (externals := StandIn.externals) "1"
                 (StandIn.world [StandIn.A])))
       = [FetchPredictions request]
       /\ p_station request = "1"
       /\ p_begin_date request = "20261101"
       /\ p_range request = 216.
Proof.
  assert (H : ~ In "77" (map fst (tideStations (StandIn.world [StandIn.A])))).
  { simpl. intros [H|[]]. discriminate. }
  assert (H1 : In "1" (map fst (tideStations (StandIn.world [StandIn.A])))).
  { simpl. left. reflexivity. }
  split; [exact H|]. split; [exact H1|].
  destruct (unknown_station_id_is_not_found (externals := StandIn.externals)
              [] "77" (StandIn.world [StandIn.A])) as [Habsent _].
  destruct (Habsent H) as [Hh Hd].
  split; [exact Hh|]. split; [apply Hd; vm_compute; reflexivity|].
  destruct (unknown_station_id_is_not_found (externals := StandIn.externals)
              [] "1" (StandIn.world [StandIn.A])) as [_ Hpresent].
  destruct (Hpresent H1)
    as (station & request & Hin & _ & Hissued & Hname & _ & Hbegin & Hrange).
  exists request. split; [exact Hissued|].
  destruct Hin as [Hin|[]]. injection Hin as <-.
  split; [exact Hname|]. split; [rewrite Hbegin; vm_compute; reflexivity|exact Hrange].
Defined.





(** Nor is the distance of a pair to itself zero for every pair: the
    coordinates [(".-", "0")] pass the route's pattern, parse to [NaN], and
    a distance computed by arithmetic on them is [NaN], which equals
    nothing. *)
Example calculateDistance_of_NaN_coordinates :
  matchRoute "/near/.-,0" = Some (Near ".-" "0")
  /\ calculateDistance (externals := StandIn.externals)
       (VString ".-", VString "0") (VString ".-", VString "0") = NaN
  /\ eqb NaN zero = false.
Proof. vm_compute. repeat split. Qed.

Lemma NaN_coordinates_pass_validation_witness :
  isNaN (parseFloat (VString ".-")) = true
  /\ matchRoute "/near/.-,.-" = Some (Near ".-" ".-")
  /\ validateLatitudeAndLongitude (VString ".-") (VString ".-") = Return tt
  /\ Forall (fun s => station_distance s = Some NaN)
       (stationsWithDistances (externals := StandIn.externals) (VString ".-") (VString ".-")
          (tideStations (StandIn.world [StandIn.A; StandIn.B]))).
Proof.
  split; [vm_compute; reflexivity|]. split; [vm_compute; reflexivity|].
  destruct (NaN_coordinates_pass_validation (externals := StandIn.externals)
              ".-" ".-" (StandIn.world [StandIn.A; StandIn.B]))
    as (_ & _ & Hv & Hall & _).
  - exact StandIn_distance_NaN.
  - left. vm_compute. reflexivity.
  - left. vm_compute. reflexivity.
  - left. vm_compute. reflexivity.
  - split; assumption.
Defined.

(** ** The model at work *)

(** [parseFloat] reads the longest numeric prefix and rounds to the nearest
    double. *)
Example parseFloat_examples :
  parseFloat (VString "95") = of_Z 95
  /\ parseFloat (VString "-90") = of_Z (-90)
  /\ parseFloat (VString "4-5") = of_Z 4
  /\ parseFloat (VString "1.5.2") = S754_finite false 6755399441055744 (-52)
  /\ parseFloat (VString "-0") = S754_zero true
  /\ parseFloat (VString ".-") = NaN
  /\ parseFloat (VString "-") = NaN
  /\ parseFloat (VString "0.1") = S754_finite false 7205759403792794 (-56)
  /\ parseFloat (VNumber (S754_zero true)) = zero
  /\ parseFloat VUndefined = NaN.
Proof. repeat split; vm_compute; reflexivity. Qed.

(** The routes and their captures. *)
Example matchRoute_examples :
  matchRoute "/8534720" = Some (IndividualStation "8534720")
  /\ matchRoute "/all" = Some AllStations
  /\ matchRoute "/closest/39.3,-74.5" = Some (Closest "39.3" "-74.5")
  /\ matchRoute "/near/39.3,-74.5" = Some (Near "39.3" "-74.5")
  /\ matchRoute "/near/.-,.-" = Some (Near ".-" ".-")
  /\ matchRoute "/near/39.3" = None
  /\ matchRoute "/near/1,2,3" = None
  /\ matchRoute "/closest/39.3,-74.5?units=metric" = None
  /\ matchRoute "/tides/8534720" = None.
Proof. repeat split; vm_compute; reflexivity. Qed.

(** A stable sort by distance: equal distances keep the order of the
    array, and a [NaN] distance compares as equal to every other. *)
Example sort_examples :
  let at_ (id : string) (d : number) :=
    withDistance (StandIn.station id id 0 0) d in
  map stationId
    (sort byDistance [at_ "a" (of_Z 3); at_ "b" (of_Z 1); at_ "c" (of_Z 3); at_ "d" (of_Z 1)])
  = ["b"; "d"; "a"; "c"]
  /\ map stationId
       (sort byDistance [at_ "a" NaN; at_ "b" NaN; at_ "c" NaN])
     = ["a"; "b"; "c"].
Proof. split; vm_compute; reflexivity. Qed.

(** A failing handler is answered with its message; the dispatcher then
    runs on into its last [send], which throws. *)
Example exports_on_unknown_station :
  let '(outcome, res, _) :=
    exports (externals := StandIn.externals) [] (mkReq "GET" "/77") emptyRes
      (StandIn.world [StandIn.A]) in
  outcome = Throw headersSent
  /\ sent res = [(404, Message "Invalid station")]
  /\ received res = Some (404, Message "Invalid station").
Proof. vm_compute. repeat split. Qed.

(** A station without a latitude cannot be formatted: the time zone lookup
    refuses it, and listing the directory fails. *)
Example allStationsHandler_on_a_station_without_latitude :
  let adrift :=
    {| stationId := "9"; etidesStnName := "ADRIFT"; commonName := "ADRIFT";
       station_lat := VUndefined; station_lon := VNumber zero;
       station_state := "NJ"; station_region := "Mid-Atlantic";
       stationType := "R"; station_distance := None |} in
  fst (allStationsHandler (externals := StandIn.externals)
         (StandIn.world [StandIn.A; adrift]))
  = Throw (mkError Error "Invalid latitude" None).
Proof. vm_compute. reflexivity. Qed.

(** A preflight request is answered with the three access-control headers
    and an empty body, without calling a handler. *)
Example exports_on_options :
  exports (externals := StandIn.externals) [] (mkReq "OPTIONS" "/all") emptyRes
    (StandIn.world [StandIn.A])
  = (Return (Some EmptyString),
     {| headers :=
          [("Access-Control-Allow-Origin", Text "*");
           ("Content-Type", Text "application/json");
           ("Access-Control-Allow-Methods", Text "GET, OPTIONS");
           ("Access-Control-Allow-Headers", Text "X-Requested-With, Content-Type, Accept");
           ("Access-Control-Allow-Max-Age", Seconds 86400)];
        sent := [] |},
     StandIn.world [StandIn.A]).
Proof. reflexivity. Qed.

(** The window of a request made on 2026-11-02 for seven days. *)
Example predictionsParams_example :
  let r := predictionsParams (externals := StandIn.externals) StandIn.A 7 20759 in
  p_station r = "1" /\ p_begin_date r = "20261101" /\ p_range r = 216.
Proof. vm_compute. repeat split. Qed.

(** * Further properties of the code *)

(** ** Maps: what [new Map(entries)] holds *)

Section Maps.

Context {V : Type}.

Lemma Map_get_set (m : Map V) k v k' :
  Map_get (Map_set m k v) k' = if String.eqb k k' then Some v else Map_get m k'.
Proof.
  induction m as [|[a b] m IH]; simpl.
  - reflexivity.
  - destruct (String.eqb_spec a k) as [->|Hak]; simpl.
    + destruct (String.eqb k k'); reflexivity.
    + rewrite IH. destruct (String.eqb_spec a k') as [->|Hak'].
      * destruct (String.eqb_spec k k'); [congruence|reflexivity].
      * reflexivity.
Qed.

Lemma Map_set_absent (m : Map V) k v :
  ~ In k (map fst m) -> Map_set m k v = (m ++ [(k, v)])%list.
Proof.
  induction m as [|[a b] m IH]; simpl; intros H; [reflexivity|].
  destruct (String.eqb_spec a k); [tauto|]. rewrite IH by tauto. reflexivity.
Qed.

Lemma Map_set_present (m : Map V) k v :
  In k (map fst m) -> map fst (Map_set m k v) = map fst m.
Proof.
  induction m as [|[a b] m IH]; simpl; intros H; [contradiction|].
  destruct (String.eqb_spec a k); [reflexivity|].
  simpl. rewrite IH; [reflexivity|]. destruct H; [contradiction|assumption].
Qed.

Lemma Map_set_NoDup (m : Map V) k v :
  NoDup (map fst m) -> NoDup (map fst (Map_set m k v)).
Proof.
  intros H. destruct (in_dec string_dec k (map fst m)) as [Hin|Hout].
  - rewrite Map_set_present; assumption.
  - rewrite Map_set_absent, map_app by assumption. simpl.
    apply NoDup_app; [assumption|repeat constructor; auto|].
    intros x Hx [<-|[]]. contradiction.
Qed.

Lemma Map_set_In (m : Map V) k v k' v' :
  In (k', v') (Map_set m k v) -> (k' = k /\ v' = v) \/ In (k', v') m.
Proof.
  induction m as [|[a b] m IH]; simpl.
  - intros [H|[]]. injection H as <- <-. auto.
  - destruct (String.eqb_spec a k) as [->|Hak]; simpl.
    + intros [H|H]; [injection H as <- <-; auto|auto].
    + intros [H|H]; [auto|]. destruct (IH H); auto.
Qed.

Lemma find_app {A : Type} (p : A -> bool) l1 l2 :
  find p (l1 ++ l2) = match find p l1 with Some x => Some x | None => find p l2 end.
Proof.
  induction l1 as [|x l1 IH]; simpl; [reflexivity|]. destruct (p x); auto.
Qed.

Lemma find_map {A B : Type} (p : B -> bool) (f : A -> B) l :
  find p (map f l) = option_map f (find (fun a => p (f a)) l).
Proof.
  induction l as [|x l IH]; simpl; [reflexivity|]. destruct (p (f x)); auto.
Qed.

Lemma Map_new_from_get entries : forall (m : Map V) id,
  Map_get (fold_left (fun m kv => Map_set m (fst kv) (snd kv)) entries m) id
  = match find (fun kv => String.eqb (fst kv) id) (rev entries) with
    | Some kv => Some (snd kv)
    | None => Map_get m id
    end.
Proof.
  induction entries as [|[k v] entries IH]; intros m id; simpl; [reflexivity|].
  rewrite IH, find_app. destruct (find _ (rev entries)); [reflexivity|].
  simpl. rewrite Map_get_set. destruct (String.eqb k id); reflexivity.
Qed.

Lemma Map_new_from_NoDup entries : forall (m : Map V),
  NoDup (map fst m) ->
  NoDup (map fst (fold_left (fun m kv => Map_set m (fst kv) (snd kv)) entries m)).
Proof.
  induction entries as [|[k v] entries IH]; intros m H; simpl; [exact H|].
  apply IH, Map_set_NoDup, H.
Qed.

Lemma Map_new_from_In entries : forall (m : Map V) k v,
  In (k, v) (fold_left (fun m kv => Map_set m (fst kv) (snd kv)) entries m) ->
  In (k, v) entries \/ In (k, v) m.
Proof.
  induction entries as [|[k0 v0] entries IH]; intros m k v H; simpl in *; [auto|].
  destruct (IH _ _ _ H) as [Hin|Hin]; [auto|].
  destruct (Map_set_In _ _ _ _ _ Hin) as [[-> ->]|Hm]; auto.
Qed.

Lemma Map_new_from_distinct entries : forall (m : Map V),
  NoDup (map fst (m ++ entries)) ->
  fold_left (fun m kv => Map_set m (fst kv) (snd kv)) entries m = (m ++ entries)%list.
Proof.
  induction entries as [|[k v] entries IH]; intros m H; simpl.
  - rewrite app_nil_r. reflexivity.
  - assert (Hk : ~ In k (map fst m)).
    { rewrite map_app in H. simpl in H. apply NoDup_remove_2 in H.
      intros Hin. apply H. apply in_or_app. auto. }
    rewrite Map_set_absent by exact Hk.
    rewrite IH; rewrite <- app_assoc; [reflexivity|exact H].
Qed.

(** In a map without duplicate keys an entry is found under its key. *)
Lemma Map_get_In (m : Map V) k v :
  NoDup (map fst m) -> In (k, v) m -> Map_get m k = Some v.
Proof.
  induction m as [|[a b] m IH]; simpl; intros Hnd Hin; [contradiction|].
  inversion Hnd as [|? ? Ha Hnd']; subst.
  destruct Hin as [H|H].
  - injection H as -> ->. rewrite String.eqb_refl. reflexivity.
  - destruct (String.eqb_spec a k) as [->|_]; [|auto].
    exfalso. apply Ha. apply in_map_iff. exists (k, v). auto.
Qed.

End Maps.

(** ** The directory after a refresh *)

Section Directory.

Context {externals : Externals}.

(** X1. A refresh that upstream answers with a station list replaces the
    directory wholesale: afterwards an id resolves to the station listed
    last under it, or to nothing when the list has none - whatever the
    directory held before.  Keys are distinct, each station is stored under
    its own id, and a list with distinct ids is kept as it is, in its
    order. *)
Theorem refresh_replaces_the_directory :
  forall (list : list Station) (w : World),
    fst (fetchTideStations (Body (mkDirectory (Some list))) w) = Return tt
    /\ (forall id,
           Map_get (tideStations (reloaded list w)) id
           = find (fun station => String.eqb (stationId station) id) (rev list))
    /\ NoDup (map fst (tideStations (reloaded list w)))
    /\ (forall id station,
           In (id, station) (tideStations (reloaded list w)) ->
           id = stationId station /\ In station list)
    /\ (NoDup (map stationId list) ->
        Map_values (tideStations (reloaded list w)) = list)
    /\ fetched (reloaded list w) = FetchDirectory :: fetched w.
Proof.
  intros list w. unfold reloaded, fetchTideStations. run_M.
  cbv beta iota delta [fst snd stationList tideStations setTideStations fetched record].
  split; [reflexivity|]. unfold Map_new.
  split; [|split; [|split; [|split]]].
  - intros id. rewrite Map_new_from_get, <- map_rev, find_map. simpl.
    destruct (find _ (rev list)); reflexivity.
  - apply Map_new_from_NoDup. constructor.
  - intros id station H. apply Map_new_from_In in H as [H|[]].
    apply in_map_iff in H as (s & Hs & Hin). injection Hs as <- <-. auto.
  - intros Hnd. rewrite Map_new_from_distinct.
    + unfold Map_values. simpl. rewrite map_map. simpl. apply map_id.
    + simpl. rewrite map_map. exact Hnd.
  - reflexivity.
Qed.

End Directory.

(** ** Validation and resolution, without assumptions on the data *)

Section Resolution.

Context {externals : Externals}.

Lemma rangeCheck_passes lo hi x :
  isNaN x = true \/ inRange lo hi x = true ->
  ltb x (of_Z lo) || gtb x (of_Z hi) = false.
Proof.
  intros [H|H].
  - destruct x; try discriminate. unfold gtb, ltb.
    destruct (of_Z lo), (of_Z hi); reflexivity.
  - unfold inRange in H. apply andb_true_iff in H as [L1 L2].
    apply leb_not_gtb in L1, L2. unfold gtb, ltb in *. rewrite L1, L2. reflexivity.
Qed.

Lemma rangeCheck_fails lo hi x :
  ltb x (of_Z lo) || gtb x (of_Z hi) = false ->
  isNaN x = true \/ inRange lo hi x = true.
Proof.
  intros H. destruct (isNaN x) eqn:N; [auto|]. destruct (inRange lo hi x) eqn:R; [auto|].
  assert (O : outside lo hi x = true) by (unfold outside; rewrite N, R; reflexivity).
  apply outside_spec in O. congruence.
Qed.

(** X2. Validation accepts exactly the pairs whose coordinates are each
    [NaN] or within range.  The latitude is judged first: a latitude out
    of range is reported whatever the longitude, a longitude out of range
    only when the latitude passed. *)
Theorem validation_accepts_exactly :
  forall (lat lon : value),
    (validateLatitudeAndLongitude lat lon = Return tt <->
     (isNaN (parseFloat lat) = true \/ inRange (-90) 90 (parseFloat lat) = true)
     /\ (isNaN (parseFloat lon) = true \/ inRange (-180) 180 (parseFloat lon) = true))
    /\ (outside (-90) 90 (parseFloat lat) = true ->
        validateLatitudeAndLongitude lat lon
        = Throw (mkError RangeError "Invalid latitude" None))
    /\ (outside (-90) 90 (parseFloat lat) = false ->
        outside (-180) 180 (parseFloat lon) = true ->
        validateLatitudeAndLongitude lat lon
        = Throw (mkError RangeError "Invalid longitude" None)).
Proof.
  intros lat lon. unfold validateLatitudeAndLongitude. split; [|split].
  - split.
    + intros H.
      destruct (ltb (parseFloat lat) (of_Z (-90)) || gtb (parseFloat lat) (of_Z 90)) eqn:L;
        [discriminate|].
      destruct (ltb (parseFloat lon) (of_Z (-180)) || gtb (parseFloat lon) (of_Z 180)) eqn:N;
        [discriminate|].
      split; apply rangeCheck_fails; assumption.
    + intros [Hlat Hlon].
      rewrite (rangeCheck_passes _ _ _ Hlat), (rangeCheck_passes _ _ _ Hlon). reflexivity.
  - intros H. rewrite (outside_spec _ _ _ H). reflexivity.
  - intros Hlat Hlon. rewrite (outside_spec _ _ _ Hlon).
    rewrite rangeCheck_passes; [reflexivity|].
    unfold outside in Hlat. destruct (isNaN (parseFloat lat)); [auto|].
    destruct (inRange (-90) 90 (parseFloat lat)); [auto|discriminate].
Qed.

(** X3. [getStationsNear] never changes the process state.  Once the
    coordinates pass validation - [NaN] included - and for any limit that
    is not negative, it returns [min(limit, |directory|)] stations that
    are, together with the ones left out, a rearrangement of the annotated
    snapshot: no station is invented, lost or repeated, whatever the
    distances are. *)
Theorem getStationsNear_rearranges_the_snapshot :
  forall (lat lon : value) (limit : option Z) (w : World),
    let n := match limit with Some n => n | None => 10 end in
    validateLatitudeAndLongitude lat lon = Return tt ->
    0 <= n ->
    snd (getStationsNear lat lon limit w) = w
    /\ exists near others,
         fst (getStationsNear lat lon limit w) = Return near
         /\ List.length near = Nat.min (Z.to_nat n) (Map_size (tideStations w))
         /\ Permutation (near ++ others)
              (stationsWithDistances lat lon (tideStations w))
         /\ Forall (fun s =>
                      exists station,
                        In station (Map_values (tideStations w))
                        /\ s = withDistance station
                                 (calculateDistance (lat, lon)
                                    (station_lat station, station_lon station))) near.
Proof.
  intros lat lon limit w n Hv Hn.
  split; [apply getStationsNear_world|].
  rewrite getStationsNear_passes by exact Hv. fold n.
  rewrite slice_firstn by exact Hn.
  set (sorted := sort byDistance (stationsWithDistances lat lon (tideStations w))).
  assert (Hp : Permutation sorted (stationsWithDistances lat lon (tideStations w)))
    by apply sort_perm.
  exists (firstn (Z.to_nat n) sorted), (skipn (Z.to_nat n) sorted).
  split; [reflexivity|]. split; [|split].
  - rewrite length_firstn. unfold sorted. rewrite sort_length.
    unfold stationsWithDistances, Map_values, Map_size. rewrite !length_map. reflexivity.
  - rewrite firstn_skipn. exact Hp.
  - apply Forall_forall. intros s Hs.
    assert (Hin : In s (stationsWithDistances lat lon (tideStations w))).
    { apply (Permutation_in _ Hp). rewrite <- (firstn_skipn (Z.to_nat n) sorted).
      apply in_or_app. auto. }
    unfold stationsWithDistances in Hin.
    apply in_map_iff in Hin as (station & <- & Hin). eauto.
Qed.

End Resolution.

(** ** What serving a request does to the process *)

Section Effects.

Context {externals : Externals}.

Lemma candidates_length lat lon w :
  (List.length (candidates lat lon (Some 10%Z) w) <= 10)%nat.
Proof.
  unfold candidates.
  destruct (validateLatitudeAndLongitude (VString lat) (VString lon)) as [[]|e] eqn:E.
  - rewrite getStationsNear_passes by assumption. cbn [fst].
    rewrite slice_firstn by lia. rewrite length_firstn. apply Nat.le_min_l.
  - rewrite (getStationsNear_throws _ _ _ _ e) by assumption. simpl. lia.
Qed.

Lemma Forall_isPredictionFetch w days l :
  Forall isPredictionFetch (map (requestFor w days) l).
Proof. apply Forall_map, Forall_forall. intros s _. exact I. Qed.

Lemma callHandler_effect schedule route w :
  exists days stations,
    snd (callHandler schedule route w) = recordAll (map (requestFor w days) stations) w
    /\ (List.length stations <= 10)%nat.
Proof.
  destruct route as [stationId| |lat lon|lat lon]; simpl callHandler.
  - exists 7. eexists. split; [apply individualStationHandler_world|].
    destruct (Map_get (tideStations w) stationId); simpl; lia.
  - exists 2, []. split; [rewrite allStationsHandler_run; reflexivity|simpl; lia].
  - exists 7. eexists. split; [apply closestHandler_world|].
    rewrite length_firstn. lia.
  - exists 2. eexists. split; [apply nearHandler_world|]. apply candidates_length.
Qed.

(** X4. Serving a request does nothing to the process but issue
    prediction requests, at most ten of them: the directory, the clock and
    the requests recorded before stay as they were, whatever the request
    and however it ends. *)
Theorem a_request_only_issues_prediction_requests :
  forall (schedule : list nat) (req : Req) (res : Res) (w : World),
    exists requests,
      snd (exports schedule req res w) = recordAll requests w
      /\ Forall isPredictionFetch requests
      /\ (List.length requests <= 10)%nat
      /\ tideStations (snd (exports schedule req res w)) = tideStations w
      /\ today (snd (exports schedule req res w)) = today w
      /\ fetched (snd (exports schedule req res w)) = (rev requests ++ fetched w)%list.
Proof.
  intros schedule req res w.
  assert (Hnone : exists requests,
            w = recordAll requests w /\ Forall isPredictionFetch requests
            /\ (List.length requests <= 10)%nat).
  { exists []. repeat split; [constructor|simpl; lia]. }
  assert (H : exists requests,
            snd (exports schedule req res w) = recordAll requests w
            /\ Forall isPredictionFetch requests
            /\ (List.length requests <= 10)%nat).
  { destruct (exports_world schedule req res w) as [->|[route ->]]; [exact Hnone|].
    destruct (callHandler_effect schedule route w) as (days & stations & Hw & Hlen).
    exists (map (requestFor w days) stations).
    split; [exact Hw|split; [apply Forall_isPredictionFetch|rewrite length_map; exact Hlen]]. }
  destruct H as (requests & Hw & Hall & Hlen). exists requests.
  rewrite Hw. repeat split; try assumption.
  - apply tideStations_recordAll.
  - clear. revert w. induction requests as [|f fs IH]; intros w; [reflexivity|].
    unfold recordAll in *. simpl. rewrite IH. reflexivity.
  - apply fetched_recordAll.
Qed.

(** X5. findNear is all or nothing: when the fetch for one of the
    resolved stations fails, the handler fails for every order of
    completion, with the error of a station whose fetch failed - although
    the requests for all the resolved stations have been issued. *)
Theorem near_fails_when_one_fetch_fails :
  forall (schedule : list nat) (lat lon : string) (w : World) (near : list Station)
         (failing : Station) (e : JSError),
    fst (getStationsNear (VString lat) (VString lon) (Some 10) w) = Return near ->
    In failing near ->
    predictionsFor w None failing = Throw e ->
    (exists culprit e',
        fst (nearHandler schedule lat lon w) = Throw e'
        /\ In culprit near
        /\ predictionsFor w None culprit = Throw e')
    /\ issued w (snd (nearHandler schedule lat lon w)) = map (requestFor w 2) near.
Proof.
  intros schedule lat lon w near failing e Hnear Hin He. split.
  - rewrite (nearHandler_run _ _ _ _ _ Hnear).
    apply In_nth_error in Hin as [i Hi].
    destruct (settle_throw (map (predictionsFor w None) near)
                (completionOrder (List.length near) schedule) []) as (e' & Hs & Hfrom).
    { exists i, e. split.
      - apply In_completionOrder. apply nth_error_Some. congruence.
      - rewrite nth_error_map, Hi. simpl. congruence. }
    apply in_map_iff in Hfrom as (culprit & Hc & Hcin).
    exists culprit, e'. rewrite Hs. auto.
  - rewrite nearHandler_world, issued_recordAll. unfold candidates.
    rewrite Hnear. reflexivity.
Qed.

End Effects.

(** ** The closest station *)

Section Closest.

Context {externals : Externals}.

Lemma closestHandler_returns lat lon w payload :
  fst (closestHandler lat lon w) = Return payload ->
  exists x tail c,
    validateLatitudeAndLongitude (VString lat) (VString lon) = Return tt
    /\ sort byDistance (stationsWithDistances (VString lat) (VString lon) (tideStations w))
       = x :: tail
    /\ predictionsFor w (Some 7) x = Return c
    /\ payload = ClosestPayload (parseFloat (VString lat)) (parseFloat (VString lon)) c.
Proof.
  unfold closestHandler. run_M.
  destruct (validateLatitudeAndLongitude (VString lat) (VString lon)) as [[]|e] eqn:E.
  - rewrite getStationsNear_passes by assumption. rewrite slice_firstn by lia.
    destruct (sort byDistance _) as [|x tail] eqn:S.
    + simpl. discriminate.
    + change (Z.to_nat 10) with 10%nat. cbn [firstn nth_error].
      rewrite getStationPredictions_run.
      destruct (predictionsFor w (Some 7) x) as [c|e] eqn:P; simpl; intros H;
        [|discriminate].
      injection H as <-. exists x, tail, c. auto.
  - rewrite (getStationsNear_throws _ _ _ _ e) by assumption. simpl. discriminate.
Qed.

Lemma nearHandler_returns schedule lat lon w near payload :
  fst (getStationsNear (VString lat) (VString lon) (Some 10) w) = Return near ->
  fst (nearHandler schedule lat lon w) = Return payload ->
  exists results,
    payload = NearPayload (parseFloat (VString lat)) (parseFloat (VString lon)) results
    /\ Forall2 (fun candidate result => predictionsFor w None candidate = Return result)
         near results.
Proof.
  intros Hnear Hret.
  destruct (outcomes_cases (map (predictionsFor w None) near))
    as [[results Hmap]|(i & e & Hthrow)].
  - exists results.
    rewrite (nearHandler_all_return schedule lat lon w near results Hnear Hmap) in Hret.
    injection Hret as <-. split; [reflexivity|]. apply Forall2_map_Return. exact Hmap.
  - exfalso. rewrite (nearHandler_run _ _ _ _ _ Hnear) in Hret.
    destruct (settle_throw (map (predictionsFor w None) near)
                (completionOrder (List.length near) schedule) []) as (e' & He & _).
    { exists i, e. split; [|exact Hthrow]. apply In_completionOrder.
      rewrite <- (length_map (predictionsFor w None) near).
      apply nth_error_Some. congruence. }
    rewrite He in Hret. discriminate.
Qed.

(** X6. findClosest and findNear resolve the same stations: when both
    return for the same coordinates, the station of findClosest has the
    fields - distance included - of the first station of findNear. *)
Theorem closest_is_the_first_of_near :
  forall (schedule : list nat) (lat lon : string) (w : World) (closest near : Payload),
    fst (closestHandler lat lon w) = Return closest ->
    fst (nearHandler schedule lat lon w) = Return near ->
    exists station first rest,
      closest = ClosestPayload (parseFloat (VString lat)) (parseFloat (VString lon)) station
      /\ near = NearPayload (parseFloat (VString lat)) (parseFloat (VString lon))
                  (first :: rest)
      /\ station_fields first = station_fields station.
Proof.
  intros schedule lat lon w closest near Hc Hn.
  destruct (closestHandler_returns _ _ _ _ Hc) as (x & tail & c & Hv & Hs & Hp & ->).
  assert (Hnear : fst (getStationsNear (VString lat) (VString lon) (Some 10) w)
                  = Return (x :: firstn 9 tail)).
  { rewrite getStationsNear_passes by exact Hv. rewrite slice_firstn by lia.
    rewrite Hs. reflexivity. }
  destruct (nearHandler_returns _ _ _ _ _ _ Hnear Hn) as (results & -> & HF).
  inversion HF as [|? first ? rest Hfirst Hrest]; subst.
  exists c, first, rest. repeat split.
  apply predictionsFor_fields in Hfirst, Hp. congruence.
Qed.

Lemma find_filter {A : Type} (p : A -> bool) l : find p l = hd_error (filter p l).
Proof. induction l as [|x l IH]; simpl; [reflexivity|]. destruct (p x); auto. Qed.

Lemma find_ext_in {A : Type} (p q : A -> bool) l :
  (forall a, In a l -> p a = q a) -> find p l = find q l.
Proof.
  induction l as [|x l IH]; intros H; simpl; [reflexivity|].
  rewrite (H x) by (left; reflexivity). destruct (q x); [reflexivity|].
  apply IH. intros a Ha. apply H. right. exact Ha.
Qed.

(** X7. When every computed distance is a number, the station findClosest
    returns is a nearest one: no station of the directory lies at a
    smaller distance, and it is the copy of the first station of the
    snapshot that lies at its distance. *)
Theorem closest_is_a_nearest_station :
  forall (lat lon : string) (w : World) (payload : Payload),
    let snapshot :=
      stationsWithDistances (VString lat) (VString lon) (tideStations w) in
    Forall (fun s => isNumber (distanceOf s) = true) snapshot ->
    fst (closestHandler lat lon w) = Return payload ->
    exists station d first,
      payload = ClosestPayload (parseFloat (VString lat)) (parseFloat (VString lon)) station
      /\ f_distance (station_fields station) = Some d
      /\ (forall s, In s snapshot -> leb d (distanceOf s) = true)
      /\ find (fun s => eqb (distanceOf s) d) snapshot = Some first
      /\ formatTideStation first = Return (station_fields station).
Proof.
  intros lat lon w payload snapshot Hnum Hc.
  destruct (closestHandler_returns _ _ _ _ Hc) as (x & tail & c & Hv & Hs & Hp & ->).
  fold snapshot in Hs.
  set (ok := fun s : Station => isNumber (distanceOf s) = true) in *.
  set (key := fun s : Station => ord (distanceOf s)).
  assert (Hcons : forall a b, ok a -> ok b ->
            gtb (byDistance a b) zero = (key b <? key a)).
  { intros a b Ha Hb. apply byDistance_consistent; assumption. }
  assert (Hperm : Permutation (x :: tail) snapshot).
  { rewrite <- Hs. apply sort_perm. }
  assert (Hok : Forall ok (x :: tail)).
  { apply (Permutation_Forall (Permutation_sym Hperm)). exact Hnum. }
  assert (Hsorted : StronglySorted (keyLe key) (x :: tail)).
  { rewrite <- Hs. apply (sort_sorted byDistance key ok Hcons). exact Hnum. }
  assert (Hx : In x snapshot) by (apply (Permutation_in _ Hperm); left; reflexivity).
  assert (Hokx : ok x) by (inversion Hok; assumption).
  assert (Hd : station_distance x = Some (distanceOf x)).
  { unfold snapshot, stationsWithDistances in Hx.
    apply in_map_iff in Hx as (raw & <- & _). reflexivity. }
  exists c, (distanceOf x), x.
  split; [reflexivity|]. split.
  { rewrite (predictionsFor_distance _ _ _ _ Hp). exact Hd. }
  split.
  { intros s Hin. rewrite Forall_forall in Hnum.
    rewrite leb_ord by (auto; apply Hnum; exact Hin). apply Z.leb_le.
    apply (Permutation_in _ (Permutation_sym Hperm)) in Hin.
    destruct Hin as [<-|Hin]; [lia|].
    inversion Hsorted as [|? ? _ Hall]; subst. rewrite Forall_forall in Hall.
    apply (Hall s Hin). }
  split; [|apply (predictionsFor_fields _ _ _ _ Hp)].
  rewrite (find_ext_in _ (fun s => key s =? key x)).
  - rewrite find_filter.
    rewrite <- (sort_filter byDistance key ok Hcons (key x) snapshot Hnum), Hs.
    simpl. unfold key at 1 2. rewrite Z.eqb_refl. reflexivity.
  - intros s Hin. rewrite Forall_forall in Hnum.
    apply eqb_ord; [apply (Hnum s Hin)|exact Hokx].
Qed.

End Closest.

(** ** The directory over the life of the process *)

Section Invariant.

Context {externals : Externals}.

Lemma directoryOf_wellKeyed list : wellKeyed (directoryOf list).
Proof.
  unfold wellKeyed, directoryOf, Map_new. split.
  - apply Map_new_from_NoDup. constructor.
  - apply Forall_forall. intros [k v] H. apply Map_new_from_In in H as [H|[]].
    apply in_map_iff in H as (station & Hs & _). injection Hs as <- <-. reflexivity.
Qed.

Lemma fetchTideStations_wellKeyed reply w :
  wellKeyed (tideStations w) -> wellKeyed (tideStations (snd (fetchTideStations reply w))).
Proof.
  intros H. unfold fetchTideStations. run_M.
  destruct reply as [e|[[list|]]]; simpl; try exact H.
  apply directoryOf_wellKeyed.
Qed.

Lemma wellKeyed_get (m : Map Station) station :
  wellKeyed m -> In station (Map_values m) -> Map_get m (stationId station) = Some station.
Proof.
  intros [Hnd Hkeys] Hin. unfold Map_values in Hin.
  apply in_map_iff in Hin as ([k v] & Hv & Hin). simpl in Hv. subst v.
  rewrite Forall_forall in Hkeys. pose proof (Hkeys _ Hin) as Hk. simpl in Hk. subst k.
  apply Map_get_In; assumption.
Qed.

(** X8. The directory stays keyed by station ids: through any sequence of
    refreshes - answered, rejected or malformed - and requests, its keys
    remain distinct and every station remains stored under its own id. *)
Theorem the_directory_stays_keyed_by_station_ids :
  forall (events : list Event) (w : World),
    wellKeyed (tideStations w) ->
    wellKeyed (tideStations (snd (run events w))).
Proof.
  induction events as [|event events IH]; intros w H; [exact H|].
  simpl. destruct (step event w) as [out w1] eqn:Hstep.
  specialize (IH w1). destruct (run events w1) as [outs w2]. simpl in *.
  apply IH. destruct event as [reply|schedule req]; simpl in Hstep.
  - injection Hstep as _ <-. apply fetchTideStations_wellKeyed, H.
  - pose proof (exports_tideStations schedule req emptyRes w) as E.
    destruct (exports schedule req emptyRes w) as [[ret res] w'].
    injection Hstep as _ <-. simpl in E. rewrite E. exact H.
Qed.

Lemma formatTideStation_withDistance station d :
  formatTideStation (withDistance station d)
  = mapCompletion (setDistance (Some d)) (formatTideStation station).
Proof.
  unfold formatTideStation. cbn [withDistance station_lat station_lon].
  destruct (geoTz _ _); reflexivity.
Qed.

Lemma predictionsFor_withDistance w days station d :
  predictionsFor w days (withDistance station d) =
  match predictionsFor w days station with
  | Return r =>
      Return {| station_fields := setDistance (Some d) (station_fields r);
                station_predictions := station_predictions r |}
  | Throw e => Throw e
  end.
Proof.
  unfold predictionsFor, getStationPredictions, fetchPredictionsForTideStation.
  run_M. rewrite formatTideStation_withDistance.
  change (fun prediction => formatTidePrediction prediction (withDistance station d))
    with (fun prediction => formatTidePrediction prediction station).
  change (predictionsParams (withDistance station d))
    with (predictionsParams station).
  formatting_cases; reflexivity.
Qed.

(** X9. The station findClosest returns resolves by its id: in a directory
    keyed by station ids, getById on the id of the closest station returns
    the same station - the same fields but for the distance, which getById
    takes from the directory - with the same predictions, upstream
    answering the same request alike, and issues the very request
    findClosest issued. *)
Theorem closest_station_resolves_by_its_id :
  forall (lat lon : string) (w : World) (payload : Payload),
    wellKeyed (tideStations w) ->
    fst (closestHandler lat lon w) = Return payload ->
    exists closest found,
      payload = ClosestPayload (parseFloat (VString lat)) (parseFloat (VString lon)) closest
      /\ fst (individualStationHandler (f_id (station_fields closest)) w)
         = Return (StationPayload found)
      /\ setDistance None (station_fields found) = setDistance None (station_fields closest)
      /\ station_predictions found = station_predictions closest
      /\ issued w (snd (individualStationHandler (f_id (station_fields closest)) w))
         = issued w (snd (closestHandler lat lon w)).
Proof.
  intros lat lon w payload Hkeys Hc.
  pose proof (closestHandler_world lat lon w) as Hcw.
  destruct (closestHandler_returns _ _ _ _ Hc) as (x & tail & c & Hv & Hs & Hp & ->).
  assert (Hx : In x (stationsWithDistances (VString lat) (VString lon) (tideStations w))).
  { apply (Permutation_in x (sort_perm byDistance _)). rewrite Hs. left. reflexivity. }
  unfold stationsWithDistances in Hx. apply in_map_iff in Hx as (raw & <- & Hraw).
  set (d := calculateDistance _ _) in *.
  rewrite predictionsFor_withDistance in Hp.
  destruct (predictionsFor w (Some 7) raw) as [r|e] eqn:Hr; [|discriminate].
  injection Hp as <-. cbn [station_fields station_predictions].
  assert (Hid : f_id (setDistance (Some d) (station_fields r)) = stationId raw).
  { pose proof (predictionsFor_fields _ _ _ _ Hr) as Hf. unfold formatTideStation in Hf.
    destruct (geoTz _ _); [|discriminate]. injection Hf as <-. reflexivity. }
  exists {| station_fields := setDistance (Some d) (station_fields r);
            station_predictions := station_predictions r |}, r.
  cbn [station_fields station_predictions]. rewrite Hid.
  split; [reflexivity|].
  assert (Hget : Map_get (tideStations w) (stationId raw) = Some raw)
    by (apply wellKeyed_get; assumption).
  split; [|split; [reflexivity|split; [reflexivity|]]].
  - unfold individualStationHandler. run_M. rewrite Hget.
    rewrite getStationPredictions_run. fold (predictionsFor w (Some 7) raw).
    rewrite Hr. reflexivity.
  - rewrite individualStationHandler_world, Hget, Hcw, !issued_recordAll.
    unfold candidates. rewrite getStationsNear_passes by exact Hv.
    rewrite slice_firstn by lia. rewrite Hs. reflexivity.
Qed.

End Invariant.

(** ** The routes *)

Section Routes.

Lemma span_spec p s : forall a b,
  span p s = (a, b) ->
  s = (a ++ b)%string
  /\ span p a = (a, EmptyString)
  /\ match b with String c _ => p c = false | EmptyString => True end.
Proof.
  induction s as [|c s IH]; simpl; intros a b H.
  - injection H as <- <-. auto.
  - destruct (p c) eqn:Hc.
    + destruct (span p s) as [a' b'] eqn:Hs. injection H as <- <-.
      destruct (IH _ _ eq_refl) as (-> & Ha & Hb). simpl. rewrite Hc, Ha. auto.
    + injection H as <- <-. simpl. auto.
Qed.

Lemma span_app p a b :
  span p a = (a, EmptyString) ->
  match b with String c _ => p c = false | EmptyString => True end ->
  span p (a ++ b) = (a, b).
Proof.
  intros Ha Hb. induction a as [|c a IH]; simpl in *.
  - destruct b as [|c b]; [reflexivity|]. simpl. rewrite Hb. reflexivity.
  - destruct (p c); [|discriminate].
    destruct (span p a) as [a' b'] eqn:Hs. injection Ha as -> ->.
    rewrite IH by reflexivity. reflexivity.
Qed.

Lemma append_empty s : (s ++ EmptyString)%string = s.
Proof. induction s as [|c s IH]; simpl; [reflexivity|]. rewrite IH. reflexivity. Qed.

Lemma allOf_spec p s :
  allOf p s = true <-> span p s = (s, EmptyString) /\ s <> EmptyString.
Proof.
  unfold allOf. split.
  - destruct (span p s) as [a b] eqn:Hs. destruct a as [|c a]; [discriminate|].
    destruct b; [|discriminate]. intros _.
    destruct (span_spec _ _ _ _ Hs) as (-> & _ & _).
    rewrite append_empty. split; [reflexivity|discriminate].
  - intros [-> Hne]. destruct s; [contradiction|reflexivity].
Qed.

Lemma startsWith_prefix p s : startsWith p (p ++ s) = true.
Proof. induction p as [|a p IH]; simpl; [reflexivity|]. rewrite Ascii.eqb_refl. exact IH. Qed.

Lemma drop_app p s : drop (String.length p) (p ++ s) = s.
Proof. induction p as [|a p IH]; simpl; [reflexivity|exact IH]. Qed.

Lemma matchCoordinates_spec prefix url lat lon :
  matchCoordinates prefix url = Some (lat, lon) <->
  url = (prefix ++ lat ++ "," ++ lon)%string
  /\ allOf isCoordinateChar lat = true /\ allOf isCoordinateChar lon = true.
Proof.
  unfold matchCoordinates. split.
  - destruct (startsWith prefix url) eqn:Hp; [|discriminate].
    apply startsWith_app in Hp.
    destruct (span isCoordinateChar (drop (String.length prefix) url)) as [a b] eqn:Hs.
    destruct a as [|c first]; [discriminate|].
    destruct b as [|comma second]; [discriminate|].
    destruct comma as [[] [] [] [] [] [] [] []]; try discriminate.
    destruct (allOf isCoordinateChar second) eqn:Hsecond; [|discriminate].
    intros H. injection H as <- <-.
    destruct (span_spec _ _ _ _ Hs) as (Hrest & Hfirst & _).
    split; [rewrite Hp at 1; rewrite Hrest; reflexivity|].
    split; [|exact Hsecond]. apply allOf_spec. split; [exact Hfirst|discriminate].
  - intros (-> & Hlat & Hlon). rewrite startsWith_prefix, drop_app.
    apply allOf_spec in Hlat as [Hlat Hne].
    rewrite (span_app _ lat ("," ++ lon) Hlat) by reflexivity.
    destruct lat as [|c first]; [contradiction|]. simpl. rewrite Hlon. reflexivity.
Qed.

Lemma matchStation_spec url id :
  matchStation url = Some id <->
  url = String "/" id /\ allOf isDigit id = true.
Proof.
  unfold matchStation. split.
  - destruct url as [|c digits]; [discriminate|].
    destruct c as [[] [] [] [] [] [] [] []]; try discriminate.
    destruct (allOf isDigit digits) eqn:H; [|discriminate].
    intros E. injection E as <-. auto.
  - intros [-> H]. rewrite H. reflexivity.
Qed.

Lemma matchStation_letter c rest :
  isDigit c = false -> matchStation (String "/" (String c rest)) = None.
Proof. intros H. unfold matchStation, allOf. simpl. rewrite H. reflexivity. Qed.

(** X10. The four routes are exactly these, and no path matches two of
    them: [/] followed by one or more digits is a station, [/all] the
    directory, [/closest/] and [/near/] followed by two non-empty runs of
    digits, dots and hyphens around one comma are the coordinate routes,
    and the groups captured are those runs, unchanged.  Every other path
    matches nothing. *)
Theorem the_routes_are_exactly_these :
  forall (url : string) (route : Matched),
    matchRoute url = Some route <->
    match route with
    | IndividualStation stationId =>
        url = ("/" ++ stationId)%string /\ allOf isDigit stationId = true
    | AllStations => url = "/all"
    | Closest lat lon =>
        url = ("/closest/" ++ lat ++ "," ++ lon)%string
        /\ allOf isCoordinateChar lat = true /\ allOf isCoordinateChar lon = true
    | Near lat lon =>
        url = ("/near/" ++ lat ++ "," ++ lon)%string
        /\ allOf isCoordinateChar lat = true /\ allOf isCoordinateChar lon = true
    end.
Proof.
  intros url route. unfold matchRoute. split.
  - destruct (matchStation url) as [id|] eqn:Hs.
    { intros H. injection H as <-. apply matchStation_spec in Hs. exact Hs. }
    destruct (String.eqb_spec url "/all") as [->|Hall].
    { intros H. injection H as <-. reflexivity. }
    destruct (matchCoordinates "/closest/" url) as [[lat lon]|] eqn:Hc.
    { intros H. injection H as <-. apply matchCoordinates_spec in Hc. exact Hc. }
    destruct (matchCoordinates "/near/" url) as [[lat lon]|] eqn:Hn; [|discriminate].
    intros H. injection H as <-. apply matchCoordinates_spec in Hn. exact Hn.
  - destruct route as [id| |lat lon|lat lon].
    + intros H. apply matchStation_spec in H. rewrite H. reflexivity.
    + intros ->. reflexivity.
    + intros H. pose proof H as (-> & _ & _). apply matchCoordinates_spec in H.
      change ("/closest/" ++ lat ++ "," ++ lon)%string
        with (String "/" (String "c" ("losest/" ++ lat ++ "," ++ lon)%string)) at 1 2.
      rewrite matchStation_letter by reflexivity.
      cbn [String.eqb Ascii.eqb Bool.eqb]. rewrite H. reflexivity.
    + intros H. pose proof H as (-> & _ & _). apply matchCoordinates_spec in H.
      change ("/near/" ++ lat ++ "," ++ lon)%string
        with (String "/" (String "n" ("ear/" ++ lat ++ "," ++ lon)%string)) at 1 2 3.
      rewrite matchStation_letter by reflexivity.
      cbn [String.eqb Ascii.eqb Bool.eqb].
      change (matchCoordinates "/closest/"
                (String "/" (String "n" ("ear/" ++ lat ++ "," ++ lon)%string)))
        with (@None (string * string)).
      cbv iota.
      change (String "/" (String "n" ("ear/" ++ lat ++ "," ++ lon)%string))
        with ("/near/" ++ lat ++ "," ++ lon)%string.
      rewrite H. reflexivity.
Qed.

End Routes.

(** ** The dispatcher *)

Section Dispatcher.

Context {externals : Externals}.

(** X11. What the dispatcher sends, and how it ends.  On a response on
    which nothing has been sent, a request leads to at most one [send],
    with status 200 or 404 - a rejected coordinate or a failed upstream
    fetch is reported as 404 like an unknown path.  A 200 carries what the
    matched handler returned for a GET, and the function then returns.  A
    handler failure is sent as 404 with the message of its error, and the
    function then rejects: its last [send] finds the response sent.  The
    only other error it throws is its own 405, and then it has touched
    neither the response nor the process.  Unless it throws the 405, the
    two common headers are set before any other. *)
Theorem a_request_is_answered_200_or_404 :
  forall (schedule : list nat) (req : Req) (set : list (string * HeaderValue))
         (w : World),
    let res := {| headers := set; sent := [] |} in
    let '(outcome, res', w') := exports schedule req res w in
    (List.length (sent res') <= 1)%nat
    /\ Forall (fun s => fst s = 200 \/ fst s = 404) (sent res')
    /\ (forall data, In (200, Data data) (sent res') ->
          outcome = Return None
          /\ method req = "GET"
          /\ exists route, matchRoute (url req) = Some route
               /\ fst (callHandler schedule route w) = Return data)
    /\ (forall route e,
          method req = "GET" -> matchRoute (url req) = Some route ->
          fst (callHandler schedule route w) = Throw e ->
          sent res' = [(404, Message (message e))] /\ outcome = Throw headersSent)
    /\ (forall e,
          outcome = Throw e ->
          (e = mkError Error "Method Not Allowed" (Some 405)
           /\ res' = res /\ w' = w
           /\ method req <> "GET" /\ method req <> "OPTIONS")
          \/ (e = headersSent
              /\ method req = "GET"
              /\ exists route err,
                   matchRoute (url req) = Some route
                   /\ fst (callHandler schedule route w) = Throw err
                   /\ sent res' = [(404, Message (message err))]))
    /\ (outcome = Throw (mkError Error "Method Not Allowed" (Some 405))
        \/ exists others,
             headers res'
             = (set
                ++ [("Access-Control-Allow-Origin", Text "*");
                    ("Content-Type", Text "application/json")]
                ++ others)%list).
Proof.
  intros schedule req set w res. subst res.
  assert (Hcodes : forall code body,
            Forall (fun s : Z * ResponseBody => fst s = 200 \/ fst s = 404) [(code, body)]
            <-> code = 200 \/ code = 404).
  { intros code body. split; [intros H; inversion H; assumption|].
    intros H. constructor; [exact H|constructor]. }
  unfold exports, andThen, setHeader. cbn [sent headers].
  destruct (String.eqb_spec (method req) "GET") as [Hget|Hget];
    destruct (String.eqb_spec (method req) "OPTIONS") as [Hopt|Hopt];
    cbn [negb andb]; try (exfalso; congruence).
  - (* GET *)
    destruct (matchRoute (url req)) as [route|] eqn:Hroute.
    + destruct (callHandler schedule route w) as [[data|e] w'] eqn:Hcall;
        unfold respond, sendNotFound, send, setCacheHeaders, andThen, setHeader;
        cbn [sent headers].
      * split; [simpl; lia|]. split; [apply Hcodes; auto|].
        split; [|split; [|split]].
        -- intros data' [H|[]]. injection H as <-. split; [reflexivity|].
           split; [exact Hget|]. exists route. rewrite Hcall. auto.
        -- intros route' e' _ Hr' Hthrow. injection Hr' as <-.
           rewrite Hcall in Hthrow. discriminate.
        -- intros e' H. discriminate.
        -- right. eexists. rewrite <- !app_assoc. reflexivity.
      * split; [simpl; lia|]. split; [apply Hcodes; auto|].
        split; [|split; [|split]].
        -- intros data' [H|[]]. discriminate.
        -- intros route' e' _ Hr' Hthrow. injection Hr' as <-.
           rewrite Hcall in Hthrow. injection Hthrow as <-. split; reflexivity.
        -- intros e' H. injection H as <-. right. split; [reflexivity|].
           split; [exact Hget|]. exists route, e. rewrite Hcall. auto.
        -- right. exists []. rewrite <- !app_assoc. reflexivity.
    + unfold sendNotFound, send; cbn [sent headers].
      split; [simpl; lia|]. split; [apply Hcodes; auto|].
      split; [|split; [|split]].
      * intros data' [H|[]]. discriminate.
      * intros route' e' _ Hr'. discriminate.
      * intros e' H. discriminate.
      * right. exists []. rewrite <- !app_assoc. reflexivity.
  - (* OPTIONS *)
    destruct (matchRoute (url req)) as [route|] eqn:Hroute.
    + unfold setAccessControlHeaders, andThen, setHeader; cbn [sent headers].
      split; [simpl; lia|]. split; [constructor|].
      split; [|split; [|split]].
      * intros data' [].
      * intros route' e' Hm. congruence.
      * intros e' H. discriminate.
      * right. eexists. rewrite <- !app_assoc. reflexivity.
    + unfold sendNotFound, send; cbn [sent headers].
      split; [simpl; lia|]. split; [apply Hcodes; auto|].
      split; [|split; [|split]].
      * intros data' [H|[]]. discriminate.
      * intros route' e' Hm. congruence.
      * intros e' H. discriminate.
      * right. exists []. rewrite <- !app_assoc. reflexivity.
  - (* any other method *)
    split; [simpl; lia|]. split; [constructor|].
    split; [|split; [|split]].
    + intros data' [].
    + intros route' e' Hm. congruence.
    + intros e' H. injection H as <-. left. auto.
    + left. reflexivity.
Qed.

(** X12. A preflight request calls no handler: an OPTIONS request leaves
    the process as it was and sends nothing on a path that matches a
    route - it returns the empty body with the three access-control
    headers after the two common ones - while on any other path it is
    answered 404 [Not Found] without them.  That is on a response that
    has not been sent; on one that has, the first [setHeader] throws and
    the response stays as it was. *)
Theorem a_preflight_calls_no_handler :
  forall (schedule : list nat) (req : Req) (res : Res) (w : World),
    method req = "OPTIONS" ->
    let common :=
      [("Access-Control-Allow-Origin", Text "*");
       ("Content-Type", Text "application/json")] in
    snd (exports schedule req res w) = w
    /\ (sent res = [] ->
        (forall route,
            matchRoute (url req) = Some route ->
            fst (exports schedule req res w)
            = (Return (Some EmptyString),
               {| headers :=
                    (headers res ++ common
                     ++ [("Access-Control-Allow-Methods", Text "GET, OPTIONS");
                         ("Access-Control-Allow-Headers",
                          Text "X-Requested-With, Content-Type, Accept");
                         ("Access-Control-Allow-Max-Age", Seconds 86400)])%list;
                  sent := sent res |}))
        /\ (matchRoute (url req) = None ->
            fst (exports schedule req res w)
            = (Return None,
               {| headers := (headers res ++ common)%list;
                  sent := (sent res ++ [(404, Message "Not Found")])%list |})))
    /\ (sent res <> [] ->
        fst (exports schedule req res w) = (Throw headersSent, res)).
Proof.
  intros schedule req res w Hm common. unfold exports. rewrite Hm.
  cbn [String.eqb Ascii.eqb Bool.eqb negb andb].
  unfold setAccessControlHeaders, sendNotFound, send, andThen, setHeader.
  destruct (sent res) as [|first rest] eqn:Hsent; cbn [headers sent].
  - destruct (matchRoute (url req)) as [route|];
      (split; [reflexivity|]); (split; [|congruence]); intros _; split;
      try discriminate; intros; cbn [fst app]; rewrite <- ?app_assoc; reflexivity.
  - split; [reflexivity|]. split; [discriminate|]. intros _. reflexivity.
Qed.

End Dispatcher.

(** ** Requests served one after the other *)

Section Independence.

Context {externals : Externals}.

Lemma predictionsFor_frame w1 w2 days station :
  sameSurroundings w1 w2 ->
  predictionsFor w1 days station = predictionsFor w2 days station.
Proof.
  intros (_ & Ht & He).
  unfold predictionsFor, getStationPredictions, fetchPredictionsForTideStation.
  run_M. rewrite Ht, He.
  formatting_cases; reflexivity.
Qed.

Lemma callHandler_frame schedule route w1 w2 :
  sameSurroundings w1 w2 ->
  fst (callHandler schedule route w1) = fst (callHandler schedule route w2).
Proof.
  intros H. pose proof H as (Hd & _ & _).
  destruct route as [stationId| |lat lon|lat lon]; simpl callHandler.
  - unfold individualStationHandler. run_M. rewrite Hd.
    destruct (Map_get (tideStations w2) stationId) as [station|]; [|reflexivity].
    rewrite !getStationPredictions_run, (predictionsFor_frame w1 w2) by exact H.
    destruct (predictionsFor w2 (Some 7) station); reflexivity.
  - rewrite !allStationsHandler_run, Hd. reflexivity.
  - destruct (validateLatitudeAndLongitude (VString lat) (VString lon)) as [[]|e] eqn:E.
    + unfold closestHandler. run_M. rewrite !getStationsNear_passes by exact E.
      rewrite Hd. cbn [fst snd].
      destruct (nth_error _ 0) as [closest|]; [|reflexivity].
      rewrite !getStationPredictions_run, (predictionsFor_frame w1 w2) by exact H.
      destruct (predictionsFor w2 (Some 7) closest); reflexivity.
    + rewrite !(closestHandler_rejected _ _ _ e) by exact E. reflexivity.
  - destruct (validateLatitudeAndLongitude (VString lat) (VString lon)) as [[]|e] eqn:E.
    + pose proof (getStationsNear_passes _ _ (Some 10) w1 E) as H1.
      pose proof (getStationsNear_passes _ _ (Some 10) w2 E) as H2.
      rewrite Hd in H1. apply (f_equal fst) in H1, H2. cbn [fst] in H1, H2.
      rewrite (nearHandler_run _ _ _ _ _ H1), (nearHandler_run _ _ _ _ _ H2).
      rewrite (map_ext _ _ (fun station => predictionsFor_frame w1 w2 None station H)).
      reflexivity.
    + rewrite !(nearHandler_rejected _ _ _ _ e) by exact E. reflexivity.
Qed.

Lemma exports_frame schedule req res w1 w2 :
  sameSurroundings w1 w2 ->
  fst (exports schedule req res w1) = fst (exports schedule req res w2).
Proof.
  intros H. unfold exports.
  destruct (negb (method req =? "GET")%string && negb (method req =? "OPTIONS")%string);
    [reflexivity|].
  destruct (andThen _ _) as [res1|e]; [|reflexivity].
  destruct (matchRoute (url req)) as [route|].
  - destruct (method req =? "OPTIONS")%string;
      [destruct (setAccessControlHeaders res1); reflexivity|].
    pose proof (callHandler_frame schedule route w1 w2 H) as Hc.
    destruct (callHandler schedule route w1) as [c1 w1'],
             (callHandler schedule route w2) as [c2 w2'].
    simpl in Hc. subst c2. destruct (respond c1 _); reflexivity.
  - destruct (sendNotFound _); reflexivity.
Qed.

Lemma sameSurroundings_recordAll fs : forall w, sameSurroundings (recordAll fs w) w.
Proof.
  induction fs as [|f fs IH]; intros w; [repeat split|].
  unfold recordAll in *. simpl. destruct (IH (record f w)) as (H1 & H2 & H3).
  repeat split; assumption.
Qed.

Lemma exports_surroundings schedule req res w :
  sameSurroundings (snd (exports schedule req res w)) w.
Proof.
  assert (Hsame : sameSurroundings w w) by (repeat split).
  destruct (exports_world schedule req res w) as [->|[route ->]]; [exact Hsame|].
  destruct (callHandler_effect schedule route w) as (days & stations & -> & _).
  apply sameSurroundings_recordAll.
Qed.

Lemma run_incoming_surroundings requests : forall w,
  sameSurroundings (snd (run (incoming requests) w)) w.
Proof.
  induction requests as [|[schedule req] requests IH]; intros w; [repeat split|].
  simpl. pose proof (exports_surroundings schedule req emptyRes w) as Hstep.
  destruct (exports schedule req emptyRes w) as [[ret res] w1].
  specialize (IH w1). destruct (run (incoming requests) w1) as [outs w2].
  simpl in *. destruct IH as (A1 & A2 & A3), Hstep as (B1 & B2 & B3).
  repeat split; congruence.
Qed.

(** X13. Requests do not interfere: what a request returns and what it
    does to its response are the same after any run of earlier requests as
    before them - the service keeps nothing from one request to the next,
    and only a refresh, the clock or upstream can change an answer. *)
Theorem requests_do_not_interfere :
  forall (earlier : list (list nat * Req)) (schedule : list nat) (req : Req)
         (res : Res) (w : World),
    fst (exports schedule req res (snd (run (incoming earlier) w)))
    = fst (exports schedule req res w).
Proof.
  intros earlier schedule req res w.
  apply exports_frame, run_incoming_surroundings.
Qed.

End Independence.

(** ** Predictions, cache headers and the listing *)

Section Formatting.

Context {externals : Externals}.

(** X14. A station returned with predictions carries one prediction per
    point of the upstream reply, in the reply's order, and each is
    rendered in the time zone reported for the station: the zone is looked
    up from the same parsed coordinates for the station and for every
    prediction.  A point is a high tide exactly when upstream marks it
    [H]. *)
Theorem predictions_share_the_station_time_zone :
  forall (w : World) (days : option Z) (station : Station) (r : StationWithPredictions),
    predictionsFor w days station = Return r ->
    exists raw,
      predictionsEndpoint w
        (predictionsParams station (match days with Some d => d | None => 2 end) (today w))
      = Body (mkTides (Some raw))
      /\ f_id (station_fields r) = stationId station
      /\ geoTz (f_lat (station_fields r)) (f_lon (station_fields r))
         = Return (timeZone (station_fields r))
      /\ Forall2
           (fun point prediction =>
              time prediction
              = momentTzFormat (raw_t point) (timeZone (station_fields r))
              /\ unixTime prediction
                 = momentTzUnix (raw_t point) (timeZone (station_fields r))
              /\ height prediction = parseFloat (raw_v point)
              /\ (prediction_type prediction = high <-> raw_type point = "H"))
           raw (station_predictions r).
Proof.
  intros w days station r.
  unfold predictionsFor, getStationPredictions, fetchPredictionsForTideStation.
  run_M. unfold formatTideStation.
  destruct (predictionsEndpoint w _) as [e|[[raw|]]]; cbn [predictions fst snd];
    destruct (geoTz (parseFloat (station_lat station)) (parseFloat (station_lon station)))
      as [tz|e'] eqn:Htz; cbn [fst snd]; try discriminate.
  destruct (arrayMap _ raw) as [formatted|e'] eqn:Hmap; cbn [fst]; [|discriminate].
  intros H. injection H as <-. exists raw. cbn [station_fields station_predictions
    f_id f_lat f_lon timeZone].
  split; [reflexivity|]. split; [reflexivity|]. split; [exact Htz|].
  apply arrayMap_Return in Hmap.
  induction Hmap as [|point prediction raw formatted Hpoint _ IH]; constructor;
    [|exact IH].
  unfold formatTidePrediction in Hpoint. rewrite Htz in Hpoint.
  injection Hpoint as <-. cbn [time unixTime height prediction_type].
  repeat split.
  - destruct (String.eqb_spec (raw_type point) "H"); [auto|discriminate].
  - intros ->. reflexivity.
Qed.

(** X15. Cache headers go with a 200 and with nothing else.  On a fresh
    response, either the client receives 200 with a payload, and then the
    response carries the [ETag] of that very payload, [max-age] 3600 and
    an expiry one hour ahead; or it receives no 200, and then no [ETag],
    [Cache-Control] or [Expires] header has been set at all: failures are
    never marked cacheable. *)
Theorem cache_headers_go_with_a_200_only :
  forall (schedule : list nat) (req : Req) (w : World),
    let res := snd (fst (exports schedule req emptyRes w)) in
    (exists data,
        received res = Some (200, Data data)
        /\ In ("ETag", ETagOf data) (headers res)
        /\ In ("Cache-Control", PublicMaxAge 3600) (headers res)
        /\ In ("Expires", ExpiresAfterHours 1) (headers res))
    \/ ((forall body, received res <> Some (200, body))
        /\ forall name value,
             In (name, value) (headers res) ->
             name <> "ETag" /\ name <> "Cache-Control" /\ name <> "Expires").
Proof.
  intros schedule req w.
  assert (Hplain : forall name value,
            In (name, value)
              [("Access-Control-Allow-Origin", Text "*");
               ("Content-Type", Text "application/json")] ->
            name <> "ETag" /\ name <> "Cache-Control" /\ name <> "Expires").
  { intros name value H.
    destruct H as [H|[H|[]]]; injection H as <- <-; repeat split; discriminate. }
  unfold exports, andThen, setHeader. cbn [sent headers emptyRes app].
  destruct (negb (method req =? "GET")%string && negb (method req =? "OPTIONS")%string).
  { right. split; [intros body; discriminate|intros name value []]. }
  destruct (matchRoute (url req)) as [route|].
  - destruct (method req =? "OPTIONS")%string.
    + right. split; [intros body; discriminate|].
      intros name value H. simpl in H.
      destruct H as [H|[H|[H|[H|[H|[]]]]]]; injection H as <- <-;
        repeat split; discriminate.
    + destruct (callHandler schedule route w) as [[data|e] w'].
      * left. exists data. simpl. split; [reflexivity|]. tauto.
      * right. split; [intros body; discriminate|exact Hplain].
  - right. split; [intros body; discriminate|exact Hplain].
Qed.

Lemma Map_get_key {V : Type} (m : Map V) k v :
  Map_get m k = Some v -> In (k, v) m.
Proof.
  induction m as [|[a b] m IH]; simpl; [discriminate|].
  destruct (String.eqb_spec a k) as [->|_]; [|auto].
  intros H. injection H as ->. auto.
Qed.

Lemma arrayMap_Throw {A B : Type} (f : A -> Completion B) l e :
  arrayMap f l = Throw e -> exists a, In a l /\ f a = Throw e.
Proof.
  induction l as [|a l IH]; simpl; [discriminate|].
  destruct (f a) as [y|e'] eqn:Ha.
  - destruct (arrayMap f l) as [ys|e'']; [discriminate|].
    intros H. injection H as ->. destruct (IH eq_refl) as (a' & Hin & Ha'). eauto.
  - intros H. injection H as ->. eauto.
Qed.

Lemma Forall2_In_right {A B : Type} (R : A -> B -> Prop) l ys y :
  Forall2 R l ys -> In y ys -> exists a, In a l /\ R a y.
Proof.
  induction 1 as [|a y' l ys Hay _ IH]; intros Hin; [contradiction|].
  destruct Hin as [<-|Hin].
  - exists a. split; [left; reflexivity|exact Hay].
  - destruct (IH Hin) as (a' & Ha' & HR). exists a'. split; [right; exact Ha'|exact HR].
Qed.

Lemma formatTideStation_id station entry :
  formatTideStation station = Return entry -> f_id entry = stationId station.
Proof.
  unfold formatTideStation. destruct (geoTz _ _); [|discriminate].
  intros H. injection H as <-. reflexivity.
Qed.

(** X16. The listing after a refresh.  Once a refresh has been answered
    with a station list, listAll issues no request and leaves the process
    as it is.  It returns when every station of the list can be
    formatted, and when it fails it fails with the error of formatting a
    station of the list.  Whenever it returns, it lists one formatted
    entry per distinct id of the list: no id appears twice, every entry
    formats a station of the list, every station of the list has its id
    listed, and a list with distinct ids is listed entry for entry in its
    order. *)
Theorem the_listing_follows_the_refresh :
  forall (list : list Station) (w : World),
    snd (allStationsHandler (reloaded list w)) = reloaded list w
    /\ (Forall (fun station => exists entry, formatTideStation station = Return entry)
          list ->
        exists stations,
          fst (allStationsHandler (reloaded list w)) = Return (AllPayload stations))
    /\ (forall e,
          fst (allStationsHandler (reloaded list w)) = Throw e ->
          exists station, In station list /\ formatTideStation station = Throw e)
    /\ (forall payload,
          fst (allStationsHandler (reloaded list w)) = Return payload ->
          exists stations,
            payload = AllPayload stations
            /\ NoDup (map f_id stations)
            /\ (forall entry, In entry stations ->
                  exists station,
                    In station list /\ formatTideStation station = Return entry)
            /\ (forall station, In station list ->
                  In (stationId station) (map f_id stations))
            /\ (NoDup (map stationId list) ->
                Forall2 (fun station entry => formatTideStation station = Return entry)
                  list stations)).
Proof.
  intros list w. rewrite allStationsHandler_run. cbn [fst snd].
  assert (Hdir : tideStations (reloaded list w) = directoryOf list) by reflexivity.
  rewrite Hdir.
  destruct (directoryOf_wellKeyed list) as [Hnd Hkeys]. rewrite Forall_forall in Hkeys.
  assert (Hfrom : forall station, In station (Map_values (directoryOf list)) ->
            In station list).
  { intros station Hin. unfold Map_values in Hin.
    apply in_map_iff in Hin as ([k v] & <- & Hin).
    unfold directoryOf, Map_new in Hin. apply Map_new_from_In in Hin as [Hin|[]].
    apply in_map_iff in Hin as (s0 & Hs0 & Hin). injection Hs0 as _ <-. exact Hin. }
  split; [reflexivity|]. split; [|split].
  - intros Hformat.
    destruct (all_return formatTideStation (Map_values (directoryOf list)))
      as [stations Hst].
    { apply Forall_forall. intros station Hin. rewrite Forall_forall in Hformat.
      apply Hformat, Hfrom, Hin. }
    exists stations. apply arrayMap_Return in Hst. rewrite Hst. reflexivity.
  - intros e He.
    destruct (arrayMap formatTideStation (Map_values (directoryOf list)))
      as [stations|e'] eqn:Hmap; [discriminate|].
    injection He as ->. destruct (arrayMap_Throw _ _ _ Hmap) as (station & Hin & Hs).
    exists station. split; [apply Hfrom, Hin|exact Hs].
  - intros payload Hret.
    destruct (arrayMap formatTideStation (Map_values (directoryOf list)))
      as [stations|e'] eqn:Hmap; [|discriminate].
    injection Hret as <-. exists stations. split; [reflexivity|].
    apply arrayMap_Return in Hmap.
    assert (Hids : map f_id stations = map fst (directoryOf list)).
    { unfold Map_values in Hmap. clear - Hmap Hkeys.
      remember (directoryOf list) as m eqn:E. clear E.
      revert stations Hmap. induction m as [|[k v] m IH]; intros stations Hmap;
        inversion Hmap as [|? entry ? rest Hentry Hrest]; subst; [reflexivity|].
      simpl. rewrite (formatTideStation_id _ _ Hentry).
      rewrite (IH (fun x Hx => Hkeys x (or_intror Hx)) rest Hrest).
      f_equal. symmetry. exact (Hkeys (k, v) (or_introl eq_refl)). }
    split; [rewrite Hids; exact Hnd|]. split; [|split].
    + intros entry Hin.
      destruct (Forall2_In_right _ _ _ _ Hmap Hin) as (station & Hs & Hentry).
      exists station. split; [apply Hfrom, Hs|exact Hentry].
    + intros station Hin. rewrite Hids.
      pose proof (Map_new_from_get
                    (map (fun station => (stationId station, station)) list) []
                    (stationId station)) as Hget.
      fold (Map_new (map (fun station => (stationId station, station)) list)) in Hget.
      fold (directoryOf list) in Hget.
      destruct (find _ (rev _)) as [kv|] eqn:Hfind.
      * apply Map_get_key in Hget. apply in_map_iff.
        exists (stationId station, snd kv). auto.
      * exfalso.
        assert (Hnone : (stationId station =? stationId station)%string = false).
        { apply (find_none _ _ Hfind (stationId station, station)).
          rewrite <- in_rev. apply in_map_iff. eauto. }
        rewrite String.eqb_refl in Hnone. discriminate.
    + intros Hdistinct.
      assert (Hvalues : Map_values (directoryOf list) = list).
      { unfold directoryOf, Map_new. rewrite Map_new_from_distinct.
        - unfold Map_values. simpl. rewrite map_map. apply map_id.
        - simpl. rewrite map_map. exact Hdistinct. }
      rewrite Hvalues in Hmap. exact Hmap.
Qed.

End Formatting.

(** ** The first revision *)

Section FirstRevision.

Context {externals : Externals}.

Lemma earlier_getStationPredictions_run station days w :
  Earlier.getStationPredictions (Some station) days w =
  (mapCompletion withoutType (predictionsFor w days station),
   record (requestFor w (match days with Some d => d | None => 2 end) station) w).
Proof.
  unfold predictionsFor, requestFor, Earlier.getStationPredictions, getStationPredictions,
    fetchPredictionsForTideStation. run_M.
  unfold Earlier.formatTideStation, formatTideStation.
  destruct (predictionsEndpoint w _) as [e|[[l|]]]; cbn [predictions fst snd];
    try reflexivity;
    destruct (geoTz (parseFloat (station_lat station)) (parseFloat (station_lon station)));
    cbn [fst snd mapCompletion]; try reflexivity.
  destruct (arrayMap _ l); reflexivity.
Qed.

Lemma earlier_startAll days l : forall w,
  startAll (fun station => Earlier.getStationPredictions (Some station) days) l w =
  (map (fun station => mapCompletion withoutType (predictionsFor w days station)) l,
   recordAll (map (requestFor w (match days with Some d => d | None => 2 end)) l) w).
Proof.
  induction l as [|station l IH]; intros w; [reflexivity|].
  simpl startAll. rewrite earlier_getStationPredictions_run, IH. simpl. f_equal.
  f_equal. apply map_ext. intros s. rewrite predictionsFor_record. reflexivity.
Qed.

Lemma arraySet_map {A B : Type} (f : A -> B) (a : list (option A)) : forall i v,
  map (option_map f) (arraySet a i v) = arraySet (map (option_map f) a) i (f v).
Proof.
  induction a as [|x a IH]; intros i v.
  - induction i as [|i IHi]; simpl; [reflexivity|]. rewrite IHi. reflexivity.
  - destruct i as [|i]; simpl; [reflexivity|]. rewrite IH. reflexivity.
Qed.

Lemma elements_map {A B : Type} (f : A -> B) (a : list (option A)) :
  elements (map (option_map f) a) = map f (elements a).
Proof.
  unfold elements. induction a as [|[v|] a IH]; simpl; [reflexivity| |exact IH].
  rewrite IH. reflexivity.
Qed.

Lemma settle_map {A B : Type} (f : A -> B) (outcomes : list (Completion A)) order :
  forall results,
    settle (map (mapCompletion f) outcomes) order (map (option_map f) results)
    = mapCompletion (map f) (settle outcomes order results).
Proof.
  induction order as [|i order IH]; intros results; simpl.
  - rewrite elements_map. reflexivity.
  - rewrite nth_error_map. destruct (nth_error outcomes i) as [[v|e]|]; simpl.
    + rewrite <- arraySet_map. apply IH.
    + reflexivity.
    + apply IH.
Qed.

Lemma earlier_closestHandler_run schedule lat lon w :
  let near :=
    firstn 10 (sort byDistance
                 (stationsWithDistances (VString lat) (VString lon) (tideStations w))) in
  Earlier.closestHandler schedule lat lon w =
  (mapCompletion
     (fun stations => Earlier.ClosestPayload lat lon (map withoutType stations))
     (settle (map (predictionsFor w None) near)
        (completionOrder (List.length near) schedule) []),
   recordAll (map (requestFor w 2) near) w).
Proof.
  intros near. unfold Earlier.closestHandler. run_M.
  rewrite slice_firstn by lia. change (Z.to_nat 10) with 10%nat. fold near.
  unfold asyncMap. rewrite earlier_startAll.
  rewrite <- (map_map (predictionsFor w None) (mapCompletion withoutType)).
  change (@nil (option Earlier.StationWithPredictions))
    with (map (option_map withoutType) []).
  rewrite settle_map.
  destruct (settle _ _ _); reflexivity.
Qed.

(** X17. The nearest-stations route across revisions.  For coordinates
    that pass validation, findNear of the latest revision is [/closest] of
    the first: both issue the same requests, fail with the same error or
    return the same stations in the same order - the first revision
    without the [type] of a station and echoing the coordinates as text
    where the latest parses them. *)
Theorem near_is_the_first_closest_validated :
  forall (schedule : list nat) (lat lon : string) (w : World),
    validateLatitudeAndLongitude (VString lat) (VString lon) = Return tt ->
    snd (Earlier.closestHandler schedule lat lon w) = snd (nearHandler schedule lat lon w)
    /\ match fst (nearHandler schedule lat lon w) with
       | Return (NearPayload latitude longitude stations) =>
           latitude = parseFloat (VString lat)
           /\ longitude = parseFloat (VString lon)
           /\ fst (Earlier.closestHandler schedule lat lon w)
              = Return (Earlier.ClosestPayload lat lon (map withoutType stations))
       | Return _ => False
       | Throw e => fst (Earlier.closestHandler schedule lat lon w) = Throw e
       end.
Proof.
  intros schedule lat lon w Hv.
  pose proof (getStationsNear_passes _ _ (Some 10) w Hv) as Hnear.
  rewrite slice_firstn in Hnear by lia. change (Z.to_nat 10) with 10%nat in Hnear.
  rewrite earlier_closestHandler_run. cbn [fst snd]. split.
  - rewrite nearHandler_world. unfold candidates. rewrite Hnear. reflexivity.
  - rewrite (nearHandler_run schedule lat lon w _ (f_equal fst Hnear)).
    destruct (settle _ _ _); simpl; auto.
Qed.

(** X18. The first revision does not judge coordinates: [/closest]
    requests predictions for the first ten stations of the sorted
    snapshot whatever the coordinates are, and whatever it throws is the
    error of one of these fetches - never a [RangeError] of its own. *)
Theorem the_first_closest_takes_any_coordinates :
  forall (schedule : list nat) (lat lon : string) (w : World),
    let near :=
      firstn 10 (sort byDistance
                   (stationsWithDistances (VString lat) (VString lon) (tideStations w))) in
    issued w (snd (Earlier.closestHandler schedule lat lon w)) = map (requestFor w 2) near
    /\ (forall e,
          fst (Earlier.closestHandler schedule lat lon w) = Throw e ->
          exists culprit, In culprit near /\ predictionsFor w None culprit = Throw e)
    /\ (forall results,
          Forall2 (fun station result => predictionsFor w None station = Return result)
            near results ->
          fst (Earlier.closestHandler schedule lat lon w)
          = Return (Earlier.ClosestPayload lat lon (map withoutType results))).
Proof.
  intros schedule lat lon w near.
  rewrite (earlier_closestHandler_run schedule lat lon w). fold near. cbn [fst snd].
  split; [apply issued_recordAll|]. split.
  - intros e He.
    destruct (outcomes_cases (map (predictionsFor w None) near))
      as [[results Hmap]|(i & e' & Hthrow)].
    + rewrite Hmap, settle_all_return in He; [discriminate|].
      intros j Hj. apply In_completionOrder.
      rewrite <- (length_map (predictionsFor w None) near), Hmap, length_map. exact Hj.
    + destruct (settle_throw (map (predictionsFor w None) near)
                  (completionOrder (List.length near) schedule) []) as (e'' & Hs & Hfrom).
      { exists i, e'. split; [|exact Hthrow]. apply In_completionOrder.
        rewrite <- (length_map (predictionsFor w None) near).
        apply nth_error_Some. congruence. }
      rewrite Hs in He. simpl in He. injection He as <-.
      apply in_map_iff in Hfrom as (culprit & Hc & Hin). eauto.
  - intros results HF. apply Forall2_map_Return in HF. rewrite HF.
    rewrite settle_all_return; [reflexivity|].
    intros j Hj. apply In_completionOrder.
    rewrite <- (length_map (predictionsFor w None) near), HF, length_map. exact Hj.
Qed.

Lemma earlier_matchTides_spec url id :
  Earlier.matchTides url = Some id <->
  url = ("/tides/" ++ id)%string /\ allOf isDigit id = true.
Proof.
  unfold Earlier.matchTides. split.
  - destruct (startsWith "/tides/" url) eqn:Hp; [|discriminate].
    apply startsWith_app in Hp.
    destruct (allOf isDigit (drop (String.length "/tides/") url)) eqn:Hd; [|discriminate].
    intros H. injection H as <-. split; [exact Hp|exact Hd].
  - intros [-> Hd]. rewrite startsWith_prefix, drop_app, Hd. reflexivity.
Qed.

(** X19. The routes of the first revision are exactly two, and no path
    matches both: [/tides/] followed by one or more digits, and
    [/closest/] followed by two non-empty runs of digits, dots and hyphens
    around one comma.  Every other path - [/all], [/near/...] and the bare
    [/<id>] of the latest revision among them - matches nothing. *)
Theorem the_first_routes_are_exactly_these :
  forall (url : string) (route : Earlier.Matched),
    Earlier.matchRoute url = Some route <->
    match route with
    | Earlier.IndividualStation stationId =>
        url = ("/tides/" ++ stationId)%string /\ allOf isDigit stationId = true
    | Earlier.Closest lat lon =>
        url = ("/closest/" ++ lat ++ "," ++ lon)%string
        /\ allOf isCoordinateChar lat = true /\ allOf isCoordinateChar lon = true
    end.
Proof.
  intros url route. unfold Earlier.matchRoute. split.
  - destruct (Earlier.matchTides url) as [id|] eqn:Ht.
    { intros H. injection H as <-. apply earlier_matchTides_spec in Ht. exact Ht. }
    destruct (matchCoordinates "/closest/" url) as [[lat lon]|] eqn:Hc; [|discriminate].
    intros H. injection H as <-. apply matchCoordinates_spec in Hc. exact Hc.
  - destruct route as [id|lat lon].
    + intros H. apply earlier_matchTides_spec in H. rewrite H. reflexivity.
    + intros H. pose proof H as (-> & _ & _). apply matchCoordinates_spec in H.
      rewrite H. reflexivity.
Qed.

(** X20. The first dispatcher throws what it cannot serve.  It returns
    the empty body for a preflight on a route, having set the common
    header and the three access-control headers; or the handler's data
    for a GET, having set the common header and the three cache headers,
    the [ETag] that of the data.  Anything else is thrown: its own 405
    for another method, with the response untouched; its own 404 for a
    path off the routes, and a handler's error as it is - and then the
    response has gained the one common header and nothing else: no cache
    header has been set. *)
Theorem the_first_dispatcher_throws_what_it_cannot_serve :
  forall (schedule : list nat) (req : Req) (res : Earlier.Res) (w : World),
    let origin := ("Access-Control-Allow-Origin", Earlier.Text "*") in
    let '(outcome, res', w') := Earlier.exports schedule req res w in
    match outcome with
    | Return Earlier.EmptyBody =>
        method req = "OPTIONS" /\ Earlier.matchRoute (url req) <> None /\ w' = w
        /\ Earlier.headers res'
           = (Earlier.headers res
              ++ [origin;
                  ("Access-Control-Allow-Methods", Earlier.Text "GET, OPTIONS");
                  ("Access-Control-Allow-Headers",
                   Earlier.Text "X-Requested-With, Content-Type, Accept");
                  ("Access-Control-Allow-Max-Age", Earlier.Seconds 86400)])%list
    | Return (Earlier.Json data) =>
        method req = "GET"
        /\ (exists route,
               Earlier.matchRoute (url req) = Some route
               /\ Earlier.callHandler schedule route w = (Return data, w'))
        /\ Earlier.headers res'
           = (Earlier.headers res
              ++ [origin;
                  ("Expires", Earlier.ExpiresAfterHours 1);
                  ("Cache-Control", Earlier.PublicMaxAge 3600);
                  ("ETag", Earlier.ETagOf data)])%list
    | Throw e =>
        (e = mkError Error "Method Not Allowed" (Some 405)
         /\ method req <> "GET" /\ method req <> "OPTIONS" /\ res' = res /\ w' = w)
        \/ (Earlier.headers res' = (Earlier.headers res ++ [origin])%list
            /\ ((e = mkError Error "Not Found" (Some 404)
                 /\ Earlier.matchRoute (url req) = None /\ w' = w)
                \/ (method req = "GET"
                    /\ exists route,
                         Earlier.matchRoute (url req) = Some route
                         /\ Earlier.callHandler schedule route w = (Throw e, w'))))
    end.
Proof.
  intros schedule req res w origin. unfold Earlier.exports.
  destruct (String.eqb_spec (method req) "GET") as [Hget|Hget];
    destruct (String.eqb_spec (method req) "OPTIONS") as [Hopt|Hopt];
    cbn [negb andb]; try (exfalso; congruence).
  - destruct (Earlier.matchRoute (url req)) as [route|] eqn:Hroute.
    + destruct (Earlier.callHandler schedule route w) as [[data|e] w'] eqn:Hcall.
      * split; [exact Hget|]. split; [eauto|].
        unfold Earlier.setCacheHeaders, Earlier.setHeader. cbn [Earlier.headers].
        rewrite <- !app_assoc. reflexivity.
      * right. split; [reflexivity|]. right. eauto.
    + right. split; [reflexivity|]. left. auto.
  - destruct (Earlier.matchRoute (url req)) as [route|] eqn:Hroute.
    + split; [exact Hopt|]. split; [discriminate|]. split; [reflexivity|].
      unfold Earlier.setAccessControlHeaders, Earlier.setHeader. cbn [Earlier.headers].
      rewrite <- !app_assoc. reflexivity.
    + right. split; [reflexivity|]. left. auto.
  - left. auto.
Qed.

(** X21. An unknown station in the first revision.  The test for a
    missing station came later: here [getById] hands [undefined] on, the
    first property read throws a [TypeError] before any request is issued,
    and the dispatcher throws that error on - it carries no status code,
    where the latest revision answers 404. *)
Theorem the_first_getById_throws_a_TypeError :
  forall (schedule : list nat) (stationId : string) (res : Earlier.Res) (w : World),
    Map_get (tideStations w) stationId = None ->
    allOf isDigit stationId = true ->
    Earlier.individualStationHandler stationId w = (Throw (cannotRead "stationId"), w)
    /\ Earlier.exports schedule (mkReq "GET" ("/tides/" ++ stationId)) res w
       = (Throw (cannotRead "stationId"),
          Earlier.setHeader "Access-Control-Allow-Origin" (Earlier.Text "*") res, w)
    /\ name (cannotRead "stationId") = TypeError
    /\ statusCode (cannotRead "stationId") = None.
Proof.
  intros schedule stationId res w Hget Hdigits.
  assert (Hhandler : Earlier.individualStationHandler stationId w
                     = (Throw (cannotRead "stationId"), w)).
  { unfold Earlier.individualStationHandler, Earlier.getStationPredictions,
      fetchPredictionsForTideStation. run_M. rewrite Hget. reflexivity. }
  split; [exact Hhandler|]. split; [|split; reflexivity].
  unfold Earlier.exports. cbn [method url String.eqb Ascii.eqb Bool.eqb negb andb].
  assert (Hroute : Earlier.matchRoute ("/tides/" ++ stationId)
                   = Some (Earlier.IndividualStation stationId)).
  { unfold Earlier.matchRoute.
    rewrite (proj2 (earlier_matchTides_spec _ stationId) (conj eq_refl Hdigits)).
    reflexivity. }
  rewrite Hroute. cbn [Earlier.callHandler]. rewrite Hhandler. reflexivity.
Qed.

End FirstRevision.

(** ** One station, and none *)

Section Edges.

Context {externals : Externals}.

Lemma settle_nothing {B : Type} order : forall results : list (option B),
  settle [] order results = Return (elements results).
Proof.
  induction order as [|i order IH]; intros results; simpl; [reflexivity|].
  destruct i; apply IH.
Qed.

(** X22. findClosest asks for one station.  Once the coordinates pass
    validation and the directory is not empty, [closestHandler] issues
    exactly one request - for a station of the directory, over the 7-day
    window - and it returns exactly when that fetch does, with the error
    of the fetch otherwise. *)
Theorem closest_asks_for_one_station :
  forall (lat lon : string) (w : World),
    validateLatitudeAndLongitude (VString lat) (VString lon) = Return tt ->
    Map_size (tideStations w) <> 0%nat ->
    exists closest,
      In closest (stationsWithDistances (VString lat) (VString lon) (tideStations w))
      /\ fst (closestHandler lat lon w)
         = mapCompletion
             (ClosestPayload (parseFloat (VString lat)) (parseFloat (VString lon)))
             (predictionsFor w (Some 7) closest)
      /\ issued w (snd (closestHandler lat lon w)) = [requestFor w 7 closest].
Proof.
  intros lat lon w Hv Hsize.
  set (snapshot := stationsWithDistances (VString lat) (VString lon) (tideStations w)).
  assert (Hperm : Permutation (sort byDistance snapshot) snapshot) by apply sort_perm.
  destruct (sort byDistance snapshot) as [|closest rest] eqn:Hsorted.
  { exfalso. apply Permutation_nil in Hperm. apply Hsize.
    unfold snapshot, stationsWithDistances, Map_values in Hperm.
    apply (f_equal (@List.length _)) in Hperm. rewrite !length_map in Hperm.
    exact Hperm. }
  exists closest. split; [apply (Permutation_in _ Hperm); left; reflexivity|].
  split.
  - unfold closestHandler. run_M. rewrite getStationsNear_passes by exact Hv.
    rewrite slice_firstn by lia. fold snapshot. rewrite Hsorted.
    change (Z.to_nat 10) with 10%nat. cbn [firstn nth_error fst snd].
    rewrite getStationPredictions_run.
    destruct (predictionsFor w (Some 7) closest); reflexivity.
  - rewrite closestHandler_world, issued_recordAll. unfold candidates.
    rewrite getStationsNear_passes by exact Hv. rewrite slice_firstn by lia.
    fold snapshot. rewrite Hsorted. reflexivity.
Qed.

(** X23. findNear on an empty directory.  Where findClosest fails,
    [nearHandler] returns: with an empty directory and coordinates that
    pass validation it answers with an empty list of stations, issues no
    request, and the dispatcher sends this empty result with status 200. *)
Theorem near_on_an_empty_directory_is_empty :
  forall (schedule : list nat) (lat lon : string) (w : World),
    Map_size (tideStations w) = 0%nat ->
    validateLatitudeAndLongitude (VString lat) (VString lon) = Return tt ->
    let nothing :=
      NearPayload (parseFloat (VString lat)) (parseFloat (VString lon)) [] in
    nearHandler schedule lat lon w = (Return nothing, w)
    /\ forall req,
         method req = "GET" ->
         matchRoute (url req) = Some (Near lat lon) ->
         exists res,
           exports schedule req emptyRes w = (Return None, res, w)
           /\ sent res = [(200, Data nothing)].
Proof.
  intros schedule lat lon w Hempty Hv nothing.
  assert (Hnear : nearHandler schedule lat lon w = (Return nothing, w)).
  { unfold nearHandler, bind. rewrite getStationsNear_passes by exact Hv.
    unfold stationsWithDistances, Map_values.
    destruct (tideStations w); [|discriminate].
    simpl map. simpl sort. rewrite slice_firstn by lia. simpl firstn.
    unfold asyncMap. simpl startAll. cbv beta iota. rewrite settle_nothing. reflexivity. }
  split; [exact Hnear|].
  intros req Hm Hr. unfold exports. rewrite Hm, Hr. simpl. rewrite Hnear.
  eexists. split; reflexivity.
Qed.

End Edges.

(** ** The further properties on the directory of three stations *)

Lemma getStationsNear_rearranges_the_snapshot_witness :
  validateLatitudeAndLongitude (VString "0") (VString "0") = Return tt
  /\ 0 <= 2
  /\ exists near,
       getStationsNear (externals := StandIn.externals) (VString "0") (VString "0")
         (Some 2) Scenario.harbours
       = (Return near, Scenario.harbours)
       /\ List.length near = 2%nat
       /\ map stationId near = ["1"; "2"].
Proof.
  assert (Hv : validateLatitudeAndLongitude (VString "0") (VString "0") = Return tt)
    by (vm_compute; reflexivity).
  assert (Hn : 0 <= 2) by lia.
  split; [exact Hv|]. split; [exact Hn|].
  destruct (getStationsNear_rearranges_the_snapshot (externals := StandIn.externals)
              (VString "0") (VString "0") (Some 2) Scenario.harbours Hv Hn)
    as (Hw & near & others & Hret & Hlen & _ & _).
  exists near. split; [|split].
  - rewrite <- Hw at 2. rewrite <- Hret. apply surjective_pairing.
  - rewrite Hlen. reflexivity.
  - vm_compute in Hret. injection Hret as <-. reflexivity.
Defined.

Lemma near_fails_when_one_fetch_fails_witness :
  exists near failing,
    fst (getStationsNear (externals := StandIn.externals) (VString "0") (VString "0")
           (Some 10) Scenario.oneDown) = Return near
    /\ In failing near
    /\ predictionsFor (externals := StandIn.externals) Scenario.oneDown None failing
       = Throw Scenario.outage
    /\ fst (nearHandler (externals := StandIn.externals) [2; 0]%nat "0" "0"
              Scenario.oneDown) = Throw Scenario.outage
    /\ List.length
         (issued Scenario.oneDown
            (snd (nearHandler (externals := StandIn.externals) [2; 0]%nat "0" "0"
                    Scenario.oneDown))) = 3%nat.
Proof.
  set (near := candidates (externals := StandIn.externals) "0" "0" (Some 10)
                 Scenario.oneDown).
  set (failing := nth 1 near StandIn.B).
  assert (Hnear : fst (getStationsNear (externals := StandIn.externals) (VString "0")
                         (VString "0") (Some 10) Scenario.oneDown) = Return near)
    by (vm_compute; reflexivity).
  assert (Hin : In failing near) by (vm_compute; right; left; reflexivity).
  assert (He : predictionsFor (externals := StandIn.externals) Scenario.oneDown None
                 failing = Throw Scenario.outage) by (vm_compute; reflexivity).
  exists near, failing. split; [exact Hnear|]. split; [exact Hin|]. split; [exact He|].
  destruct (near_fails_when_one_fetch_fails (externals := StandIn.externals) [2; 0]%nat
              "0" "0" Scenario.oneDown near failing Scenario.outage Hnear Hin He)
    as ((culprit & e' & Hthrow & _ & _) & Hissued).
  split.
  - rewrite Hthrow. vm_compute in Hthrow. injection Hthrow as <-. reflexivity.
  - rewrite Hissued, length_map. reflexivity.
Defined.

Lemma closest_is_the_first_of_near_witness :
  exists station first rest,
    fst (closestHandler (externals := StandIn.externals) "0" "0" Scenario.harbours)
    = Return (ClosestPayload zero zero station)
    /\ fst (nearHandler (externals := StandIn.externals) [2; 0; 1]%nat "0" "0"
              Scenario.harbours)
       = Return (NearPayload zero zero (first :: rest))
    /\ station_fields first = station_fields station
    /\ f_id (station_fields station) = "1".
Proof.
  destruct (fst (closestHandler (externals := StandIn.externals) "0" "0"
                   Scenario.harbours)) as [closest|e] eqn:Hc;
    [|vm_compute in Hc; discriminate].
  destruct (fst (nearHandler (externals := StandIn.externals) [2; 0; 1]%nat "0" "0"
                   Scenario.harbours)) as [near|e] eqn:Hn;
    [|vm_compute in Hn; discriminate].
  destruct (closest_is_the_first_of_near (externals := StandIn.externals) [2; 0; 1]%nat
              "0" "0" Scenario.harbours closest near Hc Hn)
    as (station & first & rest & -> & -> & Hfields).
  exists station, first, rest.
  split; [reflexivity|]. split; [reflexivity|]. split; [exact Hfields|].
  vm_compute in Hc. injection Hc as <-. reflexivity.
Defined.

Lemma closest_is_a_nearest_station_witness :
  Forall (fun s => isNumber (distanceOf s) = true)
    (stationsWithDistances (externals := StandIn.externals) (VString "0") (VString "0.5")
       (tideStations Scenario.harbours))
  /\ exists station d,
       fst (closestHandler (externals := StandIn.externals) "0" "0.5" Scenario.harbours)
       = Return (ClosestPayload zero (parseFloat (VString "0.5")) station)
       /\ f_distance (station_fields station) = Some d
       /\ (forall s,
             In s (stationsWithDistances (externals := StandIn.externals) (VString "0")
                     (VString "0.5") (tideStations Scenario.harbours)) ->
             leb d (distanceOf s) = true)
       /\ f_id (station_fields station) = "2".
Proof.
  assert (Hnum : Forall (fun s => isNumber (distanceOf s) = true)
            (stationsWithDistances (externals := StandIn.externals) (VString "0")
               (VString "0.5") (tideStations Scenario.harbours)))
    by (vm_compute; repeat constructor).
  split; [exact Hnum|].
  destruct (fst (closestHandler (externals := StandIn.externals) "0" "0.5"
                   Scenario.harbours)) as [payload|e] eqn:Hc;
    [|vm_compute in Hc; discriminate].
  destruct (closest_is_a_nearest_station (externals := StandIn.externals) "0" "0.5"
              Scenario.harbours payload Hnum Hc)
    as (station & d & first & -> & Hd & Hleast & Hfind & Hfields).
  exists station, d. split; [|split; [exact Hd|split; [exact Hleast|]]].
  - reflexivity.
  - vm_compute in Hc. injection Hc as <-. reflexivity.
Defined.

Lemma the_directory_stays_keyed_by_station_ids_witness :
  wellKeyed (tideStations (StandIn.world []))
  /\ wellKeyed
       (tideStations
          (snd (run (externals := StandIn.externals) Scenario.aDay (StandIn.world []))))
  /\ map fst
       (tideStations
          (snd (run (externals := StandIn.externals) Scenario.aDay (StandIn.world []))))
     = ["1"; "2"].
Proof.
  assert (H : wellKeyed (tideStations (StandIn.world [])))
    by (vm_compute; split; constructor).
  split; [exact H|]. split; [|vm_compute; reflexivity].
  exact (the_directory_stays_keyed_by_station_ids (externals := StandIn.externals)
           Scenario.aDay (StandIn.world []) H).
Defined.

Lemma closest_station_resolves_by_its_id_witness :
  wellKeyed (tideStations Scenario.harbours)
  /\ exists closest found,
       fst (closestHandler (externals := StandIn.externals) "0" "0" Scenario.harbours)
       = Return (ClosestPayload zero zero closest)
       /\ fst (individualStationHandler (externals := StandIn.externals) "1"
                 Scenario.harbours)
          = Return (StationPayload found)
       /\ f_distance (station_fields closest) = Some zero
       /\ f_distance (station_fields found) = None
       /\ setDistance None (station_fields found)
          = setDistance None (station_fields closest)
       /\ station_predictions found = station_predictions closest.
Proof.
  assert (H : wellKeyed (tideStations Scenario.harbours)).
  { vm_compute. split.
    - repeat (constructor; [simpl; intuition discriminate|]). constructor.
    - repeat constructor. }
  split; [exact H|].
  destruct (fst (closestHandler (externals := StandIn.externals) "0" "0"
                   Scenario.harbours)) as [payload|e] eqn:Hc;
    [|vm_compute in Hc; discriminate].
  destruct (closest_station_resolves_by_its_id (externals := StandIn.externals) "0" "0"
              Scenario.harbours payload H Hc)
    as (closest & found & -> & Hfound & Hfields & Hpredictions & _).
  vm_compute in Hc. injection Hc as <-.
  eexists. exists found.
  split; [reflexivity|]. split; [exact Hfound|]. split; [reflexivity|].
  split; [vm_compute in Hfound; injection Hfound as <-; reflexivity|].
  split; [exact Hfields|exact Hpredictions].
Defined.

Lemma a_preflight_calls_no_handler_witness :
  method (mkReq "OPTIONS" "/near/1,2") = "OPTIONS"
  /\ exports (externals := StandIn.externals) [] (mkReq "OPTIONS" "/near/1,2") emptyRes
       Scenario.harbours
     = (Return (Some EmptyString),
        {| headers :=
             [("Access-Control-Allow-Origin", Text "*");
              ("Content-Type", Text "application/json");
              ("Access-Control-Allow-Methods", Text "GET, OPTIONS");
              ("Access-Control-Allow-Headers",
               Text "X-Requested-With, Content-Type, Accept");
              ("Access-Control-Allow-Max-Age", Seconds 86400)];
           sent := [] |},
        Scenario.harbours).
Proof.
  assert (Hm : method (mkReq "OPTIONS" "/near/1,2") = "OPTIONS") by reflexivity.
  split; [exact Hm|].
  destruct (a_preflight_calls_no_handler (externals := StandIn.externals) []
              (mkReq "OPTIONS" "/near/1,2") emptyRes Scenario.harbours Hm)
    as (Hw & Hroute & _).
  destruct (Hroute eq_refl) as (Hmatched & _).
  rewrite (surjective_pairing (exports _ _ _ _)), Hw, (Hmatched (Near "1" "2") eq_refl).
  reflexivity.
Defined.

Lemma predictions_share_the_station_time_zone_witness :
  exists r,
    predictionsFor (externals := StandIn.externals) Scenario.harbours (Some 7) StandIn.A
    = Return r
    /\ timeZone (station_fields r) = Some "Etc/UTC"
    /\ map time (station_predictions r) = ["2026-11-02 03:12 Etc/UTC"]
    /\ map prediction_type (station_predictions r) = [high].
Proof.
  destruct (predictionsFor (externals := StandIn.externals) Scenario.harbours (Some 7)
              StandIn.A) as [r|e] eqn:Hr; [|vm_compute in Hr; discriminate].
  destruct (predictions_share_the_station_time_zone (externals := StandIn.externals)
              Scenario.harbours (Some 7) StandIn.A r Hr)
    as (raw & Hraw & _ & Hzone & Hall).
  exists r. split; [reflexivity|].
  vm_compute in Hraw. injection Hraw as <-.
  assert (Htz : timeZone (station_fields r) = Some "Etc/UTC").
  { pose proof Hr as Hvalue. vm_compute in Hvalue. injection Hvalue as <-. reflexivity. }
  rewrite Htz in Hall. split; [exact Htz|].
  inversion Hall as [|point prediction raw' rest (Htime & _ & _ & Htype) Hrest];
    subst.
  inversion Hrest; subst. simpl.
  rewrite Htime. rewrite (proj2 Htype eq_refl). split; reflexivity.
Defined.

Lemma near_is_the_first_closest_validated_witness :
  validateLatitudeAndLongitude (VString "0") (VString "0") = Return tt
  /\ exists stations,
       fst (nearHandler (externals := StandIn.externals) [2; 0; 1]%nat "0" "0"
              Scenario.harbours)
       = Return (NearPayload zero zero stations)
       /\ fst (Earlier.closestHandler (externals := StandIn.externals) [2; 0; 1]%nat
                 "0" "0" Scenario.harbours)
          = Return (Earlier.ClosestPayload "0" "0" (map withoutType stations))
       /\ List.length stations = 3%nat.
Proof.
  assert (Hv : validateLatitudeAndLongitude (VString "0") (VString "0") = Return tt)
    by (vm_compute; reflexivity).
  split; [exact Hv|].
  destruct (near_is_the_first_closest_validated (externals := StandIn.externals)
              [2; 0; 1]%nat "0" "0" Scenario.harbours Hv) as [_ Hsame].
  revert Hsame.
  destruct (fst (nearHandler (externals := StandIn.externals) [2; 0; 1]%nat "0" "0"
                   Scenario.harbours)) as [payload|e] eqn:Hn;
    [|vm_compute in Hn; discriminate].
  destruct payload as [station|stations|latitude longitude station
                      |latitude longitude stations];
    try (vm_compute in Hn; discriminate).
  intros (-> & -> & Hfirst). exists stations.
  split; [reflexivity|]. split; [exact Hfirst|].
  vm_compute in Hn. injection Hn as <-. reflexivity.
Defined.

Lemma the_first_getById_throws_a_TypeError_witness :
  Map_get (tideStations Scenario.harbours) "9" = None
  /\ allOf isDigit "9" = true
  /\ Earlier.exports (externals := StandIn.externals) [] (mkReq "GET" "/tides/9")
       (Earlier.mkRes []) Scenario.harbours
     = (Throw (cannotRead "stationId"),
        Earlier.mkRes [("Access-Control-Allow-Origin", Earlier.Text "*")],
        Scenario.harbours).
Proof.
  assert (Hget : Map_get (tideStations Scenario.harbours) "9" = None)
    by (vm_compute; reflexivity).
  assert (Hdigits : allOf isDigit "9" = true) by (vm_compute; reflexivity).
  split; [exact Hget|]. split; [exact Hdigits|].
  destruct (the_first_getById_throws_a_TypeError (externals := StandIn.externals) []
              "9" (Earlier.mkRes []) Scenario.harbours Hget Hdigits)
    as (_ & Hexports & _).
  exact Hexports.
Defined.

Lemma closest_asks_for_one_station_witness :
  validateLatitudeAndLongitude (VString "0") (VString "1") = Return tt
  /\ Map_size (tideStations Scenario.oneDown) <> 0%nat
  /\ fst (closestHandler (externals := StandIn.externals) "0" "1" Scenario.oneDown)
     = Throw Scenario.outage
  /\ exists closest,
       stationId closest = "2"
       /\ issued Scenario.oneDown
            (snd (closestHandler (externals := StandIn.externals) "0" "1"
                    Scenario.oneDown))
          = [requestFor (externals := StandIn.externals) Scenario.oneDown 7 closest].
Proof.
  assert (Hv : validateLatitudeAndLongitude (VString "0") (VString "1") = Return tt)
    by (vm_compute; reflexivity).
  assert (Hsize : Map_size (tideStations Scenario.oneDown) <> 0%nat)
    by (vm_compute; discriminate).
  split; [exact Hv|]. split; [exact Hsize|]. split; [vm_compute; reflexivity|].
  destruct (closest_asks_for_one_station (externals := StandIn.externals) "0" "1"
              Scenario.oneDown Hv Hsize) as (closest & _ & _ & Hissued).
  exists closest. split; [|exact Hissued].
  vm_compute in Hissued. injection Hissued as Hid. symmetry. exact Hid.
Defined.

Lemma near_on_an_empty_directory_is_empty_witness :
  Map_size (tideStations (StandIn.world [])) = 0%nat
  /\ validateLatitudeAndLongitude (VString "0") (VString "0") = Return tt
  /\ nearHandler (externals := StandIn.externals) [1; 0]%nat "0" "0" (StandIn.world [])
     = (Return (NearPayload zero zero []), StandIn.world [])
  /\ exists res,
       exports (externals := StandIn.externals) [1; 0]%nat (mkReq "GET" "/near/0,0")
         emptyRes (StandIn.world [])
       = (Return None, res, StandIn.world [])
       /\ sent res = [(200, Data (NearPayload zero zero []))].
Proof.
  assert (Hempty : Map_size (tideStations (StandIn.world [])) = 0%nat) by reflexivity.
  assert (Hv : validateLatitudeAndLongitude (VString "0") (VString "0") = Return tt)
    by (vm_compute; reflexivity).
  split; [exact Hempty|]. split; [exact Hv|].
  destruct (near_on_an_empty_directory_is_empty (externals := StandIn.externals)
              [1; 0]%nat "0" "0" (StandIn.world []) Hempty Hv) as [Hnear Hsent].
  split; [exact Hnear|].
  exact (Hsent (mkReq "GET" "/near/0,0") eq_refl eq_refl).
Defined.
